(** * Digital Snow Globe (src/js/heroshape.js): particle physics

    A shallow embedding of the physics of heroshape.js: the vector helpers
    of [utils], the [Particle] class, the resize handler, particle creation
    and the animation frame.

    Modelling conventions.
    - JavaScript numbers are idealised as real numbers ([R]) in the first
      embedding: it speaks about the arithmetic the code writes down, not
      about binary64 rounding. On [R] every comparison decides one way or
      the other. What depends on infinities and NaN (whether a particle
      stays inside the walls, frame after frame) is stated over a second
      embedding, module [Js], whose numbers have the special values of
      JavaScript; on finite numbers the two embeddings agree.
    - The ambient globals [containerWidth], [containerHeight], [mouse] and
      [particles] are the fields of a [World] record that is passed
      explicitly.
    - The [particles] array is a list; a particle object is identified with
      its index in that array (object identity [particle !== this] is index
      inequality), and a method that mutates [this] or [otherParticle]
      writes the new record back at that index.
    - jQuery/DOM calls ([updateDOM], [applyColor], element creation) have no
      effect on the physics state and are left out; what is read from the
      DOM (the container's width and height) is an input. *)

From Stdlib Require Import Reals Lra Lia ZArith.
From Stdlib Require String.
From stdpp Require Import base list strings.

Open Scope R_scope.

(** ** Comparisons as booleans *)

Definition Rleb (a b : R) : bool := if Rle_dec a b then true else false.
Definition Rltb (a b : R) : bool := if Rlt_dec a b then true else false.
Definition Rgeb (a b : R) : bool := Rleb b a.
Definition Rgtb (a b : R) : bool := Rltb b a.

(** ** Configuration *)

Record Physics := {
  FRICTION : R;
  REPULSION_RADIUS : R;
  REPULSION_FORCE : R;
  BOUNCE_ENERGY : R;
  INITIAL_VELOCITY : R;
  PARTICLE_COUNT : Z;
  MIN_SIZE : R;
  MAX_SIZE : R
}.

(** The values written in the source (0.995 and 1.05 as fractions). *)
Definition PHYSICS : Physics := {|
  FRICTION := 995 / 1000;
  REPULSION_RADIUS := 150;
  REPULSION_FORCE := 3;
  BOUNCE_ENERGY := 105 / 100;
  INITIAL_VELOCITY := 4;
  PARTICLE_COUNT := 35;
  MIN_SIZE := 25;
  MAX_SIZE := 55
|}.

(** ** Data model *)

(** An [{x, y}] object. *)
Record Vec := mkVec { vx : R; vy : R }.

(** The physics fields of a [Particle] instance. *)
Record Particle := mkParticle {
  x : R;
  y : R;
  size : R;
  mass : R;
  friction : R;
  velocity : Vec
}.

(** [mouse] starts as [{x: undefined, y: undefined}]; its only writer, the
    mousemove handler, assigns both coordinates together. *)
Record World := mkWorld {
  containerWidth : R;
  containerHeight : R;
  mouse : option (R * R);
  particles : list Particle
}.

(** ** utils *)

Module utils.

Definition distance (x1 y1 x2 y2 : R) : R :=
  sqrt ((x2 - x1) ^ 2 + (y2 - y1) ^ 2).

Definition rotateVector (vector : Vec) (angle : R) : Vec :=
  {| vx := vx vector * cos angle - vy vector * sin angle;
     vy := vx vector * sin angle + vy vector * cos angle |}.

Definition clamp (value min max : R) : R := Rmin (Rmax min value) max.

End utils.

(** [Math.atan2(y, x)] on real arguments: the angle in (-PI, PI] of the
    point (x, y), and 0 at the origin. *)
Definition atan2 (y0 x0 : R) : R :=
  if Rltb 0 x0 then atan (y0 / x0)
  else if Rltb x0 0 then
    (if Rleb 0 y0 then atan (y0 / x0) + PI else atan (y0 / x0) - PI)
  else if Rltb 0 y0 then PI / 2
  else if Rltb y0 0 then - (PI / 2)
  else 0.

(** ** Particle methods *)

Section ParticleMethods.

Variable cfg : Physics.

(** [utils.randomVelocity()]; [r1] and [r2] are its two draws of
    [Math.random()], in the order in which they are made. *)
Definition randomVelocity (r1 r2 : R) : Vec :=
  {| vx := (r1 - 5 / 10) * INITIAL_VELOCITY cfg;
     vy := (r2 - 5 / 10) * INITIAL_VELOCITY cfg |}.

(** The constructor, [new Particle($element, x, y, size, fillColor)], with
    the two draws of its [utils.randomVelocity()] call. *)
Definition newParticle (x0 y0 size0 r1 r2 : R) : Particle :=
  {| x := x0; y := y0; size := size0; mass := size0 * 2;
     friction := FRICTION cfg; velocity := randomVelocity r1 r2 |}.

Definition set_velocity (p : Particle) (v : Vec) : Particle :=
  {| x := x p; y := y p; size := size p; mass := mass p;
     friction := friction p; velocity := v |}.

Definition set_position (p : Particle) (x0 y0 : R) : Particle :=
  {| x := x0; y := y0; size := size p; mass := mass p;
     friction := friction p; velocity := velocity p |}.

(** [clamp()] reads the two container globals. *)
Definition clamp (width height : R) (p : Particle) : Particle :=
  set_position p
    (utils.clamp (x p) (size p) (width - size p))
    (utils.clamp (y p) (size p) (height - size p)).

Definition applyForce (forceX forceY : R) (p : Particle) : Particle :=
  set_velocity p
    {| vx := vx (velocity p) + forceX; vy := vy (velocity p) + forceY |}.

(** The four [if] statements of [handleWallCollisions], in order; each
    one reads the fields as the previous one left them. *)
Definition leftWall (p : Particle) : Particle :=
  if Rleb (x p - size p) 0 then
    set_position
      (set_velocity p
         {| vx := Rabs (vx (velocity p)) * BOUNCE_ENERGY cfg;
            vy := vy (velocity p) |})
      (size p) (y p)
  else p.

Definition rightWall (width : R) (p : Particle) : Particle :=
  if Rgeb (x p + size p) width then
    set_position
      (set_velocity p
         {| vx := - Rabs (vx (velocity p)) * BOUNCE_ENERGY cfg;
            vy := vy (velocity p) |})
      (width - size p) (y p)
  else p.

Definition topWall (p : Particle) : Particle :=
  if Rleb (y p - size p) 0 then
    set_position
      (set_velocity p
         {| vx := vx (velocity p);
            vy := Rabs (vy (velocity p)) * BOUNCE_ENERGY cfg |})
      (x p) (size p)
  else p.

Definition bottomWall (height : R) (p : Particle) : Particle :=
  if Rgeb (y p + size p) height then
    set_position
      (set_velocity p
         {| vx := vx (velocity p);
            vy := - Rabs (vy (velocity p)) * BOUNCE_ENERGY cfg |})
      (x p) (height - size p)
  else p.

(** The four tests in the order of the source. On [R] one of [<=] and [>]
    always holds; [Js.handleWallCollisions] below is the same method over
    numbers where a test on NaN is false. *)
Definition handleWallCollisions (width height : R) (p : Particle) : Particle :=
  bottomWall height (topWall (rightWall width (leftWall p))).

Definition repelFromMouse (m : option (R * R)) (p : Particle) : Particle :=
  match m with
  | None => p
  | Some (mx, my) =>
      let distance := utils.distance (x p) (y p) mx my in
      if Rltb distance (REPULSION_RADIUS cfg) && Rgtb distance 0 then
        let force :=
          ((REPULSION_RADIUS cfg - distance) / REPULSION_RADIUS cfg)
          * REPULSION_FORCE cfg in
        let angle := atan2 (y p - my) (x p - mx) in
        applyForce (cos angle * force) (sin angle * force) p
      else p
  end.

Definition calculateCollisionVelocity (v1 v2 : Vec) (m1 m2 : R) : Vec :=
  {| vx := (vx v1 * (m1 - m2) + vx v2 * 2 * m2) / (m1 + m2);
     vy := vy v1 |}.

(** [this.handleCollision(otherParticle)]: the new states of [this] and
    of [otherParticle]. *)
Definition handleCollision (this other : Particle) : Particle * Particle :=
  let distance := utils.distance (x this) (y this) (x other) (y other) in
  if Rleb distance 0 || Rgeb distance (size this + size other) then
    (this, other)
  else
    let angle := - atan2 (y other - y this) (x other - x this) in
    let velocity1 := utils.rotateVector (velocity this) angle in
    let velocity2 := utils.rotateVector (velocity other) angle in
    let newVelocity1 :=
      calculateCollisionVelocity velocity1 velocity2 (mass this) (mass other) in
    let newVelocity2 :=
      calculateCollisionVelocity velocity2 velocity1 (mass other) (mass this) in
    (set_velocity this (utils.rotateVector newVelocity1 (- angle)),
     set_velocity other (utils.rotateVector newVelocity2 (- angle))).

Definition updatePosition (p : Particle) : Particle :=
  let v := {| vx := vx (velocity p) * friction p;
              vy := vy (velocity p) * friction p |} in
  set_position (set_velocity p v) (x p + vx v) (y p + vy v).

End ParticleMethods.

(** ** The particles array and the animation frame *)

Section WorldOps.

Variable cfg : Physics.

Definition set_particles (w : World) (ps : list Particle) : World :=
  {| containerWidth := containerWidth w;
     containerHeight := containerHeight w;
     mouse := mouse w;
     particles := ps |}.

(** [particles[i].handleCollision(particles[j])], writing both objects
    back. *)
Definition collide (i j : nat) (ps : list Particle) : list Particle :=
  match ps !! i, ps !! j with
  | Some this, Some other =>
      let '(this', other') := handleCollision this other in
      <[j := other']> (<[i := this']> ps)
  | _, _ => ps
  end.

(** [allParticles.forEach((particle) => { if (particle !== this)
    this.handleCollision(particle); })] for [this = particles[i]]. *)
Definition collideStep (i : nat) (ps : list Particle) (j : nat) : list Particle :=
  if decide (j = i) then ps else collide i j ps.

Definition collideAll (i : nat) (ps : list Particle) : list Particle :=
  fold_left (collideStep i) (seq 0 (length ps)) ps.

(** [particles[i].update(particles)] (without [updateDOM]). *)
Definition update (i : nat) (w : World) : World :=
  let ps1 := alter (repelFromMouse cfg (mouse w)) i (particles w) in
  let ps2 := collideAll i ps1 in
  let ps3 := alter updatePosition i ps2 in
  let ps4 :=
    alter (handleWallCollisions cfg (containerWidth w) (containerHeight w))
      i ps3 in
  set_particles w ps4.

(** One run of the body of [animate]:
    [particles.forEach((particle) => particle.update(particles))]. *)
Definition animate_frame (w : World) : World :=
  fold_left (fun acc i => update i acc) (seq 0 (length (particles w))) w.

(** [n] consecutive frames with no event in between. *)
Definition animate (n : nat) (w : World) : World :=
  Nat.iter n animate_frame w.

(** *** The method calls of a frame

    The control flow of [animate] and [update] does not depend on the
    numbers: the frame is a fixed sequence of method calls on the
    particles, determined by the length of the array. *)

Inductive Call :=
| CallRepelFromMouse (i : nat)
| CallHandleCollision (i j : nat)
| CallUpdatePosition (i : nat)
| CallHandleWallCollisions (i : nat).

Definition exec_call (w : World) (c : Call) : World :=
  match c with
  | CallRepelFromMouse i =>
      set_particles w (alter (repelFromMouse cfg (mouse w)) i (particles w))
  | CallHandleCollision i j =>
      set_particles w (collide i j (particles w))
  | CallUpdatePosition i =>
      set_particles w (alter updatePosition i (particles w))
  | CallHandleWallCollisions i =>
      set_particles w
        (alter (handleWallCollisions cfg (containerWidth w) (containerHeight w))
           i (particles w))
  end.

Definition run_calls (cs : list Call) (w : World) : World :=
  fold_left exec_call cs w.

Definition collision_calls (i n : nat) : list Call :=
  flat_map (fun j => if decide (j = i) then [] else [CallHandleCollision i j])
    (seq 0 n).

Definition update_calls (i n : nat) : list Call :=
  CallRepelFromMouse i
    :: collision_calls i n
    ++ [CallUpdatePosition i; CallHandleWallCollisions i].

Definition frame_calls (n : nat) : list Call :=
  flat_map (fun i => update_calls i n) (seq 0 n).

(** *** Event handlers *)

(** The mousemove handler. *)
Definition onMouseMove (pageX pageY offsetLeft offsetTop : R) (w : World) : World :=
  {| containerWidth := containerWidth w;
     containerHeight := containerHeight w;
     mouse := Some (pageX - offsetLeft, pageY - offsetTop);
     particles := particles w |}.

(** The resize handler; [newWidth] and [newHeight] are what
    [$container.width()] and [$container.height()] return. *)
Definition onResize (newWidth newHeight : R) (w : World) : World :=
  {| containerWidth := newWidth;
     containerHeight := newHeight;
     mouse := mouse w;
     particles := clamp newWidth newHeight <$> particles w |}.

(** *** Particle creation *)

(** [Math.random()] is a stream of draws [rng 0], [rng 1], ...; the
    number of draws made so far is threaded through the creation code. *)
Variable rng : nat -> R.

Definition randomPosition (width height size0 r1 r2 : R) : R * R :=
  (r1 * (width - 2 * size0) + size0, r2 * (height - 2 * size0) + size0).

Definition randomSize (r : R) : R :=
  MIN_SIZE cfg + r * (MAX_SIZE cfg - MIN_SIZE cfg).

Definition MAX_ATTEMPTS : nat := 100.

Definition overlapsSome (size0 : R) (position : R * R)
    (existingParticles : list Particle) : bool :=
  existsb
    (fun particle =>
       Rltb (utils.distance (fst position) (snd position) (x particle) (y particle))
         (size0 + size particle))
    existingParticles.

(** The [while (attempts < MAX_ATTEMPTS)] loop; [left] is
    [MAX_ATTEMPTS - attempts]. *)
Fixpoint findValidPosition_loop (left : nat) (width height size0 : R)
    (existingParticles : list Particle) (position : R * R) (k : nat)
    : (R * R) * nat :=
  match left with
  | O => (position, k)
  | S left' =>
      if negb (overlapsSome size0 position existingParticles) then (position, k)
      else
        findValidPosition_loop left' width height size0 existingParticles
          (randomPosition width height size0 (rng k) (rng (S k)))
          (S (S k))
  end.

Definition findValidPosition (width height size0 : R)
    (existingParticles : list Particle) (k : nat) : (R * R) * nat :=
  findValidPosition_loop MAX_ATTEMPTS width height size0 existingParticles
    (randomPosition width height size0 (rng k) (rng (S k)))
    (S (S k)).

(** One iteration of the [for] loop of [createParticles]: a draw for the
    size, the draws of [findValidPosition], a draw for [randomColor], and
    the two draws of the constructor's [randomVelocity]. *)
Definition createParticle (width height : R) (st : list Particle * nat)
    : list Particle * nat :=
  let '(ps, k) := st in
  let size0 := randomSize (rng k) in
  let '(position, k1) := findValidPosition width height size0 ps (S k) in
  let k2 := S k1 in
  let particle :=
    newParticle cfg (fst position) (snd position) size0 (rng k2) (rng (S k2)) in
  (ps ++ [particle], S (S k2)).

(** [for (let i = 0; i < PHYSICS.PARTICLE_COUNT; i++)]. *)
Definition createParticles (width height : R) (st : list Particle * nat)
    : list Particle * nat :=
  Nat.iter (Z.to_nat (PARTICLE_COUNT cfg)) (createParticle width height) st.

(** How a call completes: normally with a value, or by throwing. The
    source has no [throw] statement and no validation of [PHYSICS], so
    [init] has the normal completion only. *)
Inductive Completion (A : Type) :=
| Normal (a : A)
| Throw (e : String.string).
Global Arguments Normal {A} a.
Global Arguments Throw {A} e.

(** [init()], at page load; [width] and [height] are the container's
    measured dimensions. *)
Definition init (width height : R) : Completion World :=
  Normal
    {| containerWidth := width;
       containerHeight := height;
       mouse := None;
       particles := fst (createParticles width height ([], 0%nat)) |}.

End WorldOps.

(** ** Vocabulary of the specification *)

Definition vadd (u v : Vec) : Vec := {| vx := vx u + vx v; vy := vy u + vy v |}.
Definition vscale (k : R) (v : Vec) : Vec := {| vx := k * vx v; vy := k * vy v |}.
Definition dot (u v : Vec) : R := vx u * vx v + vy u * vy v.

(** |v| *)
Definition norm (v : Vec) : R := sqrt (vx v ^ 2 + vy v ^ 2).

(** m1*v1 + m2*v2 *)
Definition momentum (a b : Particle) : Vec :=
  vadd (vscale (mass a) (velocity a)) (vscale (mass b) (velocity b)).

(** What the constructor establishes and no method changes. *)
Definition constructed (p : Particle) : Prop := mass p = size p * 2.

(** What the constructor gives every particle of the array. *)
Definition created (cfg : Physics) (rng : nat -> R) (p : Particle) : Prop :=
  (exists j, size p = randomSize cfg (rng j))
  /\ constructed p /\ friction p = FRICTION cfg.

(** The fields of a particle other than its velocity. *)
Definition body (p : Particle) : R * R * R * R * R :=
  (x p, y p, size p, mass p, friction p).

(** The circles overlap: the guard of [handleCollision] lets the call
    through. *)
Definition touching (a b : Particle) : Prop :=
  0 < utils.distance (x a) (y a) (x b) (y b) < size a + size b.

(** The pointer is present and the particle is inside its field: the guards
    of [repelFromMouse] let the call through. *)
Definition repelled (cfg : Physics) (m : option (R * R)) (p : Particle) : Prop :=
  match m with
  | None => False
  | Some (mx, my) =>
      0 < utils.distance (x p) (y p) mx my < REPULSION_RADIUS cfg
  end.

(** One of the four tests of [handleWallCollisions] holds. *)
Definition wallContact (width height : R) (p : Particle) : Prop :=
  x p - size p <= 0 \/ x p + size p >= width
  \/ y p - size p <= 0 \/ y p + size p >= height.

Definition fits (width height : R) (p : Particle) : Prop :=
  2 * size p <= width /\ 2 * size p <= height.

Definition inBounds (width height : R) (p : Particle) : Prop :=
  size p <= x p <= width - size p /\ size p <= y p <= height - size p.

(** The world after the first [k] particles of a frame have run [update]. *)
Definition frame_prefix (cfg : Physics) (k : nat) (w : World) : World :=
  fold_left (fun acc i => update cfg i acc) (seq 0 k) w.

(** Number of [handleCollision] calls with receiver [i] and argument [j]. *)
Definition is_collision (i j : nat) (c : Call) : bool :=
  match c with
  | CallHandleCollision a b => Nat.eqb a i && Nat.eqb b j
  | _ => false
  end.

Definition collision_count (i j : nat) (cs : list Call) : nat :=
  length (List.filter (is_collision i j) cs).

(** The particle on which a call is made ([this]). *)
Definition receiver (c : Call) : nat :=
  match c with
  | CallRepelFromMouse i => i
  | CallHandleCollision i _ => i
  | CallUpdatePosition i => i
  | CallHandleWallCollisions i => i
  end.

(** The unit vector from [a]'s centre to [b]'s centre, and its normal. *)
Definition centreLine (a b : Particle) : Vec :=
  {| vx := (x b - x a) / utils.distance (x a) (y a) (x b) (y b);
     vy := (y b - y a) / utils.distance (x a) (y a) (x b) (y b) |}.

Definition centreNormal (a b : Particle) : Vec :=
  {| vx := - vy (centreLine a b); vy := vx (centreLine a b) |}.

(** The angle [handleCollision] rotates by. *)
Definition collisionAngle (a b : Particle) : R :=
  - atan2 (y b - y a) (x b - x a).

(** *** The frame as the specification words it

    [step()] in world-level phases: repulsion for every body, then the
    collision of every pair, then integration and wall resolution for every
    body. [both] chooses between resolving each ordered pair (both
    directions) and each unordered pair once. *)

Definition spec_pairs (both : bool) (n : nat) : list (nat * nat) :=
  flat_map
    (fun i =>
       flat_map
         (fun j =>
            if decide (j = i) then []
            else if both then [(i, j)]
            else if decide (i < j)%nat then [(i, j)] else [])
         (seq 0 n))
    (seq 0 n).

Definition step_spec (cfg : Physics) (both : bool) (w : World) : World :=
  let ps1 := repelFromMouse cfg (mouse w) <$> particles w in
  let ps2 :=
    fold_left (fun ps '(i, j) => collide i j ps)
      (spec_pairs both (length ps1)) ps1 in
  let ps3 :=
    (fun p =>
       handleWallCollisions cfg (containerWidth w) (containerHeight w)
         (updatePosition p)) <$> ps2 in
  set_particles w ps3.

(** [r] is [v] clamped into the interval from [lo] to [hi]. *)
Definition clampedTo (v lo hi r : R) : Prop :=
  lo <= r <= hi
  /\ (lo <= v <= hi -> r = v)
  /\ (v < lo -> r = lo)
  /\ (hi < v -> r = hi).

(** ** Scenes used as examples *)

(** The scenario of the specification: viewport 400 x 300, one body of
    radius 20 at (10, 150) with velocity (-3, 0), friction coefficient 1,
    no pointer. *)
Definition leftWallBody : Particle :=
  {| x := 10; y := 150; size := 20; mass := 40; friction := 1;
     velocity := {| vx := -3; vy := 0 |} |}.

Definition leftWallScene : World :=
  {| containerWidth := 400; containerHeight := 300; mouse := None;
     particles := [leftWallBody] |}.

(** A particle wider than a container 50 wide. *)
Definition wideBody : Particle :=
  {| x := 10; y := 150; size := 30; mass := 60; friction := 995 / 1000;
     velocity := {| vx := -3; vy := 0 |} |}.

(** A particle of the smallest configured size, before its container is
    resized to 40 x 300. *)
Definition smallBody : Particle :=
  {| x := 30; y := 150; size := 25; mass := 50; friction := 995 / 1000;
     velocity := {| vx := 1; vy := 2 |} |}.

Definition smallScene : World :=
  {| containerWidth := 400; containerHeight := 300; mouse := None;
     particles := [smallBody] |}.

(** Two overlapping particles of equal mass, the left one moving towards
    the right one, and a third one far away. *)
Definition ballA : Particle :=
  {| x := 100; y := 100; size := 25; mass := 50; friction := 995 / 1000;
     velocity := {| vx := 1; vy := 0 |} |}.

Definition ballB : Particle :=
  {| x := 130; y := 100; size := 25; mass := 50; friction := 995 / 1000;
     velocity := {| vx := 0; vy := 0 |} |}.

Definition ballC : Particle :=
  {| x := 500; y := 500; size := 25; mass := 50; friction := 995 / 1000;
     velocity := {| vx := 0; vy := 1 |} |}.

Definition twoBalls : World :=
  {| containerWidth := 1000; containerHeight := 1000; mouse := None;
     particles := [ballA; ballB] |}.

(** A particle alone in the middle of a large container. *)
Definition freeScene : World :=
  {| containerWidth := 1000; containerHeight := 1000; mouse := None;
     particles := [ballC] |}.

(** Configurations that the specification calls invalid: no particles, and
    a minimum size above the maximum size. *)
Definition noParticles : Physics := {|
  FRICTION := 995 / 1000;
  REPULSION_RADIUS := 150;
  REPULSION_FORCE := 3;
  BOUNCE_ENERGY := 105 / 100;
  INITIAL_VELOCITY := 4;
  PARTICLE_COUNT := 0;
  MIN_SIZE := 25;
  MAX_SIZE := 55
|}.

Definition invertedSizes : Physics := {|
  FRICTION := 995 / 1000;
  REPULSION_RADIUS := 150;
  REPULSION_FORCE := 3;
  BOUNCE_ENERGY := 105 / 100;
  INITIAL_VELOCITY := 4;
  PARTICLE_COUNT := 1;
  MIN_SIZE := 55;
  MAX_SIZE := 25
|}.

(** A random source whose every draw is 0. *)
Definition zeroDraws : nat -> R := fun _ => 0.

(** ** Rendering and colours *)

(** The CSS properties [left], [top], [width] and [height] that
    [updateDOM] (and [createParticleElement]) write on the particle's
    element. *)
Record Box := mkBox {
  css_left : R;
  css_top : R;
  css_width : R;
  css_height : R
}.

Definition updateDOM (p : Particle) : Box :=
  {| css_left := x p - size p;
     css_top := y p - size p;
     css_width := size p * 2;
     css_height := size p * 2 |}.

(** [COLORS.SHAPES] *)
Definition SHAPES : list String.string := ["white"%string].

(** [utils.randomColor()] on a palette, for the draw [r]; [Math.floor] is
    the integer part, and an index outside the array gives [undefined]. *)
Definition randomColor (palette : list String.string) (r : R)
    : option String.string :=
  palette !! Z.to_nat (Int_part (r * INR (length palette))).

(** m * |v|^2 / 2 *)
Definition kineticEnergy (p : Particle) : R :=
  mass p * (vx (velocity p) ^ 2 + vy (velocity p) ^ 2) / 2.

(** No two particles of the array overlap. *)
Definition spread (ps : list Particle) : Prop :=
  forall i j a b,
    (i < j)%nat -> ps !! i = Some a -> ps !! j = Some b ->
    size a + size b <= utils.distance (x a) (y a) (x b) (y b).

(** The call is a call of [handleCollision]. *)
Definition is_handleCollision (c : Call) : bool :=
  match c with
  | CallHandleCollision _ _ => true
  | _ => false
  end.

(** ** The event loop *)

(** After [init], the browser runs the registered callbacks one at a time,
    each to completion: an animation frame, the mousemove handler with the
    event's page coordinates and the container's offset, or the resize
    handler with the container's new dimensions. *)
Inductive Event :=
| EvFrame
| EvMouseMove (pageX pageY offsetLeft offsetTop : R)
| EvResize (newWidth newHeight : R).

Definition handleEvent (cfg : Physics) (w : World) (e : Event) : World :=
  match e with
  | EvFrame => animate_frame cfg w
  | EvMouseMove pageX pageY offsetLeft offsetTop =>
      onMouseMove pageX pageY offsetLeft offsetTop w
  | EvResize newWidth newHeight => onResize newWidth newHeight w
  end.

Definition runEvents (cfg : Physics) (es : list Event) (w : World) : World :=
  fold_left (handleEvent cfg) es w.

(** ** Numbers with the special values of JavaScript

    A second embedding of the physics, over numbers that can be infinite or
    NaN. It is what a claim needs that depends on how the code treats such
    values: a comparison with NaN is false, an arithmetic operation on NaN
    gives NaN, and so do Infinity - Infinity and Infinity * 0. Arithmetic
    on finite numbers is still exact: results are not rounded, a finite
    result never overflows to an infinity, and zero has no sign. *)

Inductive num :=
| Fin (r : R)
| PInf
| NInf
| NaN.

Module Num.

Definition isNaN (a : num) : bool :=
  match a with
  | NaN => true
  | _ => false
  end.

Definition neg (a : num) : num :=
  match a with
  | Fin r => Fin (- r)
  | PInf => NInf
  | NInf => PInf
  | NaN => NaN
  end.

(** An infinity times a finite number. *)
Definition scaleInf (inf : num) (r : R) : num :=
  if Rltb 0 r then inf else if Rltb r 0 then neg inf else NaN.

Definition add (a b : num) : num :=
  match a, b with
  | NaN, _ => NaN
  | _, NaN => NaN
  | Fin r, Fin s => Fin (r + s)
  | Fin _, PInf => PInf
  | Fin _, NInf => NInf
  | PInf, NInf => NaN
  | PInf, _ => PInf
  | NInf, PInf => NaN
  | NInf, _ => NInf
  end.

Definition sub (a b : num) : num := add a (neg b).

Definition mul (a b : num) : num :=
  match a, b with
  | NaN, _ => NaN
  | _, NaN => NaN
  | Fin r, Fin s => Fin (r * s)
  | Fin r, inf => scaleInf inf r
  | inf, Fin s => scaleInf inf s
  | PInf, PInf => PInf
  | PInf, NInf => NInf
  | NInf, PInf => NInf
  | NInf, NInf => PInf
  end.

Definition div (a b : num) : num :=
  match a, b with
  | NaN, _ => NaN
  | _, NaN => NaN
  | Fin r, Fin s =>
      if Rleb s 0 && Rleb 0 s then scaleInf PInf r else Fin (r / s)
  | Fin _, _ => Fin 0
  | inf, Fin s => if Rltb s 0 then neg inf else inf
  | _, _ => NaN
  end.

(** [Math.abs] *)
Definition abs (a : num) : num :=
  match a with
  | Fin r => Fin (Rabs r)
  | PInf => PInf
  | NInf => PInf
  | NaN => NaN
  end.

(** [Math.sqrt] *)
Definition sqrt (a : num) : num :=
  match a with
  | Fin r => if Rltb r 0 then NaN else Fin (R_sqrt.sqrt r)
  | PInf => PInf
  | _ => NaN
  end.

(** [Math.cos] and [Math.sin] *)
Definition cos (a : num) : num :=
  match a with
  | Fin r => Fin (Rtrigo_def.cos r)
  | _ => NaN
  end.

Definition sin (a : num) : num :=
  match a with
  | Fin r => Fin (Rtrigo_def.sin r)
  | _ => NaN
  end.

(** [Math.atan2(y, x)] *)
Definition atan2 (b a : num) : num :=
  match b, a with
  | NaN, _ => NaN
  | _, NaN => NaN
  | Fin s, Fin r => Fin (atan2 s r)
  | Fin _, PInf => Fin 0
  | Fin s, NInf => if Rltb s 0 then Fin (- PI) else Fin PI
  | PInf, Fin _ => Fin (PI / 2)
  | NInf, Fin _ => Fin (- (PI / 2))
  | PInf, PInf => Fin (PI / 4)
  | PInf, NInf => Fin (3 * PI / 4)
  | NInf, PInf => Fin (- (PI / 4))
  | NInf, NInf => Fin (- (3 * PI / 4))
  end.

(** [a <= b] and [a < b]; [a >= b] and [a > b] are these with the
    arguments exchanged. *)
Definition leb (a b : num) : bool :=
  match a, b with
  | NaN, _ => false
  | _, NaN => false
  | Fin r, Fin s => Rleb r s
  | NInf, _ => true
  | _, PInf => true
  | _, _ => false
  end.

Definition ltb (a b : num) : bool :=
  match a, b with
  | NaN, _ => false
  | _, NaN => false
  | Fin r, Fin s => Rltb r s
  | NInf, NInf => false
  | NInf, _ => true
  | PInf, _ => false
  | Fin _, PInf => true
  | Fin _, NInf => false
  end.

Definition geb (a b : num) : bool := leb b a.
Definition gtb (a b : num) : bool := ltb b a.

(** [Math.max] and [Math.min] of two arguments. *)
Definition max (a b : num) : num :=
  match a, b with
  | NaN, _ => NaN
  | _, NaN => NaN
  | _, _ => if leb a b then b else a
  end.

Definition min (a b : num) : num :=
  match a, b with
  | NaN, _ => NaN
  | _, NaN => NaN
  | _, _ => if leb a b then a else b
  end.

End Num.

(** ** The physics over these numbers *)

Module Js.

Record Vec := mkVec { vx : num; vy : num }.

Record Particle := mkParticle {
  x : num;
  y : num;
  size : num;
  mass : num;
  friction : num;
  velocity : Vec
}.

Record World := mkWorld {
  containerWidth : num;
  containerHeight : num;
  mouse : option (num * num);
  particles : list Particle
}.

Module utils.

Definition distance (x1 y1 x2 y2 : num) : num :=
  Num.sqrt
    (Num.add (Num.mul (Num.sub x2 x1) (Num.sub x2 x1))
             (Num.mul (Num.sub y2 y1) (Num.sub y2 y1))).

Definition rotateVector (vector : Vec) (angle : num) : Vec :=
  {| vx := Num.sub (Num.mul (vx vector) (Num.cos angle))
                   (Num.mul (vy vector) (Num.sin angle));
     vy := Num.add (Num.mul (vx vector) (Num.sin angle))
                   (Num.mul (vy vector) (Num.cos angle)) |}.

Definition clamp (value min max : num) : num :=
  Num.min (Num.max min value) max.

End utils.

Definition set_velocity (p : Particle) (v : Vec) : Particle :=
  {| x := x p; y := y p; size := size p; mass := mass p;
     friction := friction p; velocity := v |}.

Definition set_position (p : Particle) (x0 y0 : num) : Particle :=
  {| x := x0; y := y0; size := size p; mass := mass p;
     friction := friction p; velocity := velocity p |}.

Definition clamp (width height : num) (p : Particle) : Particle :=
  set_position p
    (utils.clamp (x p) (size p) (Num.sub width (size p)))
    (utils.clamp (y p) (size p) (Num.sub height (size p))).

Definition applyForce (forceX forceY : num) (p : Particle) : Particle :=
  set_velocity p
    {| vx := Num.add (vx (velocity p)) forceX;
       vy := Num.add (vy (velocity p)) forceY |}.

Definition leftWall (cfg : Physics) (p : Particle) : Particle :=
  if Num.leb (Num.sub (x p) (size p)) (Fin 0) then
    set_position
      (set_velocity p
         {| vx := Num.mul (Num.abs (vx (velocity p))) (Fin (BOUNCE_ENERGY cfg));
            vy := vy (velocity p) |})
      (size p) (y p)
  else p.

Definition rightWall (cfg : Physics) (width : num) (p : Particle) : Particle :=
  if Num.geb (Num.add (x p) (size p)) width then
    set_position
      (set_velocity p
         {| vx := Num.mul (Num.neg (Num.abs (vx (velocity p))))
                    (Fin (BOUNCE_ENERGY cfg));
            vy := vy (velocity p) |})
      (Num.sub width (size p)) (y p)
  else p.

Definition topWall (cfg : Physics) (p : Particle) : Particle :=
  if Num.leb (Num.sub (y p) (size p)) (Fin 0) then
    set_position
      (set_velocity p
         {| vx := vx (velocity p);
            vy := Num.mul (Num.abs (vy (velocity p))) (Fin (BOUNCE_ENERGY cfg)) |})
      (x p) (size p)
  else p.

Definition bottomWall (cfg : Physics) (height : num) (p : Particle) : Particle :=
  if Num.geb (Num.add (y p) (size p)) height then
    set_position
      (set_velocity p
         {| vx := vx (velocity p);
            vy := Num.mul (Num.neg (Num.abs (vy (velocity p))))
                    (Fin (BOUNCE_ENERGY cfg)) |})
      (x p) (Num.sub height (size p))
  else p.

Definition handleWallCollisions (cfg : Physics) (width height : num)
    (p : Particle) : Particle :=
  bottomWall cfg height (topWall cfg (rightWall cfg width (leftWall cfg p))).

Definition repelFromMouse (cfg : Physics) (m : option (num * num))
    (p : Particle) : Particle :=
  match m with
  | None => p
  | Some (mx, my) =>
      let distance := utils.distance (x p) (y p) mx my in
      if Num.ltb distance (Fin (REPULSION_RADIUS cfg)) && Num.gtb distance (Fin 0)
      then
        let force :=
          Num.mul
            (Num.div (Num.sub (Fin (REPULSION_RADIUS cfg)) distance)
                     (Fin (REPULSION_RADIUS cfg)))
            (Fin (REPULSION_FORCE cfg)) in
        let angle := Num.atan2 (Num.sub (y p) my) (Num.sub (x p) mx) in
        applyForce (Num.mul (Num.cos angle) force) (Num.mul (Num.sin angle) force) p
      else p
  end.

Definition calculateCollisionVelocity (v1 v2 : Vec) (m1 m2 : num) : Vec :=
  {| vx := Num.div
             (Num.add (Num.mul (vx v1) (Num.sub m1 m2))
                      (Num.mul (Num.mul (vx v2) (Fin 2)) m2))
             (Num.add m1 m2);
     vy := vy v1 |}.

Definition handleCollision (this other : Particle) : Particle * Particle :=
  let distance := utils.distance (x this) (y this) (x other) (y other) in
  if Num.leb distance (Fin 0)
     || Num.geb distance (Num.add (size this) (size other))
  then (this, other)
  else
    let angle :=
      Num.neg (Num.atan2 (Num.sub (y other) (y this)) (Num.sub (x other) (x this))) in
    let velocity1 := utils.rotateVector (velocity this) angle in
    let velocity2 := utils.rotateVector (velocity other) angle in
    let newVelocity1 :=
      calculateCollisionVelocity velocity1 velocity2 (mass this) (mass other) in
    let newVelocity2 :=
      calculateCollisionVelocity velocity2 velocity1 (mass other) (mass this) in
    (set_velocity this (utils.rotateVector newVelocity1 (Num.neg angle)),
     set_velocity other (utils.rotateVector newVelocity2 (Num.neg angle))).

Definition updatePosition (p : Particle) : Particle :=
  let v := {| vx := Num.mul (vx (velocity p)) (friction p);
              vy := Num.mul (vy (velocity p)) (friction p) |} in
  set_position (set_velocity p v) (Num.add (x p) (vx v)) (Num.add (y p) (vy v)).

(** The CSS box of [updateDOM]. *)
Record Box := mkBox {
  css_left : num;
  css_top : num;
  css_width : num;
  css_height : num
}.

Definition updateDOM (p : Particle) : Box :=
  {| css_left := Num.sub (x p) (size p);
     css_top := Num.sub (y p) (size p);
     css_width := Num.mul (size p) (Fin 2);
     css_height := Num.mul (size p) (Fin 2) |}.

Definition set_particles (w : World) (ps : list Particle) : World :=
  {| containerWidth := containerWidth w;
     containerHeight := containerHeight w;
     mouse := mouse w;
     particles := ps |}.

Definition collide (i j : nat) (ps : list Particle) : list Particle :=
  match ps !! i, ps !! j with
  | Some this, Some other =>
      let '(this', other') := handleCollision this other in
      <[j := other']> (<[i := this']> ps)
  | _, _ => ps
  end.

Definition collideStep (i : nat) (ps : list Particle) (j : nat) : list Particle :=
  if decide (j = i) then ps else collide i j ps.

Definition collideAll (i : nat) (ps : list Particle) : list Particle :=
  fold_left (collideStep i) (seq 0 (length ps)) ps.

Definition update (cfg : Physics) (i : nat) (w : World) : World :=
  let ps1 := alter (repelFromMouse cfg (mouse w)) i (particles w) in
  let ps2 := collideAll i ps1 in
  let ps3 := alter updatePosition i ps2 in
  let ps4 :=
    alter (handleWallCollisions cfg (containerWidth w) (containerHeight w))
      i ps3 in
  set_particles w ps4.

Definition animate_frame (cfg : Physics) (w : World) : World :=
  fold_left (fun acc i => update cfg i acc) (seq 0 (length (particles w))) w.

Definition animate (cfg : Physics) (n : nat) (w : World) : World :=
  Nat.iter n (animate_frame cfg) w.

Definition frame_prefix (cfg : Physics) (k : nat) (w : World) : World :=
  fold_left (fun acc i => update cfg i acc) (seq 0 k) w.

Definition onMouseMove (pageX pageY offsetLeft offsetTop : num) (w : World) : World :=
  {| containerWidth := containerWidth w;
     containerHeight := containerHeight w;
     mouse := Some (Num.sub pageX offsetLeft, Num.sub pageY offsetTop);
     particles := particles w |}.

Definition onResize (newWidth newHeight : num) (w : World) : World :=
  {| containerWidth := newWidth;
     containerHeight := newHeight;
     mouse := mouse w;
     particles := clamp newWidth newHeight <$> particles w |}.

Inductive Event :=
| EvFrame
| EvMouseMove (pageX pageY offsetLeft offsetTop : num)
| EvResize (newWidth newHeight : num).

Definition handleEvent (cfg : Physics) (w : World) (e : Event) : World :=
  match e with
  | EvFrame => animate_frame cfg w
  | EvMouseMove pageX pageY offsetLeft offsetTop =>
      onMouseMove pageX pageY offsetLeft offsetTop w
  | EvResize newWidth newHeight => onResize newWidth newHeight w
  end.

Definition runEvents (cfg : Physics) (es : list Event) (w : World) : World :=
  fold_left (handleEvent cfg) es w.

Definition movesParticles (e : Event) : Prop :=
  match e with
  | EvMouseMove _ _ _ _ => False
  | _ => True
  end.

(** What the two tests of [handleWallCollisions] on one axis make of the
    coordinate [c] of a particle of radius [r] in a container of dimension
    [d]: the test for the near wall, then the test for the far wall on what
    the first has left. *)
Definition wallAxis (c r d : num) : num :=
  let c1 := if Num.leb (Num.sub c r) (Fin 0) then r else c in
  if Num.geb (Num.add c1 r) d then Num.sub d r else c1.

(** The fields of a particle other than its velocity. *)
Definition body (p : Particle) : num * num * num * num * num :=
  (x p, y p, size p, mass p, friction p).

(** The particle has a finite radius [r] whose double is at most each of
    the finite container dimensions [w] and [h]. *)
Definition fits (width height : num) (p : Particle) : Prop :=
  exists r w h,
    size p = Fin r /\ width = Fin w /\ height = Fin h
    /\ 2 * r <= w /\ 2 * r <= h.

(** radius <= x <= width - radius and radius <= y <= height - radius, as
    the comparisons of the language decide them. *)
Definition inBounds (width height : num) (p : Particle) : Prop :=
  Num.leb (size p) (x p) = true
  /\ Num.leb (x p) (Num.sub width (size p)) = true
  /\ Num.leb (size p) (y p) = true
  /\ Num.leb (y p) (Num.sub height (size p)) = true.

(** Neither coordinate is NaN. *)
Definition located (p : Particle) : Prop :=
  Num.isNaN (x p) = false /\ Num.isNaN (y p) = false.

(** Every fitting particle that has a position lies inside the container. *)
Definition contained (w : World) : Prop :=
  Forall
    (fun p =>
       fits (containerWidth w) (containerHeight w) p -> located p ->
       inBounds (containerWidth w) (containerHeight w) p)
    (particles w).

End Js.

(** A particle and a world of the first embedding, seen in the second. *)
Definition jsVec (v : Vec) : Js.Vec :=
  {| Js.vx := Fin (vx v); Js.vy := Fin (vy v) |}.

Definition jsParticle (p : Particle) : Js.Particle :=
  {| Js.x := Fin (x p); Js.y := Fin (y p); Js.size := Fin (size p);
     Js.mass := Fin (mass p); Js.friction := Fin (friction p);
     Js.velocity := jsVec (velocity p) |}.





(** A ball of radius 25 at (300, 150) in a container 400 x 300, about to
    be resized to 200 x 300. *)
Definition farBall : Js.Particle :=
  {| Js.x := Fin 300; Js.y := Fin 150; Js.size := Fin 25; Js.mass := Fin 50;
     Js.friction := Fin (995 / 1000);
     Js.velocity := {| Js.vx := Fin 1; Js.vy := Fin 2 |} |}.

Definition farScene : Js.World :=
  {| Js.containerWidth := Fin 400; Js.containerHeight := Fin 300;
     Js.mouse := None;
     Js.particles := [farBall] |}.

(** The number of draws made when the first [m] particles have been
    created. *)
Definition drawsAfter (cfg : Physics) (rng : nat -> R) (width height : R)
    (m : nat) : nat :=
  snd (Nat.iter m (createParticle cfg rng width height) ([], 0%nat)).

(** The configured physics with two particles, and draws that are all 0
    but the one for the x coordinate of the second particle. *)
Definition twoParticles : Physics := {|
  FRICTION := 995 / 1000;
  REPULSION_RADIUS := 150;
  REPULSION_FORCE := 3;
  BOUNCE_ENERGY := 105 / 100;
  INITIAL_VELOCITY := 4;
  PARTICLE_COUNT := 2;
  MIN_SIZE := 25;
  MAX_SIZE := 55
|}.

Definition spacedDraws : nat -> R :=
  fun k => if Nat.eqb k 7 then 5 / 10 else 0.

(** * Properties *)

(** ** Comparisons *)

Lemma Rleb_le (a b : R) : Rleb a b = true <-> a <= b.
Proof. unfold Rleb. destruct (Rle_dec a b); split; intros; try easy. Qed.

Lemma Rltb_lt (a b : R) : Rltb a b = true <-> a < b.
Proof. unfold Rltb. destruct (Rlt_dec a b); split; intros; try easy. Qed.

Lemma Rleb_gt (a b : R) : Rleb a b = false <-> b < a.
Proof.
  unfold Rleb. destruct (Rle_dec a b); split; intros; try easy; lra.
Qed.

Lemma Rltb_ge (a b : R) : Rltb a b = false <-> b <= a.
Proof.
  unfold Rltb. destruct (Rlt_dec a b); split; intros; try easy; lra.
Qed.

(** Decide the comparisons of the goal that linear arithmetic settles. *)
Ltac rdecide :=
  unfold Rgeb, Rgtb;
  repeat first
    [ rewrite (proj2 (Rleb_le _ _)) by lra
    | rewrite (proj2 (Rleb_gt _ _)) by lra
    | rewrite (proj2 (Rltb_lt _ _)) by lra
    | rewrite (proj2 (Rltb_ge _ _)) by lra ].

(** Reduce the projections of records that are written out. *)
Ltac fields :=
  cbn [x y size mass friction velocity vx vy set_velocity set_position
       containerWidth containerHeight mouse particles fst snd] in *.

(** ** Euclidean distance and [atan2] *)

Lemma distance_nonneg (x1 y1 x2 y2 : R) : 0 <= utils.distance x1 y1 x2 y2.
Proof. apply sqrt_pos. Qed.

Lemma sum_sqr_nonneg (a b : R) : 0 <= a ^ 2 + b ^ 2.
Proof. apply Rplus_le_le_0_compat; apply pow2_ge_0. Qed.

Lemma distance_sqr (x1 y1 x2 y2 : R) :
  utils.distance x1 y1 x2 y2 * utils.distance x1 y1 x2 y2
  = (x2 - x1) ^ 2 + (y2 - y1) ^ 2.
Proof. unfold utils.distance. apply sqrt_sqrt. apply sum_sqr_nonneg. Qed.

Lemma distance_sym (x1 y1 x2 y2 : R) :
  utils.distance x1 y1 x2 y2 = utils.distance x2 y2 x1 y1.
Proof. unfold utils.distance. f_equal. ring. Qed.

(** A distance known by its square. *)
Lemma distance_eq (x1 y1 x2 y2 d : R) :
  0 <= d -> d * d = (x2 - x1) ^ 2 + (y2 - y1) ^ 2 ->
  utils.distance x1 y1 x2 y2 = d.
Proof.
  intros Hd Hsq. unfold utils.distance. apply sqrt_lem_1; [apply sum_sqr_nonneg | exact Hd | exact Hsq].
Qed.

Lemma sqrt_one_plus_sqr (a b : R) :
  0 < a -> sqrt (1 + (b / a)²) = sqrt (a ^ 2 + b ^ 2) / a.
Proof.
  intros Ha.
  assert (Hd : 0 <= sqrt (a ^ 2 + b ^ 2)) by apply sqrt_pos.
  assert (Hdd : sqrt (a ^ 2 + b ^ 2) * sqrt (a ^ 2 + b ^ 2) = a ^ 2 + b ^ 2)
    by (apply sqrt_sqrt; apply sum_sqr_nonneg).
  apply sqrt_lem_1.
  - pose proof (Rle_0_sqr (b / a)). lra.
  - apply Rmult_le_pos; [exact Hd | left; apply Rinv_0_lt_compat; exact Ha].
  - unfold Rsqr.
    replace (sqrt (a ^ 2 + b ^ 2) / a * (sqrt (a ^ 2 + b ^ 2) / a))
      with ((sqrt (a ^ 2 + b ^ 2) * sqrt (a ^ 2 + b ^ 2)) / (a * a))
      by (field; lra).
    rewrite Hdd. field. lra.
Qed.

Lemma hypot_pos (a b : R) : a <> 0 \/ b <> 0 -> 0 < sqrt (a ^ 2 + b ^ 2).
Proof.
  intros H. apply sqrt_lt_R0.
  pose proof (pow2_ge_0 a). pose proof (pow2_ge_0 b).
  destruct H as [H | H]; apply (pow_nonzero _ 2) in H; lra.
Qed.

(** The angle returned by [atan2] has the cosine and sine of the direction
    of the point. *)
Lemma atan2_cos_sin (y0 x0 : R) :
  x0 <> 0 \/ y0 <> 0 ->
  cos (atan2 y0 x0) = x0 / sqrt (x0 ^ 2 + y0 ^ 2)
  /\ sin (atan2 y0 x0) = y0 / sqrt (x0 ^ 2 + y0 ^ 2).
Proof.
  intros Hne.
  pose proof (hypot_pos x0 y0 Hne) as Hd.
  unfold atan2.
  destruct (Rltb 0 x0) eqn:Hx.
  - apply Rltb_lt in Hx.
    rewrite cos_atan, sin_atan, (sqrt_one_plus_sqr x0 y0 Hx).
    split; field; lra.
  - apply Rltb_ge in Hx.
    destruct (Rltb x0 0) eqn:Hx'.
    + apply Rltb_lt in Hx'.
      assert (Hs : sqrt (1 + (y0 / x0)²) = sqrt (x0 ^ 2 + y0 ^ 2) / (- x0)).
      { replace (y0 / x0) with ((- y0) / (- x0)) by (field; lra).
        rewrite (sqrt_one_plus_sqr (- x0) (- y0)) by lra.
        do 2 f_equal. ring. }
      destruct (Rleb 0 y0).
      * rewrite neg_cos, neg_sin, cos_atan, sin_atan, Hs. split; field; lra.
      * rewrite cos_minus, sin_minus, cos_PI, sin_PI, cos_atan, sin_atan, Hs.
        split; field; lra.
    + apply Rltb_ge in Hx'.
      assert (x0 = 0) by lra. subst x0.
      replace (0 ^ 2 + y0 ^ 2) with (y0 ^ 2) in * by ring.
      destruct (Rltb 0 y0) eqn:Hy.
      * apply Rltb_lt in Hy. rewrite cos_PI2, sin_PI2, sqrt_pow2 by lra.
        split; field; lra.
      * apply Rltb_ge in Hy.
        assert (Hy' : y0 < 0) by (destruct Hne; lra).
        rewrite (proj2 (Rltb_lt _ _) Hy').
        rewrite cos_neg, sin_neg, cos_PI2, sin_PI2.
        replace (y0 ^ 2) with ((- y0) ^ 2) by ring.
        rewrite sqrt_pow2 by lra. split; field; lra.
Qed.

Lemma cos2_sin2 (a : R) : cos a * cos a + sin a * sin a = 1.
Proof. pose proof (sin2_cos2 a) as H. unfold Rsqr in H. lra. Qed.

(** ** Rotation *)

Lemma Vec_eq (u v : Vec) : vx u = vx v -> vy u = vy v -> u = v.
Proof. destruct u, v; simpl; intros -> ->; reflexivity. Qed.

Lemma rotate_back (v : Vec) (a : R) :
  utils.rotateVector (utils.rotateVector v a) (- a) = v.
Proof.
  pose proof (cos2_sin2 a) as H.
  apply Vec_eq; simpl; rewrite cos_neg, sin_neg.
  - transitivity (vx v * (cos a * cos a + sin a * sin a)); [ring | rewrite H; ring].
  - transitivity (vy v * (cos a * cos a + sin a * sin a)); [ring | rewrite H; ring].
Qed.

Lemma rotate_forth (v : Vec) (a : R) :
  utils.rotateVector (utils.rotateVector v (- a)) a = v.
Proof.
  rewrite <- (Ropp_involutive a) at 2. apply rotate_back.
Qed.

Lemma rotate_linear (k l : R) (u v : Vec) (a : R) :
  utils.rotateVector (vadd (vscale k u) (vscale l v)) a
  = vadd (vscale k (utils.rotateVector u a)) (vscale l (utils.rotateVector v a)).
Proof. apply Vec_eq; simpl; ring. Qed.

Lemma rotate_norm (v : Vec) (a : R) : norm (utils.rotateVector v a) = norm v.
Proof.
  unfold norm. f_equal. simpl.
  pose proof (cos2_sin2 a) as H.
  transitivity ((vx v ^ 2 + vy v ^ 2) * (cos a * cos a + sin a * sin a));
    [ring | rewrite H; ring].
Qed.

(** ** The one-dimensional elastic update *)

Lemma calculateCollisionVelocity_momentum (u v : Vec) (m1 m2 : R) :
  m1 + m2 <> 0 ->
  vadd (vscale m1 (calculateCollisionVelocity u v m1 m2))
       (vscale m2 (calculateCollisionVelocity v u m2 m1))
  = vadd (vscale m1 u) (vscale m2 v).
Proof.
  intros Hm. apply Vec_eq; simpl; [field; lra | ring].
Qed.

(** Applying the update to its own result, with the roles exchanged, gives
    the velocities back. *)
Lemma calculateCollisionVelocity_twice (u v : Vec) (m1 m2 : R) :
  m1 + m2 <> 0 ->
  calculateCollisionVelocity
    (calculateCollisionVelocity u v m1 m2)
    (calculateCollisionVelocity v u m2 m1) m1 m2 = u.
Proof.
  intros Hm. apply Vec_eq; simpl; [field; lra | reflexivity].
Qed.

(** ** handleCollision *)

Lemma touching_sym (a b : Particle) : touching a b -> touching b a.
Proof.
  unfold touching. rewrite (distance_sym (x b) (y b)). lra.
Qed.

Lemma touching_body (a b a' b' : Particle) :
  body a = body a' -> body b = body b' -> touching a b -> touching a' b'.
Proof.
  unfold body, touching. intros Ha Hb. inversion Ha. inversion Hb. congruence.
Qed.

Lemma handleCollision_touching (a b : Particle) :
  touching a b ->
  handleCollision a b
  = (set_velocity a
       (utils.rotateVector
          (calculateCollisionVelocity
             (utils.rotateVector (velocity a) (collisionAngle a b))
             (utils.rotateVector (velocity b) (collisionAngle a b))
             (mass a) (mass b))
          (- collisionAngle a b)),
     set_velocity b
       (utils.rotateVector
          (calculateCollisionVelocity
             (utils.rotateVector (velocity b) (collisionAngle a b))
             (utils.rotateVector (velocity a) (collisionAngle a b))
             (mass b) (mass a))
          (- collisionAngle a b))).
Proof.
  intros [H0 H1]. unfold handleCollision, collisionAngle.
  rdecide. reflexivity.
Qed.

Lemma handleCollision_apart (a b : Particle) :
  ~ touching a b -> handleCollision a b = (a, b).
Proof.
  intros H. unfold handleCollision, touching in *.
  destruct (Rleb _ 0) eqn:E0; [reflexivity |].
  destruct (Rgeb _ _) eqn:E1; [reflexivity |].
  apply Rleb_gt in E0. unfold Rgeb in E1. apply Rleb_gt in E1.
  exfalso. apply H. split; assumption.
Qed.

Lemma touching_dec (a b : Particle) : touching a b \/ ~ touching a b.
Proof.
  unfold touching.
  destruct (Rlt_dec 0 (utils.distance (x a) (y a) (x b) (y b)));
    destruct (Rlt_dec (utils.distance (x a) (y a) (x b) (y b)) (size a + size b));
    [left | right | right | right]; lra.
Qed.

(** [handleCollision] writes nothing but the two velocities. *)
Lemma handleCollision_body (a b : Particle) :
  body (fst (handleCollision a b)) = body a
  /\ body (snd (handleCollision a b)) = body b.
Proof.
  destruct (touching_dec a b) as [H | H].
  - rewrite handleCollision_touching by exact H. split; reflexivity.
  - rewrite handleCollision_apart by exact H. split; reflexivity.
Qed.

(** The cosine and sine of the collision angle are those of the line of
    centres. *)
Lemma collisionAngle_cos_sin (a b : Particle) :
  0 < utils.distance (x a) (y a) (x b) (y b) ->
  cos (collisionAngle a b) = vx (centreLine a b)
  /\ sin (collisionAngle a b) = - vy (centreLine a b).
Proof.
  intros Hd. unfold collisionAngle, centreLine; simpl.
  rewrite cos_neg, sin_neg.
  assert (Hne : x b - x a <> 0 \/ y b - y a <> 0).
  { destruct (Req_dec (x b - x a) 0) as [Hx | Hx]; [| left; exact Hx].
    destruct (Req_dec (y b - y a) 0) as [Hy | Hy]; [| right; exact Hy].
    exfalso. unfold utils.distance in Hd. rewrite Hx, Hy in Hd.
    replace (0 ^ 2 + 0 ^ 2) with 0 in Hd by ring. rewrite sqrt_0 in Hd. lra. }
  destruct (atan2_cos_sin _ _ Hne) as [Hc Hs].
  rewrite Hc, Hs. unfold utils.distance. split; reflexivity.
Qed.

(** In the rotated frame the first coordinate is the component along the
    line of centres and the second the component across it. *)
Lemma rotate_collisionAngle (a b : Particle) (v : Vec) :
  0 < utils.distance (x a) (y a) (x b) (y b) ->
  vx (utils.rotateVector v (collisionAngle a b)) = dot v (centreLine a b)
  /\ vy (utils.rotateVector v (collisionAngle a b)) = dot v (centreNormal a b).
Proof.
  intros Hd. destruct (collisionAngle_cos_sin a b Hd) as [Hc Hs].
  unfold dot, centreNormal. simpl vx at 1. simpl vy at 1.
  cbn [utils.rotateVector vx vy]. rewrite Hc, Hs. simpl. split; ring.
Qed.

Lemma constructed_touching_mass (a b : Particle) :
  constructed a -> constructed b -> touching a b -> 0 < mass a + mass b.
Proof.
  unfold constructed, touching. intros -> -> [H0 H1]. lra.
Qed.

Lemma rotate_opposite (v : Vec) (a a' : R) :
  cos a' = - cos a -> sin a' = - sin a ->
  utils.rotateVector v a' = vscale (-1) (utils.rotateVector v a).
Proof. intros Hc Hs. apply Vec_eq; simpl; rewrite Hc, Hs; ring. Qed.

Lemma rotate_vscale (k : R) (v : Vec) (a : R) :
  utils.rotateVector (vscale k v) a = vscale k (utils.rotateVector v a).
Proof. apply Vec_eq; simpl; ring. Qed.

Lemma calculateCollisionVelocity_opp (u v : Vec) (m1 m2 : R) :
  calculateCollisionVelocity (vscale (-1) u) (vscale (-1) v) m1 m2
  = vscale (-1) (calculateCollisionVelocity u v m1 m2).
Proof. apply Vec_eq; simpl; unfold Rdiv; ring. Qed.

Lemma vscale_opp_opp (v : Vec) : vscale (-1) (vscale (-1) v) = v.
Proof. apply Vec_eq; simpl; ring. Qed.

Lemma set_velocity_set_velocity (p : Particle) (v : Vec) :
  set_velocity (set_velocity p v) (velocity p) = p.
Proof. destruct p; reflexivity. Qed.

(** The angle seen from the other particle is the opposite direction. *)
Lemma collisionAngle_swap (a b : Particle) :
  0 < utils.distance (x a) (y a) (x b) (y b) ->
  cos (collisionAngle b a) = - cos (collisionAngle a b)
  /\ sin (collisionAngle b a) = - sin (collisionAngle a b).
Proof.
  intros Hd.
  assert (Hd' : 0 < utils.distance (x b) (y b) (x a) (y a))
    by (rewrite distance_sym; exact Hd).
  destruct (collisionAngle_cos_sin a b Hd) as [-> ->].
  destruct (collisionAngle_cos_sin b a Hd') as [-> ->].
  unfold centreLine; simpl. rewrite (distance_sym (x b) (y b)).
  split; field; lra.
Qed.

(** Resolving the same overlap a second time, from the other particle and
    with nothing moved in between, restores both velocities. *)
Lemma handleCollision_undo (a b : Particle) :
  mass a + mass b <> 0 -> touching a b ->
  handleCollision (snd (handleCollision a b)) (fst (handleCollision a b))
  = (b, a).
Proof.
  intros Hm Ht.
  destruct (handleCollision_body a b) as [Hba Hbb].
  pose proof (touching_sym _ _ Ht) as Ht'.
  pose proof (touching_body _ _ _ _ (eq_sym Hbb) (eq_sym Hba) Ht') as Ht''.
  rewrite (handleCollision_touching _ _ Ht'').
  assert (Hang : collisionAngle (snd (handleCollision a b)) (fst (handleCollision a b))
                 = collisionAngle b a).
  { unfold collisionAngle. unfold body in Hba, Hbb.
    inversion Hba. inversion Hbb. congruence. }
  rewrite Hang.
  rewrite (handleCollision_touching _ _ Ht). cbn [fst snd velocity mass set_velocity].
  destruct (collisionAngle_swap a b (proj1 Ht)) as [Hc Hs].
  assert (Hc' : cos (- collisionAngle b a) = - cos (- collisionAngle a b))
    by (rewrite !cos_neg; exact Hc).
  assert (Hs' : sin (- collisionAngle b a) = - sin (- collisionAngle a b))
    by (rewrite !sin_neg, Hs; ring).
  rewrite !(rotate_opposite _ _ _ Hc Hs), !(rotate_opposite _ _ _ Hc' Hs').
  rewrite !rotate_forth, !calculateCollisionVelocity_opp, !rotate_vscale.
  rewrite !vscale_opp_opp.
  rewrite (calculateCollisionVelocity_twice _ _ (mass b) (mass a)) by lra.
  rewrite (calculateCollisionVelocity_twice _ _ (mass a) (mass b)) by lra.
  rewrite !rotate_back.
  f_equal.
  - destruct b; reflexivity.
  - destruct a; reflexivity.
Qed.

(** C3: on two overlapping particles, one call of [handleCollision] is the
    one-dimensional elastic collision along the line of centres: the
    components of both velocities along that line get the standard update
    v1' = (v1*(m1-m2) + 2*m2*v2)/(m1+m2), the components across it are
    kept, and the total momentum m1*v1 + m2*v2 (so also its component
    along the line of centres) is the same before and after. *)
Theorem handleCollision_elastic (a b : Particle) :
  constructed a -> constructed b -> touching a b ->
  let a' := fst (handleCollision a b) in
  let b' := snd (handleCollision a b) in
  let along v := dot v (centreLine a b) in
  let across v := dot v (centreNormal a b) in
  along (velocity a')
  = (along (velocity a) * (mass a - mass b) + 2 * mass b * along (velocity b))
    / (mass a + mass b)
  /\ along (velocity b')
     = (along (velocity b) * (mass b - mass a) + 2 * mass a * along (velocity a))
       / (mass a + mass b)
  /\ across (velocity a') = across (velocity a)
  /\ across (velocity b') = across (velocity b)
  /\ mass a' = mass a /\ mass b' = mass b
  /\ momentum a' b' = momentum a b
  /\ mass a' * along (velocity a') + mass b' * along (velocity b')
     = mass a * along (velocity a) + mass b * along (velocity b).
Proof.
  intros Ca Cb Ht a' b' along across.
  pose proof (constructed_touching_mass a b Ca Cb Ht) as Hm.
  pose proof (proj1 Ht) as Hd.
  assert (Hal : forall v, along v = vx (utils.rotateVector v (collisionAngle a b))).
  { intros v. symmetry. apply (rotate_collisionAngle a b v Hd). }
  assert (Hac : forall v, across v = vy (utils.rotateVector v (collisionAngle a b))).
  { intros v. symmetry. apply (rotate_collisionAngle a b v Hd). }
  assert (Ea : velocity a'
               = utils.rotateVector
                   (calculateCollisionVelocity
                      (utils.rotateVector (velocity a) (collisionAngle a b))
                      (utils.rotateVector (velocity b) (collisionAngle a b))
                      (mass a) (mass b))
                   (- collisionAngle a b)).
  { subst a'. rewrite (handleCollision_touching a b Ht). reflexivity. }
  assert (Eb : velocity b'
               = utils.rotateVector
                   (calculateCollisionVelocity
                      (utils.rotateVector (velocity b) (collisionAngle a b))
                      (utils.rotateVector (velocity a) (collisionAngle a b))
                      (mass b) (mass a))
                   (- collisionAngle a b)).
  { subst b'. rewrite (handleCollision_touching a b Ht). reflexivity. }
  assert (Ma : mass a' = mass a).
  { subst a'. rewrite (handleCollision_touching a b Ht). reflexivity. }
  assert (Mb : mass b' = mass b).
  { subst b'. rewrite (handleCollision_touching a b Ht). reflexivity. }
  assert (Hmom : momentum a' b' = momentum a b).
  { unfold momentum. rewrite Ma, Mb, Ea, Eb.
    rewrite <- rotate_linear.
    rewrite calculateCollisionVelocity_momentum by lra.
    rewrite <- rotate_linear. apply rotate_back. }
  assert (H1 : along (velocity a')
               = (along (velocity a) * (mass a - mass b)
                  + 2 * mass b * along (velocity b)) / (mass a + mass b)).
  { rewrite !Hal, Ea, rotate_forth. simpl. field. lra. }
  assert (H2 : along (velocity b')
               = (along (velocity b) * (mass b - mass a)
                  + 2 * mass a * along (velocity a)) / (mass a + mass b)).
  { rewrite !Hal, Eb, rotate_forth. simpl. field. lra. }
  repeat split; try assumption.
  - rewrite !Hac, Ea, rotate_forth. reflexivity.
  - rewrite !Hac, Eb, rotate_forth. reflexivity.
  - rewrite Ma, Mb, H1, H2. field. lra.
Qed.

(** ** The particles array: what a call leaves alone *)

Lemma body_set_velocity (p : Particle) (v : Vec) : body (set_velocity p v) = body p.
Proof. reflexivity. Qed.

Lemma body_repelFromMouse (cfg : Physics) (m : option (R * R)) (p : Particle) :
  body (repelFromMouse cfg m p) = body p.
Proof.
  unfold repelFromMouse. destruct m as [[mx my] |]; [| reflexivity].
  destruct (_ && _); reflexivity.
Qed.

Lemma same_body_lookup (l1 l2 : list Particle) (k : nat) (a : Particle) :
  body <$> l1 = body <$> l2 -> l1 !! k = Some a ->
  exists b, l2 !! k = Some b /\ body b = body a.
Proof.
  intros Heq Ha.
  assert (H : (body <$> l2) !! k = Some (body a))
    by (rewrite <- Heq, list_lookup_fmap, Ha; reflexivity).
  rewrite list_lookup_fmap in H.
  destruct (l2 !! k) as [b |]; simpl in H; [| discriminate].
  exists b. split; [reflexivity | congruence].
Qed.

Lemma alter_body (f : Particle -> Particle) (i : nat) (ps : list Particle) :
  (forall p, body (f p) = body p) -> body <$> alter f i ps = body <$> ps.
Proof.
  intros Hf. apply list_eq. intros k.
  rewrite !list_lookup_fmap, list_lookup_alter.
  destruct (decide (i = k)) as [-> |]; [| reflexivity].
  destruct (ps !! k); simpl; [rewrite Hf |]; reflexivity.
Qed.

Lemma collide_length (i j : nat) (ps : list Particle) :
  length (collide i j ps) = length ps.
Proof.
  unfold collide. destruct (ps !! i); [| reflexivity].
  destruct (ps !! j); [| reflexivity].
  destruct (handleCollision _ _). rewrite !length_insert. reflexivity.
Qed.

Lemma collide_other (i j k : nat) (ps : list Particle) :
  k <> i -> k <> j -> collide i j ps !! k = ps !! k.
Proof.
  intros Hi Hj. unfold collide. destruct (ps !! i); [| reflexivity].
  destruct (ps !! j); [| reflexivity].
  destruct (handleCollision _ _).
  rewrite !list_lookup_insert_ne by congruence. reflexivity.
Qed.

Lemma collide_body (i j : nat) (ps : list Particle) :
  body <$> collide i j ps = body <$> ps.
Proof.
  unfold collide. destruct (ps !! i) as [a |] eqn:Ei; [| reflexivity].
  destruct (ps !! j) as [b |] eqn:Ej; [| reflexivity].
  destruct (handleCollision_body a b) as [Ha Hb].
  destruct (handleCollision a b) as [a' b']. simpl in Ha, Hb.
  rewrite !list_fmap_insert, Ha, Hb.
  rewrite (list_insert_id _ i) by (rewrite list_lookup_fmap, Ei; reflexivity).
  apply list_insert_id. rewrite list_lookup_fmap, Ej. reflexivity.
Qed.

Lemma collide_apart (i j : nat) (ps : list Particle) :
  (forall a b, ps !! i = Some a -> ps !! j = Some b -> ~ touching a b) ->
  collide i j ps = ps.
Proof.
  intros H. unfold collide. destruct (ps !! i) as [a |] eqn:Ei; [| reflexivity].
  destruct (ps !! j) as [b |] eqn:Ej; [| reflexivity].
  rewrite (handleCollision_apart a b) by (apply H; reflexivity).
  rewrite (list_insert_id _ i) by exact Ei.
  apply list_insert_id. exact Ej.
Qed.

(** *** The collision loop of one [update] *)

Lemma collideFold_body (i : nat) (js : list nat) (ps : list Particle) :
  body <$> fold_left (collideStep i) js ps = body <$> ps.
Proof.
  revert ps. induction js as [| j js IH]; intros ps; simpl; [reflexivity |].
  rewrite IH. unfold collideStep. destruct (decide (j = i)); [reflexivity |].
  apply collide_body.
Qed.

(** A particle that does not overlap the receiver comes out of the loop as
    it went in. *)
Lemma collideFold_apart (i k : nat) (js : list nat) (ps : list Particle) :
  k <> i ->
  (forall a b, ps !! i = Some a -> ps !! k = Some b -> ~ touching a b) ->
  fold_left (collideStep i) js ps !! k = ps !! k.
Proof.
  intros Hk. revert ps. induction js as [| j js IH]; intros ps Hap; simpl;
    [reflexivity |].
  unfold collideStep at 2. destruct (decide (j = i)) as [-> | Hj].
  - apply IH. exact Hap.
  - destruct (decide (j = k)) as [-> | Hjk].
    + rewrite (collide_apart i k ps Hap). apply IH. exact Hap.
    + rewrite IH.
      * apply collide_other; congruence.
      * intros a b Ha Hb.
        destruct (same_body_lookup _ _ _ _ (collide_body i j ps) Ha) as (a0 & Ha0 & Ba).
        destruct (same_body_lookup _ _ _ _ (collide_body i j ps) Hb) as (b0 & Hb0 & Bb).
        intros Ht. apply (Hap a0 b0 Ha0 Hb0).
        apply (touching_body a b); [symmetry; exact Ba | symmetry; exact Bb | exact Ht].
Qed.

(** A receiver that overlaps nobody leaves the whole array as it was. *)
Lemma collideFold_alone (i : nat) (js : list nat) (ps : list Particle) :
  (forall j a b, j <> i -> ps !! i = Some a -> ps !! j = Some b -> ~ touching a b) ->
  fold_left (collideStep i) js ps = ps.
Proof.
  intros Hap. induction js as [| j js IH]; simpl; [reflexivity |].
  unfold collideStep at 2. destruct (decide (j = i)) as [-> | Hj]; [exact IH |].
  rewrite (collide_apart i j ps); [exact IH |].
  intros a b. apply Hap. exact Hj.
Qed.

Lemma collideAll_body (i : nat) (ps : list Particle) :
  body <$> collideAll i ps = body <$> ps.
Proof. apply collideFold_body. Qed.

Lemma collideAll_length (i : nat) (ps : list Particle) :
  length (collideAll i ps) = length ps.
Proof.
  rewrite <- (length_fmap body), collideAll_body, length_fmap. reflexivity.
Qed.

Lemma handleCollision_elastic_witness :
  constructed ballA /\ constructed ballB /\ touching ballA ballB
  /\ momentum (fst (handleCollision ballA ballB)) (snd (handleCollision ballA ballB))
     = momentum ballA ballB.
Proof.
  assert (Ca : constructed ballA) by (unfold constructed; simpl; lra).
  assert (Cb : constructed ballB) by (unfold constructed; simpl; lra).
  assert (Ht : touching ballA ballB).
  { unfold touching; simpl.
    rewrite (distance_eq 100 100 130 100 30) by lra. lra. }
  split; [exact Ca | split; [exact Cb | split; [exact Ht |]]].
  destruct (handleCollision_elastic ballA ballB Ca Cb Ht)
    as (_ & _ & _ & _ & _ & _ & Hm & _).
  exact Hm.
Defined.

(** C10: a call of [handleCollision] writes at most the velocities of its
    two particles. The position, size, mass and friction of both are as
    before, every other particle of the array is untouched, and so the
    distance between the two centres is unchanged: particles that overlap
    still overlap after the call. *)
Theorem handleCollision_writes_velocities_only (i j : nat) (ps : list Particle) :
  (forall a b,
     body (fst (handleCollision a b)) = body a
     /\ body (snd (handleCollision a b)) = body b
     /\ (touching a b ->
         touching (fst (handleCollision a b)) (snd (handleCollision a b))))
  /\ length (collide i j ps) = length ps
  /\ body <$> collide i j ps = body <$> ps
  /\ (forall k, k <> i -> k <> j -> collide i j ps !! k = ps !! k).
Proof.
  split; [| split; [| split]].
  - intros a b. destruct (handleCollision_body a b) as [Ha Hb].
    split; [exact Ha | split; [exact Hb |]].
    apply touching_body; symmetry; assumption.
  - apply collide_length.
  - apply collide_body.
  - intros k. apply collide_other.
Qed.

Lemma handleCollision_writes_velocities_only_witness :
  2%nat <> 0%nat /\ 2%nat <> 1%nat
  /\ collide 0 1 [ballA; ballB; ballC] !! 2%nat = [ballA; ballB; ballC] !! 2%nat.
Proof.
  split; [lia | split; [lia |]].
  apply (handleCollision_writes_velocities_only 0 1 [ballA; ballB; ballC]); lia.
Defined.

(** ** repelFromMouse *)

Lemma repelFromMouse_out (cfg : Physics) (m : option (R * R)) (p : Particle) :
  ~ repelled cfg m p -> repelFromMouse cfg m p = p.
Proof.
  unfold repelled, repelFromMouse. destruct m as [[mx my] |]; [| reflexivity].
  intros Hn.
  destruct (Rltb _ (REPULSION_RADIUS cfg)) eqn:E1; [| reflexivity].
  destruct (Rgtb _ 0) eqn:E0; [| reflexivity].
  apply Rltb_lt in E1. unfold Rgtb in E0. apply Rltb_lt in E0.
  exfalso. apply Hn. split; assumption.
Qed.

(** C7: [repelFromMouse] leaves the particle as it is when the pointer is
    absent or the distance d to it is not inside (0, REPULSION_RADIUS).
    Otherwise it adds to the velocity, and changes nothing else, a vector
    that points from the pointer to the particle and has length
    ((REPULSION_RADIUS - d) / REPULSION_RADIUS) * REPULSION_FORCE. *)
Theorem repelFromMouse_effect (cfg : Physics) (p : Particle) :
  repelFromMouse cfg None p = p
  /\ forall mx my,
       let d := utils.distance (x p) (y p) mx my in
       let force :=
         ((REPULSION_RADIUS cfg - d) / REPULSION_RADIUS cfg) * REPULSION_FORCE cfg in
       let delta := vscale force {| vx := (x p - mx) / d; vy := (y p - my) / d |} in
       (~ (0 < d < REPULSION_RADIUS cfg) ->
        repelFromMouse cfg (Some (mx, my)) p = p)
       /\ (0 < d < REPULSION_RADIUS cfg ->
           repelFromMouse cfg (Some (mx, my)) p
           = set_velocity p (vadd (velocity p) delta)
           /\ (0 <= REPULSION_FORCE cfg -> norm delta = force)).
Proof.
  split; [reflexivity |].
  intros mx my d force delta. split.
  - intros Hn. apply repelFromMouse_out. exact Hn.
  - intros [H0 H1].
    assert (Hdd : d * d = (x p - mx) ^ 2 + (y p - my) ^ 2).
    { subst d. rewrite distance_sqr. ring. }
    assert (Hd : d = sqrt ((x p - mx) ^ 2 + (y p - my) ^ 2)).
    { subst d. unfold utils.distance. f_equal. ring. }
    split.
    + unfold repelFromMouse. fold d. rdecide. cbv zeta.
      assert (Hne : x p - mx <> 0 \/ y p - my <> 0).
      { destruct (Req_dec (x p - mx) 0) as [Hx | Hx]; [| left; exact Hx].
        destruct (Req_dec (y p - my) 0) as [Hy | Hy]; [| right; exact Hy].
        exfalso. rewrite Hx, Hy in Hdd. nra. }
      destruct (atan2_cos_sin _ _ Hne) as [Hc Hs].
      rewrite Hc, Hs, <- Hd. unfold applyForce. f_equal.
      apply Vec_eq; simpl; fold d; fold force; unfold Rdiv; ring.
    + intros Hf.
      assert (Hforce : 0 <= force).
      { subst force. apply Rmult_le_pos; [| exact Hf].
        apply Rmult_le_pos; [lra |]. left. apply Rinv_0_lt_compat. lra. }
      unfold norm. apply sqrt_lem_1; [apply sum_sqr_nonneg | exact Hforce |].
      subst delta. simpl.
      transitivity (force * force * ((x p - mx) ^ 2 + (y p - my) ^ 2) / (d * d));
        [rewrite <- Hdd; field; lra | field; lra].
Qed.

Lemma repelFromMouse_effect_witness :
  let d := utils.distance (x ballA) (y ballA) 90 100 in
  0 < d < REPULSION_RADIUS PHYSICS
  /\ repelFromMouse PHYSICS (Some (90, 100)) ballA
     = set_velocity ballA
         (vadd (velocity ballA)
            (vscale (((REPULSION_RADIUS PHYSICS - d) / REPULSION_RADIUS PHYSICS)
                     * REPULSION_FORCE PHYSICS)
               {| vx := (x ballA - 90) / d; vy := (y ballA - 100) / d |})).
Proof.
  intros d.
  assert (Hd : 0 < d < REPULSION_RADIUS PHYSICS).
  { subst d. simpl. rewrite (distance_eq 100 100 90 100 10) by lra. lra. }
  split; [exact Hd |].
  apply (proj2 (repelFromMouse_effect PHYSICS ballA) 90 100). exact Hd.
Defined.

(** ** Walls and clamping *)

Lemma utils_clamp_clampedTo (v lo hi : R) :
  lo <= hi -> clampedTo v lo hi (utils.clamp v lo hi).
Proof.
  intros Hle. unfold clampedTo, utils.clamp, Rmin, Rmax.
  destruct (Rle_dec lo v); destruct (Rle_dec _ hi); repeat split; intros; lra.
Qed.

Lemma utils_clamp_empty (v lo hi : R) : hi < lo -> utils.clamp v lo hi = hi.
Proof.
  intros Hlt. unfold utils.clamp, Rmin, Rmax.
  destruct (Rle_dec lo v); destruct (Rle_dec _ hi); lra.
Qed.

Lemma body_wall_size (cfg : Physics) (width height : R) (p : Particle) :
  size (handleWallCollisions cfg width height p) = size p
  /\ mass (handleWallCollisions cfg width height p) = mass p
  /\ friction (handleWallCollisions cfg width height p) = friction p.
Proof.
  unfold handleWallCollisions, bottomWall, topWall, rightWall, leftWall.
  repeat match goal with
    | |- context [if ?c then _ else _] => destruct c; cbn
    end; repeat split; reflexivity.
Qed.

(** ** update *)

Lemma update_particles (cfg : Physics) (i : nat) (w : World) :
  particles (update cfg i w)
  = alter (handleWallCollisions cfg (containerWidth w) (containerHeight w)) i
      (alter updatePosition i
         (collideAll i (alter (repelFromMouse cfg (mouse w)) i (particles w)))).
Proof. reflexivity. Qed.

Lemma update_globals (cfg : Physics) (i : nat) (w : World) :
  containerWidth (update cfg i w) = containerWidth w
  /\ containerHeight (update cfg i w) = containerHeight w
  /\ mouse (update cfg i w) = mouse w.
Proof. repeat split; reflexivity. Qed.

Lemma update_length (cfg : Physics) (i : nat) (w : World) :
  length (particles (update cfg i w)) = length (particles w).
Proof.
  rewrite update_particles, !length_alter, collideAll_length, length_alter.
  reflexivity.
Qed.

Lemma before_walls_body (cfg : Physics) (i : nat) (w : World) :
  body <$> collideAll i (alter (repelFromMouse cfg (mouse w)) i (particles w))
  = body <$> particles w.
Proof.
  rewrite collideAll_body. apply alter_body. apply body_repelFromMouse.
Qed.

(** [update] of one particle writes nothing but the velocity of another. *)
Lemma update_other_body (cfg : Physics) (k i : nat) (w : World) (q : Particle) :
  k <> i -> particles (update cfg k w) !! i = Some q ->
  exists p, particles w !! i = Some p /\ body p = body q.
Proof.
  intros Hk. rewrite update_particles, !list_lookup_alter_ne by exact Hk.
  apply same_body_lookup. apply before_walls_body.
Qed.

(** ** The frame, particle by particle *)

Lemma frame_prefix_S (cfg : Physics) (k : nat) (w : World) :
  frame_prefix cfg (S k) w = update cfg k (frame_prefix cfg k w).
Proof.
  unfold frame_prefix. rewrite seq_S, fold_left_app. reflexivity.
Qed.

Lemma animate_frame_prefix (cfg : Physics) (w : World) :
  animate_frame cfg w = frame_prefix cfg (length (particles w)) w.
Proof. reflexivity. Qed.

Lemma frame_prefix_globals (cfg : Physics) (k : nat) (w : World) :
  containerWidth (frame_prefix cfg k w) = containerWidth w
  /\ containerHeight (frame_prefix cfg k w) = containerHeight w
  /\ mouse (frame_prefix cfg k w) = mouse w
  /\ length (particles (frame_prefix cfg k w)) = length (particles w).
Proof.
  induction k as [| k IH]; [repeat split; reflexivity |].
  rewrite frame_prefix_S. destruct IH as (Hw & Hh & Hm & Hl).
  rewrite update_length. repeat split; assumption.
Qed.

Lemma animate_globals (cfg : Physics) (n : nat) (w : World) :
  containerWidth (animate cfg n w) = containerWidth w
  /\ containerHeight (animate cfg n w) = containerHeight w
  /\ mouse (animate cfg n w) = mouse w
  /\ length (particles (animate cfg n w)) = length (particles w).
Proof.
  induction n as [| n IH]; [repeat split; reflexivity |].
  unfold animate in *. simpl. rewrite animate_frame_prefix.
  destruct (frame_prefix_globals cfg (length (particles (Nat.iter n (animate_frame cfg) w)))
              (Nat.iter n (animate_frame cfg) w)) as (Hw & Hh & Hm & Hl).
  destruct IH as (Hw' & Hh' & Hm' & Hl').
  repeat split; congruence.
Qed.

(** ** Evaluating the walls *)

Lemma Particle_eq (p q : Particle) :
  x p = x q -> y p = y q -> size p = size q -> mass p = mass q ->
  friction p = friction q -> vx (velocity p) = vx (velocity q) ->
  vy (velocity p) = vy (velocity q) -> p = q.
Proof.
  destruct p as [? ? ? ? ? []], q as [? ? ? ? ? []]; fields.
  intros -> -> -> -> -> -> ->. reflexivity.
Qed.

Lemma leftWall_hit (cfg : Physics) (p : Particle) :
  x p - size p <= 0 ->
  leftWall cfg p
  = set_position
      (set_velocity p
         {| vx := Rabs (vx (velocity p)) * BOUNCE_ENERGY cfg;
            vy := vy (velocity p) |})
      (size p) (y p).
Proof. intros H. unfold leftWall. rdecide. reflexivity. Qed.

Lemma leftWall_miss (cfg : Physics) (p : Particle) :
  0 < x p - size p -> leftWall cfg p = p.
Proof. intros H. unfold leftWall. rdecide. reflexivity. Qed.

Lemma rightWall_hit (cfg : Physics) (width : R) (p : Particle) :
  x p + size p >= width ->
  rightWall cfg width p
  = set_position
      (set_velocity p
         {| vx := - Rabs (vx (velocity p)) * BOUNCE_ENERGY cfg;
            vy := vy (velocity p) |})
      (width - size p) (y p).
Proof. intros H. unfold rightWall. rdecide. reflexivity. Qed.

Lemma rightWall_miss (cfg : Physics) (width : R) (p : Particle) :
  x p + size p < width -> rightWall cfg width p = p.
Proof. intros H. unfold rightWall. rdecide. reflexivity. Qed.

Lemma topWall_miss (cfg : Physics) (p : Particle) :
  0 < y p - size p -> topWall cfg p = p.
Proof. intros H. unfold topWall. rdecide. reflexivity. Qed.

Lemma bottomWall_miss (cfg : Physics) (height : R) (p : Particle) :
  y p + size p < height -> bottomWall cfg height p = p.
Proof. intros H. unfold bottomWall. rdecide. reflexivity. Qed.

Lemma handleWallCollisions_miss (cfg : Physics) (width height : R) (p : Particle) :
  ~ wallContact width height p -> handleWallCollisions cfg width height p = p.
Proof.
  unfold wallContact. intros H. unfold handleWallCollisions.
  rewrite leftWall_miss by lra. rewrite rightWall_miss by lra.
  rewrite topWall_miss by lra. apply bottomWall_miss. lra.
Qed.

(** The vertical tests write neither [x] nor [velocity.x]. *)
Lemma topWall_x (cfg : Physics) (p : Particle) :
  x (topWall cfg p) = x p /\ vx (velocity (topWall cfg p)) = vx (velocity p).
Proof. unfold topWall. destruct (Rleb _ _); split; reflexivity. Qed.

Lemma bottomWall_x (cfg : Physics) (height : R) (p : Particle) :
  x (bottomWall cfg height p) = x p
  /\ vx (velocity (bottomWall cfg height p)) = vx (velocity p).
Proof. unfold bottomWall. destruct (Rgeb _ _); split; reflexivity. Qed.

(** A frame of a one-particle world. *)
Lemma animate_frame_single (cfg : Physics) (width height : R)
    (m : option (R * R)) (p : Particle) :
  animate_frame cfg
    {| containerWidth := width; containerHeight := height; mouse := m;
       particles := [p] |}
  = {| containerWidth := width; containerHeight := height; mouse := m;
       particles :=
         [handleWallCollisions cfg width height
            (updatePosition (repelFromMouse cfg m p))] |}.
Proof. reflexivity. Qed.

Lemma leftWallScene_frame (cfg : Physics) :
  animate_frame cfg leftWallScene
  = set_particles leftWallScene
      [ {| x := 20; y := 150; size := 20; mass := 40; friction := 1;
           velocity := {| vx := 3 * BOUNCE_ENERGY cfg; vy := 0 |} |} ].
Proof.
  unfold leftWallScene. rewrite animate_frame_single.
  unfold set_particles; fields. do 2 f_equal.
  unfold handleWallCollisions, repelFromMouse, updatePosition, leftWallBody; fields.
  rewrite leftWall_hit by (fields; lra). fields.
  rewrite rightWall_miss by (fields; lra).
  rewrite topWall_miss by (fields; lra).
  rewrite bottomWall_miss by (fields; lra).
  apply Particle_eq; fields; try lra.
  rewrite Rabs_left by lra. lra.
Qed.

(** C5 (amended): when the left edge of a particle is at or beyond the left
    wall and the particle's diameter is smaller than the container width,
    [handleWallCollisions] sets x to the radius and the x-velocity to
    |vx| * BOUNCE_ENERGY, which is positive when vx is negative and
    BOUNCE_ENERGY is positive. In the scenario of the specification
    (viewport 400 x 300, radius 20 at (10, 150), velocity (-3, 0), friction
    coefficient 1, no pointer) one frame gives x = 20 and velocity.x =
    3 * BOUNCE_ENERGY. *)
Theorem left_wall_bounce (cfg : Physics) :
  (forall width height p,
     x p - size p <= 0 -> 2 * size p < width ->
     let q := handleWallCollisions cfg width height p in
     x q = size p
     /\ vx (velocity q) = Rabs (vx (velocity p)) * BOUNCE_ENERGY cfg
     /\ (vx (velocity p) < 0 -> 0 < BOUNCE_ENERGY cfg -> 0 < vx (velocity q)))
  /\ exists q,
       particles (animate_frame cfg leftWallScene) = [q]
       /\ x q = 20 /\ vx (velocity q) = 3 * BOUNCE_ENERGY cfg.
Proof.
  split.
  - intros width height p Hleft Hfit q.
    assert (Hq : x q = size p
                 /\ vx (velocity q) = Rabs (vx (velocity p)) * BOUNCE_ENERGY cfg).
    { subst q. unfold handleWallCollisions.
      destruct (bottomWall_x cfg height
                  (topWall cfg (rightWall cfg width (leftWall cfg p)))) as [-> ->].
      destruct (topWall_x cfg (rightWall cfg width (leftWall cfg p))) as [-> ->].
      rewrite leftWall_hit by exact Hleft.
      rewrite rightWall_miss by (fields; lra).
      split; reflexivity. }
    destruct Hq as [Hx Hv]. split; [exact Hx | split; [exact Hv |]].
    intros Hneg Hbe. rewrite Hv, Rabs_left by exact Hneg.
    apply Rmult_lt_0_compat; lra.
  - rewrite leftWallScene_frame. eexists. split; [reflexivity |]. fields.
    split; reflexivity.
Qed.

Lemma left_wall_bounce_witness :
  x leftWallBody - size leftWallBody <= 0
  /\ 2 * size leftWallBody < 400
  /\ x (handleWallCollisions PHYSICS 400 300 leftWallBody) = size leftWallBody.
Proof.
  assert (H1 : x leftWallBody - size leftWallBody <= 0)
    by (unfold leftWallBody; fields; lra).
  assert (H2 : 2 * size leftWallBody < 400)
    by (unfold leftWallBody; fields; lra).
  split; [exact H1 | split; [exact H2 |]].
  apply (proj1 (left_wall_bounce PHYSICS) 400 300 leftWallBody H1 H2).
Defined.

(** C5 as stated fails for a particle wider than the container: the test
    for the right wall follows the one for the left wall and fires too, so
    x ends at containerWidth - radius and the x-velocity is negative. *)
Lemma left_wall_bounce_counterexample :
  let q := handleWallCollisions PHYSICS 50 300 wideBody in
  x wideBody - size wideBody <= 0
  /\ vx (velocity wideBody) < 0
  /\ x q = 20 /\ x q <> size wideBody
  /\ vx (velocity q) < 0.
Proof.
  assert (Hq : handleWallCollisions PHYSICS 50 300 wideBody
               = {| x := 20; y := 150; size := 30; mass := 60;
                    friction := 995 / 1000;
                    velocity := {| vx := - (3 * (105 / 100) * (105 / 100));
                                   vy := 0 |} |}).
  { unfold handleWallCollisions, wideBody.
    rewrite leftWall_hit by (fields; lra). fields.
    rewrite rightWall_hit by (fields; lra). fields.
    rewrite topWall_miss by (fields; lra).
    rewrite bottomWall_miss by (fields; lra).
    apply Particle_eq; fields; try lra.
    unfold PHYSICS; cbn [BOUNCE_ENERGY].
    rewrite (Rabs_left (-3)) by lra.
    rewrite Rabs_right by lra. lra. }
  cbv zeta. rewrite Hq. unfold wideBody; fields.
  repeat split; lra.
Qed.

(** ** Resize *)

Lemma clamp_body (width height : R) (p : Particle) :
  velocity (clamp width height p) = velocity p
  /\ size (clamp width height p) = size p
  /\ mass (clamp width height p) = mass p
  /\ friction (clamp width height p) = friction p.
Proof. repeat split; reflexivity. Qed.

(** C8 (amended): the resize handler stores the new dimensions and, for
    every particle, changes nothing but x and y: velocity, radius, mass and
    friction are as before. On each axis on which the diameter fits in the
    new dimension the coordinate is clamped into [radius, newDimension -
    radius]; on an axis on which it does not fit the coordinate becomes
    newDimension - radius. *)
Theorem onResize_clamps (newWidth newHeight : R) (w : World) (i : nat) (p : Particle) :
  particles w !! i = Some p ->
  containerWidth (onResize newWidth newHeight w) = newWidth
  /\ containerHeight (onResize newWidth newHeight w) = newHeight
  /\ length (particles (onResize newWidth newHeight w)) = length (particles w)
  /\ exists q,
       particles (onResize newWidth newHeight w) !! i = Some q
       /\ velocity q = velocity p /\ size q = size p
       /\ mass q = mass p /\ friction q = friction p
       /\ (2 * size p <= newWidth ->
           clampedTo (x p) (size p) (newWidth - size p) (x q))
       /\ (newWidth < 2 * size p -> x q = newWidth - size p)
       /\ (2 * size p <= newHeight ->
           clampedTo (y p) (size p) (newHeight - size p) (y q))
       /\ (newHeight < 2 * size p -> y q = newHeight - size p).
Proof.
  intros Hp. split; [reflexivity | split; [reflexivity | split]].
  - unfold onResize; fields. apply length_fmap.
  - exists (clamp newWidth newHeight p).
    split.
    { unfold onResize; fields. rewrite list_lookup_fmap, Hp. reflexivity. }
    do 4 (split; [reflexivity |]).
    unfold clamp; fields.
    split; [| split; [| split]]; intros H.
    + apply utils_clamp_clampedTo. lra.
    + apply utils_clamp_empty. lra.
    + apply utils_clamp_clampedTo. lra.
    + apply utils_clamp_empty. lra.
Qed.

Lemma onResize_clamps_witness :
  particles smallScene !! 0%nat = Some smallBody
  /\ length (particles (onResize 40 300 smallScene)) = length (particles smallScene).
Proof.
  assert (Hp : particles smallScene !! 0%nat = Some smallBody) by reflexivity.
  split; [exact Hp |].
  apply (onResize_clamps 40 300 smallScene 0 smallBody Hp).
Defined.

(** C8 as stated fails when the container becomes narrower than a
    particle: the smallest configured particle (radius 25) at x = 30 in a
    container resized to width 40 is put at x = 15, left of its radius. *)
Lemma onResize_clamps_counterexample :
  match particles (onResize 40 300 smallScene) with
  | [q] => x q = 15 /\ ~ (size q <= x q <= 40 - size q)
  | _ => False
  end.
Proof.
  unfold onResize, smallScene; fields.
  change (clamp 40 300 <$> [smallBody]) with [clamp 40 300 smallBody].
  unfold clamp, smallBody; fields.
  rewrite utils_clamp_empty by lra.
  split; lra.
Qed.

(** ** A particle that nothing touches *)

(** [update] of particle [k] leaves alone a particle it does not overlap. *)
Lemma update_other_apart (cfg : Physics) (k i : nat) (w : World) :
  k <> i ->
  (forall a b, particles w !! k = Some a -> particles w !! i = Some b ->
               ~ touching a b) ->
  particles (update cfg k w) !! i = particles w !! i.
Proof.
  intros Hk Hap.
  rewrite update_particles, !list_lookup_alter_ne by exact Hk.
  unfold collideAll. rewrite collideFold_apart.
  - apply list_lookup_alter_ne. exact Hk.
  - congruence.
  - intros a b Ha Hb.
    rewrite list_lookup_alter_ne in Hb by exact Hk.
    rewrite list_lookup_alter_eq in Ha.
    destruct (particles w !! k) as [a0 |] eqn:Ea; simpl in Ha; [| discriminate].
    injection Ha as <-.
    intros Ht. apply (Hap a0 b eq_refl Hb).
    apply (touching_body _ _ _ _ (body_repelFromMouse cfg (mouse w) a0) eq_refl Ht).
Qed.

(** [update] of a particle that is outside the pointer's field, overlaps
    nobody and ends clear of the walls only applies [updatePosition]. *)
Lemma update_self_alone (cfg : Physics) (i : nat) (w : World) (p : Particle) :
  particles w !! i = Some p ->
  ~ repelled cfg (mouse w) p ->
  (forall j b, j <> i -> particles w !! j = Some b -> ~ touching p b) ->
  ~ wallContact (containerWidth w) (containerHeight w) (updatePosition p) ->
  particles (update cfg i w) !! i = Some (updatePosition p).
Proof.
  intros Hp Hrep Hap Hwall.
  assert (E1 : alter (repelFromMouse cfg (mouse w)) i (particles w) = particles w).
  { apply list_eq. intros k. rewrite list_lookup_alter.
    destruct (decide (i = k)) as [<- |]; [| reflexivity].
    rewrite Hp. simpl. rewrite repelFromMouse_out by exact Hrep. reflexivity. }
  rewrite update_particles, E1.
  unfold collideAll. rewrite collideFold_alone.
  - rewrite !list_lookup_alter_eq, Hp. simpl.
    rewrite handleWallCollisions_miss by exact Hwall. reflexivity.
  - intros j a b Hj Ha Hb. rewrite Hp in Ha. injection Ha as <-.
    apply (Hap j b Hj Hb).
Qed.

Lemma norm_vscale (k : R) (v : Vec) : 0 <= k -> norm (vscale k v) = k * norm v.
Proof.
  intros Hk. unfold norm. cbn [vscale vx vy].
  replace ((k * vx v) ^ 2 + (k * vy v) ^ 2) with (k ^ 2 * (vx v ^ 2 + vy v ^ 2))
    by ring.
  rewrite sqrt_mult_alt by apply pow2_ge_0.
  rewrite sqrt_pow2 by exact Hk. reflexivity.
Qed.

(** C6: a particle that, during a frame, is outside the pointer's field
    when it is its turn, overlaps no particle at any call of
    [handleCollision] that involves it, and is clear of the four walls
    after it has moved, ends the frame with each velocity component
    multiplied by its friction coefficient, hence with its speed multiplied
    by it, and with its position advanced by the new velocity. *)
Theorem friction_only (cfg : Physics) (w : World) (i : nat) (p : Particle) :
  particles w !! i = Some p ->
  0 <= friction p ->
  ~ repelled cfg (mouse w) p ->
  (forall k a b,
     (k < length (particles w))%nat -> k <> i ->
     particles (frame_prefix cfg k w) !! k = Some a ->
     particles (frame_prefix cfg k w) !! i = Some b ->
     ~ touching a b) ->
  (forall j b,
     j <> i -> particles (frame_prefix cfg i w) !! j = Some b -> ~ touching p b) ->
  ~ wallContact (containerWidth w) (containerHeight w) (updatePosition p) ->
  exists q,
    particles (animate_frame cfg w) !! i = Some q
    /\ velocity q = vscale (friction p) (velocity p)
    /\ norm (velocity q) = friction p * norm (velocity p)
    /\ x q = x p + vx (velocity q)
    /\ y q = y p + vy (velocity q)
    /\ size q = size p /\ mass q = mass p /\ friction q = friction p.
Proof.
  intros Hp Hf Hrep Hothers Hself Hwall.
  assert (Hi : (i < length (particles w))%nat) by (apply lookup_lt_Some in Hp; exact Hp).
  assert (Hinv : forall k, (k <= length (particles w))%nat ->
            particles (frame_prefix cfg k w) !! i
            = Some (if decide (k <= i)%nat then p else updatePosition p)).
  { induction k as [| k IH]; intros Hk.
    - destruct (decide (0 <= i)%nat); [exact Hp | lia].
    - rewrite frame_prefix_S.
      assert (IH' := IH ltac:(lia)).
      destruct (frame_prefix_globals cfg k w) as (Hw & Hh & Hm & _).
      destruct (decide (k = i)) as [-> | Hne].
      + destruct (decide (i <= i)%nat); [| lia].
        destruct (decide (S i <= i)%nat); [lia |].
        apply update_self_alone.
        * exact IH'.
        * rewrite Hm. exact Hrep.
        * exact Hself.
        * rewrite Hw, Hh. exact Hwall.
      + rewrite update_other_apart.
        * rewrite IH'.
          destruct (decide (k <= i)%nat); destruct (decide (S k <= i)%nat);
            try reflexivity; lia.
        * exact Hne.
        * intros a b Ha Hb. apply (Hothers k a b); [lia | exact Hne | exact Ha | exact Hb]. }
  exists (updatePosition p). split.
  - rewrite animate_frame_prefix, Hinv by lia.
    destruct (decide (length (particles w) <= i)%nat); [lia | reflexivity].
  - unfold updatePosition; fields.
    assert (Hv : {| vx := vx (velocity p) * friction p;
                    vy := vy (velocity p) * friction p |}
                 = vscale (friction p) (velocity p))
      by (apply Vec_eq; simpl; ring).
    rewrite Hv. split; [reflexivity |].
    split; [apply norm_vscale; exact Hf |].
    simpl. repeat split; ring.
Qed.

(** ** A frame of a two-particle world *)

Lemma update_pair_0 (cfg : Physics) (width height : R) (m : option (R * R))
    (a b : Particle) :
  update cfg 0
    {| containerWidth := width; containerHeight := height; mouse := m;
       particles := [a; b] |}
  = {| containerWidth := width; containerHeight := height; mouse := m;
       particles :=
         [handleWallCollisions cfg width height
            (updatePosition (fst (handleCollision (repelFromMouse cfg m a) b)));
          snd (handleCollision (repelFromMouse cfg m a) b)] |}.
Proof.
  unfold update, set_particles, collideAll; fields. f_equal.
  change (alter (repelFromMouse cfg m) 0%nat [a; b]) with [repelFromMouse cfg m a; b].
  cbn [length seq fold_left]. unfold collideStep.
  destruct (decide (0%nat = 0%nat)); [| congruence].
  destruct (decide (1%nat = 0%nat)); [congruence |].
  unfold collide.
  change ([repelFromMouse cfg m a; b] !! 0%nat) with (Some (repelFromMouse cfg m a)).
  change ([repelFromMouse cfg m a; b] !! 1%nat) with (Some b).
  cbv beta iota.
  destruct (handleCollision (repelFromMouse cfg m a) b) as [a' b'].
  reflexivity.
Qed.

Lemma update_pair_1 (cfg : Physics) (width height : R) (m : option (R * R))
    (a b : Particle) :
  update cfg 1
    {| containerWidth := width; containerHeight := height; mouse := m;
       particles := [a; b] |}
  = {| containerWidth := width; containerHeight := height; mouse := m;
       particles :=
         [snd (handleCollision (repelFromMouse cfg m b) a);
          handleWallCollisions cfg width height
            (updatePosition (fst (handleCollision (repelFromMouse cfg m b) a)))] |}.
Proof.
  unfold update, set_particles, collideAll; fields. f_equal.
  change (alter (repelFromMouse cfg m) 1%nat [a; b]) with [a; repelFromMouse cfg m b].
  cbn [length seq fold_left]. unfold collideStep.
  destruct (decide (0%nat = 1%nat)); [congruence |].
  destruct (decide (1%nat = 1%nat)); [| congruence].
  unfold collide.
  change ([a; repelFromMouse cfg m b] !! 1%nat) with (Some (repelFromMouse cfg m b)).
  change ([a; repelFromMouse cfg m b] !! 0%nat) with (Some a).
  cbv beta iota.
  destruct (handleCollision (repelFromMouse cfg m b) a) as [b' a'].
  reflexivity.
Qed.

Lemma animate_frame_pair (cfg : Physics) (w : World) (a b : Particle) :
  particles w = [a; b] ->
  animate_frame cfg w = update cfg 1 (update cfg 0 w).
Proof. intros H. unfold animate_frame. rewrite H. reflexivity. Qed.

Lemma ballA_ballB_touching : touching ballA ballB.
Proof.
  unfold touching, ballA, ballB; fields.
  rewrite (distance_eq 100 100 130 100 30) by lra. lra.
Qed.

(** One resolution stops the moving ball and sends the other one off. *)
Lemma ballA_ballB_collision :
  handleCollision ballA ballB
  = (set_velocity ballA {| vx := 0; vy := 0 |},
     set_velocity ballB {| vx := 1; vy := 0 |}).
Proof.
  rewrite (handleCollision_touching _ _ ballA_ballB_touching).
  destruct (collisionAngle_cos_sin ballA ballB (proj1 ballA_ballB_touching))
    as [Hc Hs].
  assert (Hc' : cos (collisionAngle ballA ballB) = 1).
  { rewrite Hc. unfold centreLine, ballA, ballB; fields.
    rewrite (distance_eq 100 100 130 100 30) by lra. lra. }
  assert (Hs' : sin (collisionAngle ballA ballB) = 0).
  { rewrite Hs. unfold centreLine, ballA, ballB; fields.
    rewrite (distance_eq 100 100 130 100 30) by lra. lra. }
  f_equal; f_equal; apply Vec_eq;
    cbn [utils.rotateVector calculateCollisionVelocity vx vy];
    rewrite ?cos_neg, ?sin_neg, Hc', Hs'; unfold ballA, ballB; fields; lra.
Qed.

(** The frame of [twoBalls]: the second resolution of the pair, made from
    the other ball, undoes the first, and nothing has moved. *)
Lemma twoBalls_frame : animate_frame PHYSICS twoBalls = twoBalls.
Proof.
  rewrite (animate_frame_pair PHYSICS twoBalls ballA ballB eq_refl).
  unfold twoBalls. rewrite update_pair_0.
  cbn [repelFromMouse].
  assert (Hstill :
    handleWallCollisions PHYSICS 1000 1000
      (updatePosition (fst (handleCollision ballA ballB)))
    = fst (handleCollision ballA ballB)).
  { rewrite ballA_ballB_collision. cbn [fst].
    rewrite handleWallCollisions_miss.
    - apply Particle_eq; unfold updatePosition, ballA; fields; lra.
    - unfold wallContact, updatePosition, ballA; fields. lra. }
  rewrite Hstill, update_pair_1. cbn [repelFromMouse].
  rewrite handleCollision_undo;
    [| unfold ballA, ballB; fields; lra | exact ballA_ballB_touching].
  cbn [fst snd]. do 3 f_equal.
  rewrite handleWallCollisions_miss.
  - apply Particle_eq; unfold updatePosition, ballB; fields; lra.
  - unfold wallContact, updatePosition, ballB; fields. lra.
Qed.

(** ** The frame as a sequence of method calls *)

Lemma set_particles_id (w : World) : set_particles w (particles w) = w.
Proof. destruct w; reflexivity. Qed.

Lemma run_calls_app (cfg : Physics) (cs1 cs2 : list Call) (w : World) :
  run_calls cfg (cs1 ++ cs2) w = run_calls cfg cs2 (run_calls cfg cs1 w).
Proof. apply fold_left_app. Qed.

Lemma collideStep_self (i : nat) (ps : list Particle) : collideStep i ps i = ps.
Proof. unfold collideStep. destruct (decide (i = i)); congruence. Qed.

Lemma collideStep_other (i j : nat) (ps : list Particle) :
  j <> i -> collideStep i ps j = collide i j ps.
Proof. intros H. unfold collideStep. destruct (decide (j = i)); congruence. Qed.

Lemma run_collision_calls (cfg : Physics) (i : nat) (js : list nat) (w : World) :
  run_calls cfg
    (flat_map (fun j => if decide (j = i) then [] else [CallHandleCollision i j]) js)
    w
  = set_particles w (fold_left (collideStep i) js (particles w)).
Proof.
  revert w. induction js as [| j js IH]; intros w.
  - simpl. symmetry. apply set_particles_id.
  - cbn [flat_map fold_left]. rewrite run_calls_app, IH.
    destruct (decide (j = i)) as [-> | Hj].
    + rewrite collideStep_self. reflexivity.
    + rewrite collideStep_other by exact Hj. reflexivity.
Qed.

Lemma update_run_calls (cfg : Physics) (i : nat) (w : World) :
  update cfg i w = run_calls cfg (update_calls i (length (particles w))) w.
Proof.
  unfold update_calls.
  change (CallRepelFromMouse i
            :: collision_calls i (length (particles w))
            ++ [CallUpdatePosition i; CallHandleWallCollisions i])
    with ([CallRepelFromMouse i]
            ++ collision_calls i (length (particles w))
            ++ [CallUpdatePosition i; CallHandleWallCollisions i]).
  rewrite !run_calls_app. unfold collision_calls. rewrite run_collision_calls.
  unfold update, collideAll. cbn. rewrite length_alter. reflexivity.
Qed.

Lemma fold_update_run_calls (cfg : Physics) (ks : list nat) (n : nat) (w : World) :
  length (particles w) = n ->
  fold_left (fun acc i => update cfg i acc) ks w
  = run_calls cfg (flat_map (fun i => update_calls i n) ks) w.
Proof.
  revert w. induction ks as [| k ks IH]; intros w Hn; [reflexivity |].
  cbn [flat_map fold_left]. rewrite run_calls_app.
  rewrite <- Hn at 1. rewrite <- update_run_calls.
  apply IH. rewrite update_length. exact Hn.
Qed.

(** A frame runs exactly the calls of [frame_calls], in that order. *)
Lemma animate_frame_run_calls (cfg : Physics) (w : World) :
  animate_frame cfg w = run_calls cfg (frame_calls (length (particles w))) w.
Proof. apply fold_update_run_calls. reflexivity. Qed.

(** *** Counting the collision calls *)

Lemma collision_count_app (i j : nat) (cs1 cs2 : list Call) :
  collision_count i j (cs1 ++ cs2)
  = (collision_count i j cs1 + collision_count i j cs2)%nat.
Proof.
  unfold collision_count. rewrite List.filter_app, length_app. reflexivity.
Qed.

Lemma collision_count_collision_calls (i j k m : nat) :
  collision_count i j (collision_calls k m)
  = if decide (k = i /\ (j < m)%nat /\ j <> i) then 1%nat else 0%nat.
Proof.
  unfold collision_calls. induction m as [| m IH].
  - simpl. destruct (decide _) as [(_ & H & _) |]; [lia | reflexivity].
  - rewrite seq_S, flat_map_app, collision_count_app, IH.
    cbn [flat_map Nat.add]. rewrite app_nil_r.
    destruct (decide (m = k)) as [-> | Hmk].
    + cbn. repeat destruct (decide _); lia.
    + unfold collision_count. cbn [List.filter is_collision].
      destruct (Nat.eqb_spec k i) as [-> | Hki];
        destruct (Nat.eqb_spec m j) as [-> | Hmj]; cbn;
        repeat destruct (decide _); lia.
Qed.

Lemma collision_count_update_calls (i j k n : nat) :
  collision_count i j (update_calls k n)
  = if decide (k = i /\ (j < n)%nat /\ j <> i) then 1%nat else 0%nat.
Proof.
  unfold update_calls.
  change (CallRepelFromMouse k
            :: collision_calls k n
            ++ [CallUpdatePosition k; CallHandleWallCollisions k])
    with ([CallRepelFromMouse k]
            ++ collision_calls k n
            ++ [CallUpdatePosition k; CallHandleWallCollisions k]).
  rewrite !collision_count_app, collision_count_collision_calls.
  unfold collision_count. cbn. lia.
Qed.

Lemma collision_count_prefix (i j n m : nat) :
  collision_count i j (flat_map (fun k => update_calls k n) (seq 0 m))
  = if decide ((i < m)%nat /\ (j < n)%nat /\ j <> i) then 1%nat else 0%nat.
Proof.
  induction m as [| m IH].
  - case_decide; [lia | reflexivity].
  - rewrite seq_S, flat_map_app, collision_count_app, IH.
    cbn [flat_map Nat.add]. rewrite app_nil_r, collision_count_update_calls.
    repeat destruct (decide _); lia.
Qed.

Lemma collision_count_frame (i j n : nat) :
  collision_count i j (frame_calls n)
  = if decide ((i < n)%nat /\ (j < n)%nat /\ j <> i) then 1%nat else 0%nat.
Proof. apply collision_count_prefix. Qed.

(** C2 (amended): in one frame [handleCollision] is called exactly once
    for every ordered pair of distinct particles, so twice for every
    unordered pair, once from each side, and never on a particle with
    itself. The second call does not double the impulse of the first: on
    an overlapping pair, resolving again from the other particle with
    nothing moved in between gives both particles their velocities back. *)
Theorem collisions_per_frame (cfg : Physics) :
  (forall w,
     animate_frame cfg w = run_calls cfg (frame_calls (length (particles w))) w)
  /\ (forall n i j,
        (i < n)%nat -> (j < n)%nat -> i <> j ->
        collision_count i j (frame_calls n) = 1%nat
        /\ collision_count j i (frame_calls n) = 1%nat)
  /\ (forall n i, collision_count i i (frame_calls n) = 0%nat)
  /\ (forall a b,
        constructed a -> constructed b -> touching a b ->
        handleCollision (snd (handleCollision a b)) (fst (handleCollision a b))
        = (b, a)).
Proof.
  split; [apply animate_frame_run_calls | split; [| split]].
  - intros n i j Hi Hj Hij. rewrite !collision_count_frame.
    split; case_decide; lia.
  - intros n i. rewrite collision_count_frame. case_decide; lia.
  - intros a b Ca Cb Ht. apply handleCollision_undo; [| exact Ht].
    pose proof (constructed_touching_mass a b Ca Cb Ht). lra.
Qed.

Lemma collisions_per_frame_witness :
  (0 < 2)%nat /\ (1 < 2)%nat /\ 0%nat <> 1%nat
  /\ collision_count 0 1 (frame_calls 2) = 1%nat
  /\ collision_count 1 0 (frame_calls 2) = 1%nat.
Proof.
  assert (H0 : (0 < 2)%nat) by lia.
  assert (H1 : (1 < 2)%nat) by lia.
  assert (H01 : 0%nat <> 1%nat) by lia.
  split; [exact H0 | split; [exact H1 | split; [exact H01 |]]].
  apply (proj1 (proj2 (collisions_per_frame PHYSICS)) 2%nat 0%nat 1%nat H0 H1 H01).
Defined.

(** C2 as stated fails on [twoBalls]: one resolution changes the momentum
    of the moving ball by -50, and over the frame, in which the pair is
    resolved from both sides, its momentum does not change at all. *)
Lemma double_impulse_counterexample :
  let single := fst (handleCollision ballA ballB) in
  let impulse := mass ballA * (vx (velocity single) - vx (velocity ballA)) in
  impulse = -50
  /\ match particles (animate_frame PHYSICS twoBalls) with
     | [a'; _] =>
         mass ballA * (vx (velocity a') - vx (velocity ballA)) = 0
         /\ mass ballA * (vx (velocity a') - vx (velocity ballA)) <> 2 * impulse
     | _ => False
     end.
Proof.
  cbv zeta. rewrite ballA_ballB_collision, twoBalls_frame.
  unfold twoBalls, ballA; fields. repeat split; lra.
Qed.

(** *** The order of the calls *)

Lemma receiver_update_calls (k n : nat) :
  Forall (fun c => receiver c = k) (update_calls k n).
Proof.
  unfold update_calls. apply Forall_cons. split; [reflexivity |].
  apply Forall_app. split.
  - unfold collision_calls. apply Forall_flat_map.
    apply List.Forall_forall. intros j _.
    destruct (decide (j = k)); [apply Forall_nil; exact I |].
    apply Forall_cons. split; [reflexivity | apply Forall_nil; exact I].
  - repeat (apply Forall_cons; split; [reflexivity |]). apply Forall_nil. exact I.
Qed.

Lemma receiver_range (n start len : nat) :
  Forall (fun c => (start <= receiver c < start + len)%nat)
    (flat_map (fun k => update_calls k n) (seq start len)).
Proof.
  apply Forall_flat_map. apply Forall_seq. intros k Hk.
  apply (Forall_impl _ _ _ (receiver_update_calls k n)).
  intros c ->. exact Hk.
Qed.

(** C4 (amended): a frame does not work in world-level phases but particle
    by particle, in array order. The calls of a frame are, for each
    particle in turn, its [repelFromMouse], its [handleCollision] with
    every other particle, its [updatePosition] and its
    [handleWallCollisions]; every call made on an earlier particle comes
    before these and every call made on a later particle after them. *)
Theorem frame_is_particle_by_particle (cfg : Physics) :
  (forall w,
     animate_frame cfg w = run_calls cfg (frame_calls (length (particles w))) w)
  /\ forall n i,
       (i < n)%nat ->
       exists pre post,
         frame_calls n
         = pre
             ++ [CallRepelFromMouse i]
             ++ collision_calls i n
             ++ [CallUpdatePosition i; CallHandleWallCollisions i]
             ++ post
         /\ Forall (fun c => (receiver c < i)%nat) pre
         /\ Forall (fun c => (i < receiver c)%nat) post.
Proof.
  split; [apply animate_frame_run_calls |].
  intros n i Hi.
  exists (flat_map (fun k => update_calls k n) (seq 0 i)),
         (flat_map (fun k => update_calls k n) (seq (S i) (n - S i))).
  split; [| split].
  - unfold frame_calls.
    replace n with (i + S (n - S i))%nat at 1 by lia.
    rewrite seq_app, flat_map_app. cbn [seq flat_map Nat.add].
    unfold update_calls at 2. f_equal. cbn [app]. f_equal.
    rewrite <- app_assoc. reflexivity.
  - apply (Forall_impl _ _ _ (receiver_range n 0 i)). intros c Hc. lia.
  - apply (Forall_impl _ _ _ (receiver_range n (S i) (n - S i))). intros c Hc. lia.
Qed.

Lemma frame_is_particle_by_particle_witness :
  (0 < 2)%nat
  /\ exists pre post,
       frame_calls 2
       = pre
           ++ [CallRepelFromMouse 0]
           ++ collision_calls 0 2
           ++ [CallUpdatePosition 0; CallHandleWallCollisions 0]
           ++ post
       /\ Forall (fun c => (receiver c < 0)%nat) pre
       /\ Forall (fun c => (0 < receiver c)%nat) post.
Proof.
  assert (H0 : (0 < 2)%nat) by lia.
  split; [exact H0 |].
  apply (proj2 (frame_is_particle_by_particle PHYSICS) 2%nat 0%nat H0).
Defined.

Lemma collide_pair_01 (a b : Particle) :
  collide 0 1 [a; b] = [fst (handleCollision a b); snd (handleCollision a b)].
Proof. unfold collide. cbn. destruct (handleCollision a b). reflexivity. Qed.

Lemma collide_pair_10 (a b : Particle) :
  collide 1 0 [a; b] = [snd (handleCollision b a); fst (handleCollision b a)].
Proof. unfold collide. cbn. destruct (handleCollision b a). reflexivity. Qed.

(** C4 as stated fails on [twoBalls]. The calls of a two-particle frame
    integrate particle 0 before particle 1 is repelled or resolves its
    collision, and the frame differs from the phased step of the
    specification, whether that resolves each pair from both sides or
    once. *)
Lemma phased_step_counterexample :
  frame_calls 2
  = [CallRepelFromMouse 0; CallHandleCollision 0 1;
     CallUpdatePosition 0; CallHandleWallCollisions 0;
     CallRepelFromMouse 1; CallHandleCollision 1 0;
     CallUpdatePosition 1; CallHandleWallCollisions 1]
  /\ animate_frame PHYSICS twoBalls
     = run_calls PHYSICS (frame_calls 2) twoBalls
  /\ step_spec PHYSICS true twoBalls <> animate_frame PHYSICS twoBalls
  /\ step_spec PHYSICS false twoBalls <> animate_frame PHYSICS twoBalls.
Proof.
  split; [reflexivity | split; [apply (animate_frame_run_calls PHYSICS twoBalls) |]].
  rewrite twoBalls_frame.
  split; intros H; apply (f_equal particles) in H; revert H;
    unfold step_spec, twoBalls; fields;
    change (repelFromMouse PHYSICS None <$> [ballA; ballB]) with [ballA; ballB];
    cbn [length].
  - change (spec_pairs true 2) with [(0%nat, 1%nat); (1%nat, 0%nat)].
    cbn [fold_left]. rewrite collide_pair_01, collide_pair_10.
    rewrite handleCollision_undo;
      [| unfold ballA, ballB; fields; lra | exact ballA_ballB_touching].
    cbn [fst snd]. intros H.
    apply (f_equal (fun l => match l with p :: _ => x p | [] => 0 end)) in H.
    revert H. cbn [fmap list_fmap].
    rewrite handleWallCollisions_miss
      by (unfold wallContact, updatePosition, ballA; fields; lra).
    unfold updatePosition, ballA, set_particles; fields. lra.
  - change (spec_pairs false 2) with [(0%nat, 1%nat)].
    cbn [fold_left]. rewrite collide_pair_01, ballA_ballB_collision.
    cbn [fst snd]. intros H.
    apply (f_equal (fun l => match l with _ :: p :: _ => x p | _ => 0 end)) in H.
    revert H. cbn [fmap list_fmap].
    rewrite (handleWallCollisions_miss _ _ _ (updatePosition (set_velocity ballB _)))
      by (unfold wallContact, updatePosition, ballB; fields; lra).
    unfold updatePosition, ballB, set_particles; fields. lra.
Qed.

Lemma friction_only_witness :
  particles freeScene !! 0%nat = Some ballC
  /\ exists q,
       particles (animate_frame PHYSICS freeScene) !! 0%nat = Some q
       /\ velocity q = vscale (friction ballC) (velocity ballC)
       /\ norm (velocity q) = friction ballC * norm (velocity ballC)
       /\ x q = x ballC + vx (velocity q)
       /\ y q = y ballC + vy (velocity q)
       /\ size q = size ballC /\ mass q = mass ballC
       /\ friction q = friction ballC.
Proof.
  assert (Hp : particles freeScene !! 0%nat = Some ballC) by reflexivity.
  split; [exact Hp |].
  apply (friction_only PHYSICS freeScene 0 ballC Hp).
  - unfold ballC; fields. lra.
  - unfold repelled, freeScene; fields. intros [].
  - intros k a b Hk Hne. unfold freeScene in Hk; cbn [particles length] in Hk. lia.
  - intros j b Hj. destruct j as [| j]; [congruence |]. discriminate.
  - unfold wallContact, updatePosition, freeScene, ballC; fields. lra.
Defined.

(** ** Initialisation *)

Lemma createParticle_adds (cfg : Physics) (rng : nat -> R) (width height : R)
    (ps : list Particle) (k : nat) :
  exists (position : R * R) (k1 k' j : nat),
    createParticle cfg rng width height (ps, k)
    = (ps ++ [newParticle cfg (fst position) (snd position)
                (randomSize cfg (rng j)) (rng k1) (rng (S k1))],
       k').
Proof.
  unfold createParticle.
  destruct (findValidPosition rng width height (randomSize cfg (rng k)) ps (S k))
    as [position k1].
  exists position, (S k1), (S (S (S k1))), k. reflexivity.
Qed.

Lemma createParticles_iter (cfg : Physics) (rng : nat -> R) (width height : R)
    (n : nat) :
  length (fst (Nat.iter n (createParticle cfg rng width height) ([], 0%nat))) = n
  /\ Forall (created cfg rng)
       (fst (Nat.iter n (createParticle cfg rng width height) ([], 0%nat))).
Proof.
  induction n as [| n [IHl IHf]]; [split; [reflexivity | apply Forall_nil; exact I] |].
  cbn [Nat.iter nat_rect].
  destruct (Nat.iter n (createParticle cfg rng width height) ([], 0%nat))
    as [ps k] eqn:E.
  change (nat_rect _ ([], 0%nat) (fun _ => createParticle cfg rng width height) n)
    with (Nat.iter n (createParticle cfg rng width height) ([], 0%nat)).
  rewrite E.
  destruct (createParticle_adds cfg rng width height ps k)
    as (position & k1 & k' & j & ->).
  cbn [fst] in *. split.
  - rewrite length_app, IHl. cbn. lia.
  - apply Forall_app. split; [exact IHf |].
    apply Forall_cons. split; [| apply Forall_nil; exact I].
    split; [exists j; reflexivity | split; reflexivity].
Qed.

Lemma randomSize_range (cfg : Physics) (r : R) :
  0 <= r < 1 ->
  Rmin (MIN_SIZE cfg) (MAX_SIZE cfg) <= randomSize cfg r
  <= Rmax (MIN_SIZE cfg) (MAX_SIZE cfg).
Proof.
  intros Hr. unfold randomSize, Rmin, Rmax.
  destruct (Rle_dec (MIN_SIZE cfg) (MAX_SIZE cfg)); nra.
Qed.

(** C9 (amended): [init] does not validate the configuration and never
    fails. For every configuration it completes normally, with the measured
    dimensions stored, no pointer, and PARTICLE_COUNT particles created,
    none when the count is zero or negative. Every particle has size
    MIN_SIZE + r * (MAX_SIZE - MIN_SIZE) for a draw r, so a size between
    the two bounds whichever is the larger, mass twice its size and the
    configured friction. *)
Theorem init_completes (cfg : Physics) (rng : nat -> R) (width height : R) :
  exists w,
    init cfg rng width height = Normal w
    /\ containerWidth w = width /\ containerHeight w = height
    /\ mouse w = None
    /\ length (particles w) = Z.to_nat (PARTICLE_COUNT cfg)
    /\ ((PARTICLE_COUNT cfg <= 0)%Z -> particles w = [])
    /\ Forall (created cfg rng) (particles w)
    /\ ((forall k, 0 <= rng k < 1) ->
        Forall
          (fun p =>
             Rmin (MIN_SIZE cfg) (MAX_SIZE cfg) <= size p
             <= Rmax (MIN_SIZE cfg) (MAX_SIZE cfg))
          (particles w)).
Proof.
  unfold init. eexists. split; [reflexivity |]. fields.
  unfold createParticles.
  destruct (createParticles_iter cfg rng width height (Z.to_nat (PARTICLE_COUNT cfg)))
    as [Hl Hf].
  do 3 (split; [reflexivity |]).
  split; [exact Hl | split; [| split; [exact Hf |]]].
  - intros Hc. apply nil_length_inv. rewrite Hl. lia.
  - intros Hrng. apply (Forall_impl _ _ _ Hf).
    intros p ((j & ->) & _). apply randomSize_range. apply Hrng.
Qed.

Lemma init_completes_witness :
  (PARTICLE_COUNT noParticles <= 0)%Z
  /\ exists w,
       init noParticles zeroDraws 400 300 = Normal w /\ particles w = [].
Proof.
  assert (Hc : (PARTICLE_COUNT noParticles <= 0)%Z) by (cbn; lia).
  split; [exact Hc |].
  destruct (init_completes noParticles zeroDraws 400 300)
    as (w & Hw & _ & _ & _ & _ & Hnil & _).
  exists w. split; [exact Hw | exact (Hnil Hc)].
Defined.

(** C9 as stated fails: with a particle count of 0, and with a minimum size
    (55) above the maximum size (25), [init] completes normally; in the
    second case it goes on to create the particle, of size 55. *)
Lemma init_completes_counterexample :
  match init noParticles zeroDraws 400 300 with
  | Normal w => particles w = []
  | Throw _ => False
  end
  /\ match init invertedSizes zeroDraws 400 300 with
     | Normal w =>
         match particles w with
         | [p] => size p = 55
         | _ => False
         end
     | Throw _ => False
     end.
Proof.
  split; [reflexivity |].
  unfold init, createParticles. cbv iota beta.
  change (Z.to_nat (PARTICLE_COUNT invertedSizes)) with 1%nat.
  cbn [Nat.iter nat_rect]. unfold createParticle.
  change (findValidPosition zeroDraws 400 300
            (randomSize invertedSizes (zeroDraws 0)) [] 1)
    with (randomPosition 400 300 (randomSize invertedSizes (zeroDraws 0))
            (zeroDraws 1) (zeroDraws 2), 3%nat).
  cbn [fst snd particles app newParticle size].
  unfold randomSize, zeroDraws, invertedSizes; cbn [MIN_SIZE MAX_SIZE]. lra.
Qed.

(** * Further properties of the code *)

(** ** utils *)

(** X1: [utils.rotateVector] is a rotation: rotating by an angle and then
    by its opposite, in either order, gives the vector back; rotating by
    [a] and then by [b] is rotating by [a + b]; and the length of the
    vector is kept. *)
Theorem rotateVector_rotation (v : Vec) (a b : R) :
  utils.rotateVector (utils.rotateVector v a) (- a) = v
  /\ utils.rotateVector (utils.rotateVector v (- a)) a = v
  /\ utils.rotateVector (utils.rotateVector v a) b = utils.rotateVector v (a + b)
  /\ norm (utils.rotateVector v a) = norm v.
Proof.
  split; [apply rotate_back | split; [apply rotate_forth | split]].
  - apply Vec_eq; cbn [utils.rotateVector vx vy]; rewrite cos_plus, sin_plus; ring.
  - apply rotate_norm.
Qed.

Lemma sqrt_sum_sqr_zero (a b : R) : sqrt (a ^ 2 + b ^ 2) = 0 -> a = 0 /\ b = 0.
Proof.
  intros H. apply sqrt_eq_0 in H; [| apply sum_sqr_nonneg].
  pose proof (pow2_ge_0 a). pose proof (pow2_ge_0 b).
  assert (Ha : a ^ 2 = 0) by lra. assert (Hb : b ^ 2 = 0) by lra.
  split; [destruct (Req_dec a 0) as [| Hn] | destruct (Req_dec b 0) as [| Hn]];
    try assumption; apply (pow_nonzero _ 2) in Hn; contradiction.
Qed.

Lemma norm_triangle (a b c d : R) :
  sqrt ((a + c) ^ 2 + (b + d) ^ 2) <= sqrt (a ^ 2 + b ^ 2) + sqrt (c ^ 2 + d ^ 2).
Proof.
  set (p := sqrt (a ^ 2 + b ^ 2)). set (q := sqrt (c ^ 2 + d ^ 2)).
  assert (Hp : 0 <= p) by apply sqrt_pos.
  assert (Hq : 0 <= q) by apply sqrt_pos.
  assert (Hpp : p * p = a ^ 2 + b ^ 2) by (apply sqrt_sqrt; apply sum_sqr_nonneg).
  assert (Hqq : q * q = c ^ 2 + d ^ 2) by (apply sqrt_sqrt; apply sum_sqr_nonneg).
  assert (Hcs : a * c + b * d <= p * q).
  { destruct (Rle_dec (a * c + b * d) 0) as [Hneg | Hpos].
    - pose proof (Rmult_le_pos p q Hp Hq). lra.
    - apply Rsqr_incr_0_var; [| apply Rmult_le_pos; assumption].
      unfold Rsqr.
      replace (p * q * (p * q)) with ((p * p) * (q * q)) by ring.
      rewrite Hpp, Hqq.
      pose proof (pow2_ge_0 (a * d - b * c)). nra. }
  replace (p + q) with (sqrt ((p + q) ^ 2)) by (apply sqrt_pow2; lra).
  apply sqrt_le_1_alt.
  replace ((p + q) ^ 2) with (p * p + q * q + 2 * (p * q)) by ring.
  rewrite Hpp, Hqq. nra.
Qed.

(** X2: [utils.distance] is a metric on the plane: it is never negative,
    it is 0 exactly between a point and itself, it does not depend on the
    order of the two points, and it satisfies the triangle inequality. *)
Theorem distance_metric (x1 y1 x2 y2 x3 y3 : R) :
  0 <= utils.distance x1 y1 x2 y2
  /\ (utils.distance x1 y1 x2 y2 = 0 <-> x1 = x2 /\ y1 = y2)
  /\ utils.distance x1 y1 x2 y2 = utils.distance x2 y2 x1 y1
  /\ utils.distance x1 y1 x3 y3
     <= utils.distance x1 y1 x2 y2 + utils.distance x2 y2 x3 y3.
Proof.
  split; [apply distance_nonneg | split; [| split; [apply distance_sym |]]].
  - split.
    + intros H. apply sqrt_sum_sqr_zero in H. lra.
    + intros [-> ->]. unfold utils.distance.
      replace ((x2 - x2) ^ 2 + (y2 - y2) ^ 2) with 0 by ring. apply sqrt_0.
  - unfold utils.distance.
    replace (x3 - x1) with ((x2 - x1) + (x3 - x2)) by ring.
    replace (y3 - y1) with ((y2 - y1) + (y3 - y2)) by ring.
    apply norm_triangle.
Qed.

(** X3: [utils.clamp], whatever the bounds: the result never exceeds
    [max]; clamping is monotone in the value; and clamping a clamped value
    again changes nothing. With [min <= max] the result is also at least
    [min], and a value already between the bounds is returned as it is. *)
Theorem utils_clamp_properties (v v' lo hi : R) :
  utils.clamp v lo hi <= hi
  /\ (v <= v' -> utils.clamp v lo hi <= utils.clamp v' lo hi)
  /\ utils.clamp (utils.clamp v lo hi) lo hi = utils.clamp v lo hi
  /\ (lo <= hi -> lo <= utils.clamp v lo hi)
  /\ (lo <= v <= hi -> utils.clamp v lo hi = v).
Proof.
  unfold utils.clamp, Rmin, Rmax.
  repeat split; intros;
    repeat match goal with
      | |- context [Rle_dec ?a ?b] => destruct (Rle_dec a b)
      | H : context [Rle_dec ?a ?b] |- _ => destruct (Rle_dec a b)
      end; lra.
Qed.

Lemma utils_clamp_properties_witness :
  3 <= 7 /\ utils.clamp 3 5 10 <= utils.clamp 7 5 10.
Proof.
  assert (H : 3 <= 7) by lra.
  split; [exact H |].
  apply (utils_clamp_properties 3 7 5 10). exact H.
Defined.

(** ** More on handleCollision *)

Lemma rotate_sqr (v : Vec) (a : R) :
  vx (utils.rotateVector v a) ^ 2 + vy (utils.rotateVector v a) ^ 2
  = vx v ^ 2 + vy v ^ 2.
Proof.
  pose proof (cos2_sin2 a) as H. cbn [utils.rotateVector vx vy].
  transitivity ((vx v ^ 2 + vy v ^ 2) * (cos a * cos a + sin a * sin a));
    [ring | rewrite H; ring].
Qed.

Lemma calculateCollisionVelocity_energy (u v : Vec) (m1 m2 : R) :
  m1 + m2 <> 0 ->
  m1 * (vx (calculateCollisionVelocity u v m1 m2) ^ 2
        + vy (calculateCollisionVelocity u v m1 m2) ^ 2)
  + m2 * (vx (calculateCollisionVelocity v u m2 m1) ^ 2
          + vy (calculateCollisionVelocity v u m2 m1) ^ 2)
  = m1 * (vx u ^ 2 + vy u ^ 2) + m2 * (vx v ^ 2 + vy v ^ 2).
Proof. intros Hm. cbn [calculateCollisionVelocity vx vy]. field. lra. Qed.

(** X4: [handleCollision] conserves kinetic energy: for two particles as
    the constructor builds them, the sum of m * |v|^2 / 2 over the two is
    the same after the call as before it, whether they overlap or not. *)
Theorem handleCollision_energy (a b : Particle) :
  constructed a -> constructed b ->
  kineticEnergy (fst (handleCollision a b)) + kineticEnergy (snd (handleCollision a b))
  = kineticEnergy a + kineticEnergy b.
Proof.
  intros Ca Cb. destruct (touching_dec a b) as [Ht | Hn].
  - pose proof (constructed_touching_mass a b Ca Cb Ht) as Hm.
    rewrite (handleCollision_touching a b Ht). unfold kineticEnergy.
    cbn [fst snd mass velocity set_velocity].
    rewrite !rotate_sqr.
    pose proof (calculateCollisionVelocity_energy
                  (utils.rotateVector (velocity a) (collisionAngle a b))
                  (utils.rotateVector (velocity b) (collisionAngle a b))
                  (mass a) (mass b) ltac:(lra)) as He.
    rewrite !rotate_sqr in He. lra.
  - rewrite (handleCollision_apart a b Hn). reflexivity.
Qed.

Lemma handleCollision_energy_witness :
  constructed ballA /\ constructed ballB
  /\ kineticEnergy (fst (handleCollision ballA ballB))
     + kineticEnergy (snd (handleCollision ballA ballB))
     = kineticEnergy ballA + kineticEnergy ballB.
Proof.
  assert (Ca : constructed ballA) by (unfold constructed, ballA; fields; lra).
  assert (Cb : constructed ballB) by (unfold constructed, ballB; fields; lra).
  split; [exact Ca | split; [exact Cb |]].
  apply (handleCollision_energy ballA ballB Ca Cb).
Defined.

(** X5: on two overlapping particles [handleCollision] reverses the speed
    at which they approach each other: the component along the line of
    centres of the relative velocity v1 - v2 changes sign and keeps its
    size. *)
Theorem handleCollision_restitution (a b : Particle) :
  constructed a -> constructed b -> touching a b ->
  dot (velocity (fst (handleCollision a b))) (centreLine a b)
  - dot (velocity (snd (handleCollision a b))) (centreLine a b)
  = - (dot (velocity a) (centreLine a b) - dot (velocity b) (centreLine a b)).
Proof.
  intros Ca Cb Ht.
  pose proof (constructed_touching_mass a b Ca Cb Ht) as Hm.
  pose proof (proj1 Ht) as Hd.
  rewrite <- !(proj1 (rotate_collisionAngle a b _ Hd)).
  rewrite (handleCollision_touching a b Ht).
  cbn [fst snd velocity set_velocity]. rewrite !rotate_forth.
  cbn [calculateCollisionVelocity vx vy]. field. lra.
Qed.

Lemma handleCollision_restitution_witness :
  constructed ballA /\ constructed ballB /\ touching ballA ballB
  /\ dot (velocity (fst (handleCollision ballA ballB))) (centreLine ballA ballB)
     - dot (velocity (snd (handleCollision ballA ballB))) (centreLine ballA ballB)
     = - (dot (velocity ballA) (centreLine ballA ballB)
          - dot (velocity ballB) (centreLine ballA ballB)).
Proof.
  assert (Ca : constructed ballA) by (unfold constructed, ballA; fields; lra).
  assert (Cb : constructed ballB) by (unfold constructed, ballB; fields; lra).
  split; [exact Ca | split; [exact Cb | split; [exact ballA_ballB_touching |]]].
  apply (handleCollision_restitution ballA ballB Ca Cb ballA_ballB_touching).
Defined.

(** X6: it does not matter which of the two particles is the receiver of
    [handleCollision]: calling it on [b] with argument [a] leaves the two
    particles exactly as calling it on [a] with argument [b] does. The same
    holds for the two objects of the array. *)
Theorem handleCollision_receiver (a b : Particle) (i j : nat) (ps : list Particle) :
  handleCollision b a = (snd (handleCollision a b), fst (handleCollision a b))
  /\ collide j i ps = collide i j ps.
Proof.
  assert (Hsw : forall a b,
            handleCollision b a
            = (snd (handleCollision a b), fst (handleCollision a b))).
  { clear. intros a b. destruct (touching_dec a b) as [Ht | Hn].
    - rewrite (handleCollision_touching b a (touching_sym a b Ht)).
      rewrite (handleCollision_touching a b Ht). cbn [fst snd].
      destruct (collisionAngle_swap a b (proj1 Ht)) as [Hc Hs].
      assert (Hc' : cos (- collisionAngle b a) = - cos (- collisionAngle a b))
        by (rewrite !cos_neg; exact Hc).
      assert (Hs' : sin (- collisionAngle b a) = - sin (- collisionAngle a b))
        by (rewrite !sin_neg, Hs; ring).
      rewrite !(rotate_opposite _ _ _ Hc Hs), !(rotate_opposite _ _ _ Hc' Hs').
      rewrite !calculateCollisionVelocity_opp, !rotate_vscale, !vscale_opp_opp.
      reflexivity.
    - rewrite (handleCollision_apart a b Hn).
      rewrite handleCollision_apart; [reflexivity |].
      intros Ht. apply Hn. apply touching_sym. exact Ht. }
  split; [apply Hsw |].
  destruct (decide (i = j)) as [-> | Hij]; [reflexivity |].
  unfold collide.
  destruct (ps !! i) as [a0 |] eqn:Ei; destruct (ps !! j) as [b0 |] eqn:Ej;
    try reflexivity.
  rewrite (Hsw a0 b0).
  destruct (handleCollision a0 b0) as [a' b']. cbn [fst snd].
  apply list_insert_insert_ne. exact Hij.
Qed.

(** ** More on handleWallCollisions *)

(** The horizontal tests write neither [y] nor [velocity.y]. *)
Lemma leftWall_y (cfg : Physics) (p : Particle) :
  y (leftWall cfg p) = y p
  /\ vy (velocity (leftWall cfg p)) = vy (velocity p)
  /\ size (leftWall cfg p) = size p.
Proof. unfold leftWall. destruct (Rleb _ _); repeat split; reflexivity. Qed.

Lemma rightWall_y (cfg : Physics) (width : R) (p : Particle) :
  y (rightWall cfg width p) = y p
  /\ vy (velocity (rightWall cfg width p)) = vy (velocity p)
  /\ size (rightWall cfg width p) = size p.
Proof. unfold rightWall. destruct (Rgeb _ _); repeat split; reflexivity. Qed.

Lemma topWall_hit (cfg : Physics) (p : Particle) :
  y p - size p <= 0 ->
  topWall cfg p
  = set_position
      (set_velocity p
         {| vx := vx (velocity p);
            vy := Rabs (vy (velocity p)) * BOUNCE_ENERGY cfg |})
      (x p) (size p).
Proof. intros H. unfold topWall. rdecide. reflexivity. Qed.

Lemma bottomWall_hit (cfg : Physics) (height : R) (p : Particle) :
  y p + size p >= height ->
  bottomWall cfg height p
  = set_position
      (set_velocity p
         {| vx := vx (velocity p);
            vy := - Rabs (vy (velocity p)) * BOUNCE_ENERGY cfg |})
      (x p) (height - size p).
Proof. intros H. unfold bottomWall. rdecide. reflexivity. Qed.

(** X7: the other three walls. A particle whose right edge is at or beyond
    the right wall, and whose left edge is clear of the left wall, gets x =
    containerWidth - radius and x-velocity - |vx| * BOUNCE_ENERGY. A
    particle whose top edge is at or beyond the top wall, and whose
    diameter is smaller than the container height, gets y = radius and
    y-velocity |vy| * BOUNCE_ENERGY. A particle whose bottom edge is at or
    beyond the bottom wall, and whose top edge is clear of the top wall,
    gets y = containerHeight - radius and y-velocity - |vy| * BOUNCE_ENERGY. *)
Theorem other_walls_bounce (cfg : Physics) (width height : R) (p : Particle) :
  let q := handleWallCollisions cfg width height p in
  (0 < x p - size p -> x p + size p >= width ->
   x q = width - size p
   /\ vx (velocity q) = - Rabs (vx (velocity p)) * BOUNCE_ENERGY cfg)
  /\ (y p - size p <= 0 -> 2 * size p < height ->
      y q = size p
      /\ vy (velocity q) = Rabs (vy (velocity p)) * BOUNCE_ENERGY cfg)
  /\ (0 < y p - size p -> y p + size p >= height ->
      y q = height - size p
      /\ vy (velocity q) = - Rabs (vy (velocity p)) * BOUNCE_ENERGY cfg).
Proof.
  intros q. subst q. unfold handleWallCollisions.
  destruct (leftWall_y cfg p) as (Hly & Hlv & Hls).
  destruct (rightWall_y cfg width (leftWall cfg p)) as (Hry & Hrv & Hrs).
  split; [| split].
  - intros Hl Hr.
    destruct (bottomWall_x cfg height
                (topWall cfg (rightWall cfg width (leftWall cfg p)))) as [-> ->].
    destruct (topWall_x cfg (rightWall cfg width (leftWall cfg p))) as [-> ->].
    rewrite leftWall_miss by exact Hl. rewrite rightWall_hit by exact Hr.
    split; reflexivity.
  - intros Ht Hfit.
    rewrite topWall_hit by (rewrite Hry, Hrs, Hly, Hls; exact Ht).
    rewrite bottomWall_miss by (fields; rewrite Hrs, Hls; lra).
    fields. rewrite Hrs, Hls, Hrv, Hlv. split; reflexivity.
  - intros Ht Hb.
    rewrite topWall_miss by (rewrite Hry, Hrs, Hly, Hls; exact Ht).
    rewrite bottomWall_hit by (rewrite Hry, Hrs, Hly, Hls; exact Hb).
    fields. rewrite Hrs, Hls, Hrv, Hlv. split; reflexivity.
Qed.

Lemma other_walls_bounce_witness :
  0 < x smallBody - size smallBody
  /\ x smallBody + size smallBody >= 40
  /\ x (handleWallCollisions PHYSICS 40 300 smallBody) = 40 - size smallBody.
Proof.
  assert (H1 : 0 < x smallBody - size smallBody)
    by (unfold smallBody; fields; lra).
  assert (H2 : x smallBody + size smallBody >= 40)
    by (unfold smallBody; fields; lra).
  split; [exact H1 | split; [exact H2 |]].
  apply (proj1 (other_walls_bounce PHYSICS 40 300 smallBody) H1 H2).
Defined.

Lemma pow2_Rabs_mult (a k : R) : (Rabs a * k) ^ 2 = a ^ 2 * k ^ 2.
Proof. rewrite Rpow_mult_distr, pow2_abs. reflexivity. Qed.

Lemma pow2_opp_Rabs_mult (a k : R) : (- Rabs a * k) ^ 2 = a ^ 2 * k ^ 2.
Proof.
  replace (- Rabs a * k) with (- (Rabs a * k)) by ring.
  rewrite <- Rsqr_pow2, <- Rsqr_neg, Rsqr_pow2. apply pow2_Rabs_mult.
Qed.

(** What the walls do to the squares of the two velocity components of a
    particle whose diameter is smaller than the container. *)
Lemma handleWallCollisions_components (cfg : Physics) (width height : R) (p : Particle) :
  2 * size p < width -> 2 * size p < height ->
  let q := handleWallCollisions cfg width height p in
  (vx (velocity q) ^ 2 = vx (velocity p) ^ 2
   \/ vx (velocity q) ^ 2 = vx (velocity p) ^ 2 * BOUNCE_ENERGY cfg ^ 2)
  /\ (vy (velocity q) ^ 2 = vy (velocity p) ^ 2
      \/ vy (velocity q) ^ 2 = vy (velocity p) ^ 2 * BOUNCE_ENERGY cfg ^ 2).
Proof.
  intros Hw Hh q. subst q. unfold handleWallCollisions.
  destruct (leftWall_y cfg p) as (Hly & Hlv & Hls).
  destruct (rightWall_y cfg width (leftWall cfg p)) as (Hry & Hrv & Hrs).
  split.
  - destruct (bottomWall_x cfg height
                (topWall cfg (rightWall cfg width (leftWall cfg p)))) as [_ ->].
    destruct (topWall_x cfg (rightWall cfg width (leftWall cfg p))) as [_ ->].
    destruct (Rle_dec (x p - size p) 0) as [Hl | Hl].
    + rewrite leftWall_hit by exact Hl. rewrite rightWall_miss by (fields; lra).
      fields. right. apply pow2_Rabs_mult.
    + rewrite leftWall_miss by lra.
      destruct (Rle_dec width (x p + size p)) as [Hr | Hr].
      * rewrite rightWall_hit by lra. fields. right. apply pow2_opp_Rabs_mult.
      * rewrite rightWall_miss by lra. left. reflexivity.
  - set (r := rightWall cfg width (leftWall cfg p)) in *.
    destruct (Rle_dec (y r - size r) 0) as [Ht | Ht].
    + rewrite topWall_hit by exact Ht.
      rewrite bottomWall_miss by (fields; rewrite Hrs, Hls; lra).
      fields. rewrite Hrv, Hlv. right. apply pow2_Rabs_mult.
    + rewrite topWall_miss by lra.
      destruct (Rle_dec height (y r + size r)) as [Hb | Hb].
      * rewrite bottomWall_hit by lra. fields. rewrite Hrv, Hlv.
        right. apply pow2_opp_Rabs_mult.
      * rewrite bottomWall_miss by lra. rewrite Hrv, Hlv. left. reflexivity.
Qed.

(** X8: the walls never slow a particle down and speed it up by at most the
    bounce factor: for a particle whose diameter is smaller than the
    container, and BOUNCE_ENERGY at least 1, the speed after
    [handleWallCollisions] is at least the speed before and at most
    BOUNCE_ENERGY times it. *)
Theorem handleWallCollisions_speed (cfg : Physics) (width height : R) (p : Particle) :
  2 * size p < width -> 2 * size p < height -> 1 <= BOUNCE_ENERGY cfg ->
  norm (velocity p) <= norm (velocity (handleWallCollisions cfg width height p))
  /\ norm (velocity (handleWallCollisions cfg width height p))
     <= BOUNCE_ENERGY cfg * norm (velocity p).
Proof.
  intros Hw Hh Hbe.
  destruct (handleWallCollisions_components cfg width height p Hw Hh) as [Hx Hy].
  set (q := handleWallCollisions cfg width height p) in *.
  pose proof (pow2_ge_0 (vx (velocity p))) as Px.
  pose proof (pow2_ge_0 (vy (velocity p))) as Py.
  assert (Hb2 : 1 <= BOUNCE_ENERGY cfg ^ 2) by nra.
  assert (Hxl : vx (velocity p) ^ 2 <= vx (velocity q) ^ 2
                <= vx (velocity p) ^ 2 * BOUNCE_ENERGY cfg ^ 2)
    by (destruct Hx as [-> | ->]; nra).
  assert (Hyl : vy (velocity p) ^ 2 <= vy (velocity q) ^ 2
                <= vy (velocity p) ^ 2 * BOUNCE_ENERGY cfg ^ 2)
    by (destruct Hy as [-> | ->]; nra).
  split.
  - unfold norm. apply sqrt_le_1_alt. lra.
  - rewrite <- norm_vscale by lra. unfold norm. apply sqrt_le_1_alt.
    cbn [vscale vx vy]. nra.
Qed.

Lemma handleWallCollisions_speed_witness :
  2 * size leftWallBody < 400 /\ 2 * size leftWallBody < 300
  /\ 1 <= BOUNCE_ENERGY PHYSICS
  /\ norm (velocity leftWallBody)
     <= norm (velocity (handleWallCollisions PHYSICS 400 300 leftWallBody)).
Proof.
  assert (H1 : 2 * size leftWallBody < 400) by (unfold leftWallBody; fields; lra).
  assert (H2 : 2 * size leftWallBody < 300) by (unfold leftWallBody; fields; lra).
  assert (H3 : 1 <= BOUNCE_ENERGY PHYSICS) by (unfold PHYSICS; cbn [BOUNCE_ENERGY]; lra).
  split; [exact H1 | split; [exact H2 | split; [exact H3 |]]].
  apply (handleWallCollisions_speed PHYSICS 400 300 leftWallBody H1 H2 H3).
Defined.

(** ** Free flight *)

Lemma updatePosition_fields (r : Particle) :
  friction (updatePosition r) = friction r
  /\ size (updatePosition r) = size r
  /\ mass (updatePosition r) = mass r
  /\ velocity (updatePosition r) = vscale (friction r) (velocity r)
  /\ x (updatePosition r) = x r + vx (velocity r) * friction r
  /\ y (updatePosition r) = y r + vy (velocity r) * friction r.
Proof.
  unfold updatePosition; fields. repeat split.
  apply Vec_eq; cbn [vscale vx vy]; ring.
Qed.

Lemma updatePosition_iter (n : nat) (p : Particle) :
  let q := Nat.iter n updatePosition p in
  friction q = friction p /\ size q = size p /\ mass q = mass p
  /\ velocity q = vscale (friction p ^ n) (velocity p)
  /\ (1 - friction p) * (x q - x p)
     = vx (velocity p) * friction p * (1 - friction p ^ n)
  /\ (1 - friction p) * (y q - y p)
     = vy (velocity p) * friction p * (1 - friction p ^ n).
Proof.
  induction n as [| n IH]; cbn [Nat.iter nat_rect].
  - cbv zeta. repeat split; try reflexivity; try (cbn [pow]; ring).
    apply Vec_eq; cbn [vscale vx vy pow]; ring.
  - change (nat_rect _ p (fun _ => updatePosition) n)
      with (Nat.iter n updatePosition p).
    cbv zeta in *. destruct IH as (Hf & Hs & Hm & Hv & Hx & Hy).
    destruct (updatePosition_fields (Nat.iter n updatePosition p))
      as (-> & -> & -> & -> & -> & ->).
    rewrite Hf, Hv. cbn [vscale vx vy].
    repeat split; try assumption.
    + apply Vec_eq; cbn [vscale vx vy pow]; ring.
    + replace (x (Nat.iter n updatePosition p)
               + friction p ^ n * vx (velocity p) * friction p - x p)
        with ((x (Nat.iter n updatePosition p) - x p)
              + friction p ^ n * vx (velocity p) * friction p) by ring.
      rewrite Rmult_plus_distr_l, Hx. cbn [pow]. ring.
    + replace (y (Nat.iter n updatePosition p)
               + friction p ^ n * vy (velocity p) * friction p - y p)
        with ((y (Nat.iter n updatePosition p) - y p)
              + friction p ^ n * vy (velocity p) * friction p) by ring.
      rewrite Rmult_plus_distr_l, Hy. cbn [pow]. ring.
Qed.

(** X9: free flight. After [n] calls of [updatePosition] with nothing else
    in between, the velocity is friction^n times the initial one and, for a
    friction coefficient other than 1, the particle has moved by
    v * friction * (1 - friction^n) / (1 - friction). With a friction
    coefficient in [0, 1) it therefore never gets farther than
    |v| * friction / (1 - friction) from where it started, on either axis. *)
Theorem free_flight (n : nat) (p : Particle) :
  friction p <> 1 ->
  let q := Nat.iter n updatePosition p in
  let f := friction p in
  velocity q = vscale (f ^ n) (velocity p)
  /\ x q = x p + vx (velocity p) * f * (1 - f ^ n) / (1 - f)
  /\ y q = y p + vy (velocity p) * f * (1 - f ^ n) / (1 - f)
  /\ (0 <= f < 1 ->
      Rabs (x q - x p) <= Rabs (vx (velocity p)) * f / (1 - f)
      /\ Rabs (y q - y p) <= Rabs (vy (velocity p)) * f / (1 - f)).
Proof.
  intros Hf q f0. subst f0.
  destruct (updatePosition_iter n p) as (_ & _ & _ & Hv & Hx & Hy).
  fold q in Hv, Hx, Hy. set (f := friction p) in *.
  assert (Ex : x q = x p + vx (velocity p) * f * (1 - f ^ n) / (1 - f)).
  { apply (Rmult_eq_reg_l (1 - f)); [| lra].
    transitivity ((1 - f) * (x q - x p) + (1 - f) * x p); [ring |].
    rewrite Hx. field. lra. }
  assert (Ey : y q = y p + vy (velocity p) * f * (1 - f ^ n) / (1 - f)).
  { apply (Rmult_eq_reg_l (1 - f)); [| lra].
    transitivity ((1 - f) * (y q - y p) + (1 - f) * y p); [ring |].
    rewrite Hy. field. lra. }
  split; [exact Hv | split; [exact Ex | split; [exact Ey |]]].
  intros [Hf0 Hf1].
  assert (Hpow : 0 <= f ^ n <= 1).
  { split; [apply pow_le; exact Hf0 |].
    rewrite <- (pow1 n). apply pow_incr. lra. }
  assert (Hk : 0 <= f * (1 - f ^ n) / (1 - f) <= f / (1 - f)).
  { assert (Hi : 0 < / (1 - f)) by (apply Rinv_0_lt_compat; lra).
    unfold Rdiv. split.
    - apply Rmult_le_pos; [| lra]. apply Rmult_le_pos; lra.
    - apply Rmult_le_compat_r; [lra |]. nra. }
  assert (Hbound : forall v d,
            d = v * f * (1 - f ^ n) / (1 - f) -> Rabs d <= Rabs v * f / (1 - f)).
  { intros v d ->.
    replace (v * f * (1 - f ^ n) / (1 - f)) with (v * (f * (1 - f ^ n) / (1 - f)))
      by (field; lra).
    rewrite Rabs_mult, (Rabs_right (f * (1 - f ^ n) / (1 - f))) by lra.
    replace (Rabs v * f / (1 - f)) with (Rabs v * (f / (1 - f))) by (field; lra).
    apply Rmult_le_compat_l; [apply Rabs_pos | lra]. }
  split; apply Hbound; [rewrite Ex | rewrite Ey]; ring.
Qed.

Lemma free_flight_witness :
  friction ballC <> 1
  /\ velocity (Nat.iter 3 updatePosition ballC)
     = vscale (friction ballC ^ 3) (velocity ballC).
Proof.
  assert (H : friction ballC <> 1) by (unfold ballC; fields; lra).
  split; [exact H |].
  apply (free_flight 3 ballC H).
Defined.

(** ** What the animation never changes *)

Lemma update_self_full (cfg : Physics) (k : nat) (w : World) (q : Particle) :
  particles (update cfg k w) !! k = Some q ->
  exists p p2,
    particles w !! k = Some p /\ body p2 = body p
    /\ q = handleWallCollisions cfg (containerWidth w) (containerHeight w)
             (updatePosition p2).
Proof.
  rewrite update_particles, !list_lookup_alter_eq.
  destruct (collideAll k _ !! k) as [p2 |] eqn:E; simpl; [| discriminate].
  intros [= <-].
  destruct (same_body_lookup _ _ _ _ (before_walls_body cfg k w) E) as (p & Hp & Hb).
  exists p, p2. repeat split; [exact Hp | symmetry; exact Hb].
Qed.

Lemma update_fixed_fields (cfg : Physics) (k i : nat) (w : World) (q : Particle) :
  particles (update cfg k w) !! i = Some q ->
  exists p,
    particles w !! i = Some p
    /\ size q = size p /\ mass q = mass p /\ friction q = friction p.
Proof.
  intros Hq. destruct (decide (k = i)) as [-> | Hne].
  - apply update_self_full in Hq. destruct Hq as (p & p2 & Hp & Hb & ->).
    exists p. split; [exact Hp |].
    destruct (body_wall_size cfg (containerWidth w) (containerHeight w)
                (updatePosition p2)) as (-> & -> & ->).
    destruct (updatePosition_fields p2) as (-> & -> & -> & _).
    unfold body in Hb. inversion Hb. repeat split; reflexivity.
  - apply update_other_body in Hq; [| exact Hne].
    destruct Hq as (p & Hp & Hb). exists p. split; [exact Hp |].
    unfold body in Hb. inversion Hb. repeat split; reflexivity.
Qed.

Lemma frame_prefix_fixed_fields (cfg : Physics) (k i : nat) (w : World) (q : Particle) :
  particles (frame_prefix cfg k w) !! i = Some q ->
  exists p,
    particles w !! i = Some p
    /\ size q = size p /\ mass q = mass p /\ friction q = friction p.
Proof.
  revert q. induction k as [| k IH]; intros q Hq.
  - exists q. repeat split. exact Hq.
  - rewrite frame_prefix_S in Hq. apply update_fixed_fields in Hq.
    destruct Hq as (p1 & Hp1 & Hs & Hm & Hf).
    destruct (IH p1 Hp1) as (p & Hp & Hs' & Hm' & Hf').
    exists p. repeat split; [exact Hp | congruence | congruence | congruence].
Qed.

Lemma animate_fixed_fields (cfg : Physics) (n i : nat) (w : World) (q : Particle) :
  particles (animate cfg n w) !! i = Some q ->
  exists p,
    particles w !! i = Some p
    /\ size q = size p /\ mass q = mass p /\ friction q = friction p.
Proof.
  revert q. induction n as [| n IH]; intros q Hq.
  - exists q. repeat split. exact Hq.
  - unfold animate in Hq. cbn [Nat.iter nat_rect] in Hq.
    change (nat_rect _ w (fun _ => animate_frame cfg) n) with (animate cfg n w) in Hq.
    rewrite animate_frame_prefix in Hq.
    apply frame_prefix_fixed_fields in Hq.
    destruct Hq as (p1 & Hp1 & Hs & Hm & Hf).
    destruct (IH p1 Hp1) as (p & Hp & Hs' & Hm' & Hf').
    exists p. repeat split; [exact Hp | congruence | congruence | congruence].
Qed.

(** X10: the animation loop never adds or removes a particle, never
    changes the stored container size or pointer, and never changes the
    radius, mass or friction coefficient of a particle: after any number of
    frames the array has the same length and every particle still has the
    size, mass and friction it started with. In particular mass = 2 * size
    stays true. *)
Theorem animate_preserves (cfg : Physics) (n : nat) (w : World) (i : nat) (p : Particle) :
  particles w !! i = Some p ->
  length (particles (animate cfg n w)) = length (particles w)
  /\ containerWidth (animate cfg n w) = containerWidth w
  /\ containerHeight (animate cfg n w) = containerHeight w
  /\ mouse (animate cfg n w) = mouse w
  /\ exists q,
       particles (animate cfg n w) !! i = Some q
       /\ size q = size p /\ mass q = mass p /\ friction q = friction p
       /\ (constructed p -> constructed q).
Proof.
  intros Hp.
  destruct (animate_globals cfg n w) as (Hw & Hh & Hm & Hl).
  split; [exact Hl | split; [exact Hw | split; [exact Hh | split; [exact Hm |]]]].
  assert (Hi : (i < length (particles (animate cfg n w)))%nat)
    by (rewrite Hl; apply (lookup_lt_Some _ _ _ Hp)).
  destruct (lookup_lt_is_Some_2 _ _ Hi) as [q Hq].
  exists q. split; [exact Hq |].
  destruct (animate_fixed_fields cfg n i w q Hq) as (p' & Hp' & Hs & Hm' & Hf).
  rewrite Hp in Hp'. injection Hp' as <-.
  repeat split; try assumption.
  unfold constructed. congruence.
Qed.

Lemma animate_preserves_witness :
  particles twoBalls !! 1%nat = Some ballB
  /\ length (particles (animate PHYSICS 5 twoBalls)) = length (particles twoBalls).
Proof.
  assert (Hp : particles twoBalls !! 1%nat = Some ballB) by reflexivity.
  split; [exact Hp |].
  apply (animate_preserves PHYSICS 5 twoBalls 1 ballB Hp).
Defined.

(** ** The cost of a frame *)

Lemma collision_calls_length (i n : nat) :
  length (collision_calls i n) = if decide (i < n)%nat then (n - 1)%nat else n.
Proof.
  unfold collision_calls. induction n as [| n IH]; [reflexivity |].
  rewrite seq_S, flat_map_app, length_app, IH. cbn [flat_map Nat.add].
  rewrite app_nil_r.
  destruct (decide (n = i)) as [-> | Hne]; cbn [length];
    repeat case_decide; lia.
Qed.

Lemma frame_calls_prefix_length (n m : nat) :
  (m <= n)%nat ->
  length (flat_map (fun k => update_calls k n) (seq 0 m)) = (m * (n + 2))%nat.
Proof.
  induction m as [| m IH]; intros Hm; [reflexivity |].
  rewrite seq_S, flat_map_app, length_app, IH by lia.
  cbn [flat_map Nat.add]. rewrite app_nil_r. unfold update_calls.
  cbn [length]. rewrite length_app, collision_calls_length. cbn [length].
  case_decide; lia.
Qed.

Lemma filter_collision_calls (i n : nat) :
  List.filter is_handleCollision (collision_calls i n) = collision_calls i n.
Proof.
  unfold collision_calls. induction (seq 0 n) as [| j js IH]; [reflexivity |].
  cbn [flat_map]. rewrite List.filter_app, IH.
  destruct (decide (j = i)); reflexivity.
Qed.

Lemma frame_collisions_prefix_length (n m : nat) :
  (m <= n)%nat ->
  length (List.filter is_handleCollision
            (flat_map (fun k => update_calls k n) (seq 0 m)))
  = (m * (n - 1))%nat.
Proof.
  induction m as [| m IH]; intros Hm; [reflexivity |].
  rewrite seq_S, flat_map_app, List.filter_app, length_app, IH by lia.
  cbn [flat_map Nat.add]. rewrite app_nil_r. unfold update_calls.
  cbn [List.filter is_handleCollision].
  rewrite List.filter_app, filter_collision_calls, length_app, collision_calls_length.
  cbn [List.filter is_handleCollision length].
  case_decide; lia.
Qed.

(** X12: the cost of a frame is quadratic in the number of particles: a
    frame of [n] particles runs n * (n + 2) method calls, of which
    n * (n - 1) are calls of [handleCollision]. *)
Theorem frame_cost (cfg : Physics) (w : World) :
  let n := length (particles w) in
  animate_frame cfg w = run_calls cfg (frame_calls n) w
  /\ length (frame_calls n) = (n * (n + 2))%nat
  /\ length (List.filter is_handleCollision (frame_calls n)) = (n * (n - 1))%nat.
Proof.
  intros n. split; [apply animate_frame_run_calls | split].
  - apply frame_calls_prefix_length. lia.
  - apply frame_collisions_prefix_length. lia.
Qed.

(** ** Placement *)

Lemma overlapsSome_false (size0 : R) (position : R * R) (existing : list Particle) :
  overlapsSome size0 position existing = false ->
  Forall
    (fun q =>
       size0 + size q
       <= utils.distance (fst position) (snd position) (x q) (y q))
    existing.
Proof.
  unfold overlapsSome. induction existing as [| q qs IH]; intros H.
  - apply Forall_nil. exact I.
  - cbn [existsb] in H. apply orb_false_elim in H. destruct H as [Hq Hqs].
    apply Forall_cons. split; [apply Rltb_ge; exact Hq | apply IH; exact Hqs].
Qed.

Lemma findValidPosition_loop_spec (rng : nat -> R) (width height size0 : R)
    (existing : list Particle) (left : nat) (position : R * R) (k : nat) :
  exists r,
    (r <= left)%nat
    /\ snd (findValidPosition_loop rng left width height size0 existing position k)
       = (k + 2 * r)%nat
    /\ (r = 0%nat
        /\ fst (findValidPosition_loop rng left width height size0 existing position k)
           = position
        \/ (0 < r)%nat
           /\ fst (findValidPosition_loop rng left width height size0 existing position k)
              = randomPosition width height size0
                  (rng (k + 2 * r - 2)%nat) (rng (k + 2 * r - 1)%nat))
    /\ ((r < left)%nat ->
        overlapsSome size0
          (fst (findValidPosition_loop rng left width height size0 existing position k))
          existing = false)
    /\ (overlapsSome size0 position existing = false -> r = 0%nat).
Proof.
  revert position k. induction left as [| left IH]; intros position k.
  - exists 0%nat. cbn [findValidPosition_loop fst snd].
    repeat split; [lia | lia | left; split; reflexivity | lia].
  - cbn [findValidPosition_loop].
    destruct (overlapsSome size0 position existing) eqn:E; cbn [negb].
    + destruct (IH (randomPosition width height size0 (rng k) (rng (S k))) (S (S k)))
        as (r & Hr & Hk & Hpos & Hfree & _).
      exists (S r). rewrite Hk.
      split; [lia | split; [lia | split; [| split]]].
      * right. split; [lia |].
        destruct Hpos as [[-> ->] | [Hr0 ->]].
        -- cbn [findValidPosition_loop]. f_equal; f_equal; lia.
        -- f_equal; f_equal; lia.
      * intros Hlt. apply Hfree. lia.
      * intros Hc. discriminate.
    + exists 0%nat. cbn [fst snd].
      repeat split; [lia | lia | left; split; reflexivity | intros _; exact E].
Qed.

(** X13: [findValidPosition] makes at most 100 retries. It consumes
    2 + 2 * r draws for some r <= 100, and what it returns is the candidate
    made from the last two of them; r is 0 when the first candidate is
    free, in particular when there is no particle yet. Unless all 100
    retries were used, the returned position is at least size +
    particle.size away from every existing particle. *)
Theorem findValidPosition_bounded (rng : nat -> R) (width height size0 : R)
    (existing : list Particle) (k : nat) :
  let result := findValidPosition rng width height size0 existing k in
  let first := randomPosition width height size0 (rng k) (rng (S k)) in
  exists r,
    (r <= MAX_ATTEMPTS)%nat
    /\ snd result = (k + 2 + 2 * r)%nat
    /\ fst result
       = randomPosition width height size0
           (rng (snd result - 2)%nat) (rng (snd result - 1)%nat)
    /\ ((r < MAX_ATTEMPTS)%nat ->
        Forall
          (fun q =>
             size0 + size q
             <= utils.distance (fst (fst result)) (snd (fst result)) (x q) (y q))
          existing)
    /\ (overlapsSome size0 first existing = false -> result = (first, (k + 2)%nat))
    /\ (existing = [] -> result = (first, (k + 2)%nat)).
Proof.
  intros result first. subst result. unfold findValidPosition. fold first.
  destruct (findValidPosition_loop_spec rng width height size0 existing
              MAX_ATTEMPTS first (S (S k)))
    as (r & Hr & Hk & Hpos & Hfree & Hfirst).
  assert (H0 : overlapsSome size0 first existing = false ->
               findValidPosition_loop rng MAX_ATTEMPTS width height size0 existing
                 first (S (S k))
               = (first, (k + 2)%nat)).
  { intros Hc. specialize (Hfirst Hc). subst r.
    destruct Hpos as [[_ Hp] | [Hlt _]]; [| lia].
    destruct (findValidPosition_loop _ _ _ _ _ _ _ _) as [pos k'].
    cbn [fst snd] in *. subst. f_equal. lia. }
  exists r. rewrite Hk.
  split; [exact Hr | split; [lia | split; [| split; [| split]]]].
  - destruct Hpos as [[-> ->] | [Hr0 ->]].
    + subst first. f_equal; f_equal; lia.
    + f_equal; f_equal; lia.
  - intros Hlt. apply overlapsSome_false. apply Hfree. exact Hlt.
  - exact H0.
  - intros ->. apply H0. reflexivity.
Qed.

Lemma findValidPosition_bounded_witness :
  @nil Particle = []
  /\ findValidPosition zeroDraws 400 300 25 [] 0
     = (randomPosition 400 300 25 (zeroDraws 0) (zeroDraws 1), 2%nat).
Proof.
  split; [reflexivity |].
  destruct (findValidPosition_bounded zeroDraws 400 300 25 [] 0)
    as (r & _ & _ & _ & _ & _ & Hnil).
  exact (Hnil eq_refl).
Defined.

(** ** Creation *)

Lemma createParticle_spec (cfg : Physics) (rng : nat -> R) (width height : R)
    (ps : list Particle) (k : nat) :
  exists r a b,
    (r <= MAX_ATTEMPTS)%nat
    /\ createParticle cfg rng width height (ps, k)
       = (ps ++ [newParticle cfg
                   (fst (randomPosition width height (randomSize cfg (rng k))
                           (rng a) (rng (S a))))
                   (snd (randomPosition width height (randomSize cfg (rng k))
                           (rng a) (rng (S a))))
                   (randomSize cfg (rng k)) (rng b) (rng (S b))],
          (k + 6 + 2 * r)%nat)
    /\ ((r < MAX_ATTEMPTS)%nat ->
        Forall
          (fun q =>
             size q + randomSize cfg (rng k)
             <= utils.distance (x q) (y q)
                  (fst (randomPosition width height (randomSize cfg (rng k))
                          (rng a) (rng (S a))))
                  (snd (randomPosition width height (randomSize cfg (rng k))
                          (rng a) (rng (S a)))))
          ps).
Proof.
  unfold createParticle, findValidPosition.
  destruct (findValidPosition_loop_spec rng width height (randomSize cfg (rng k)) ps
              MAX_ATTEMPTS
              (randomPosition width height (randomSize cfg (rng k))
                 (rng (S k)) (rng (S (S k))))
              (S (S (S k))))
    as (r & Hr & Hk & Hpos & Hfree & _).
  destruct (findValidPosition_loop _ _ _ _ _ _ _ _) as [position k1].
  cbn [fst snd] in *. subst k1.
  assert (Hp : position
               = randomPosition width height (randomSize cfg (rng k))
                   (rng (S k + 2 * r)%nat) (rng (S (S k + 2 * r)))).
  { destruct Hpos as [[-> ->] | [Hr0 ->]]; f_equal; f_equal; lia. }
  exists r, (S k + 2 * r)%nat, (S (S (S (S k)) + 2 * r)).
  split; [exact Hr | split].
  - rewrite <- Hp. f_equal. lia.
  - intros Hlt. rewrite <- Hp.
    apply (Forall_impl _ _ _ (overlapsSome_false _ _ _ (Hfree Hlt))). intros q Hq.
    rewrite distance_sym. lra.
Qed.

Lemma spread_snoc (ps : list Particle) (p : Particle) :
  spread ps ->
  Forall (fun q => size q + size p <= utils.distance (x q) (y q) (x p) (y p)) ps ->
  spread (ps ++ [p]).
Proof.
  intros Hs Hall i j a b Hij Ha Hb.
  apply lookup_snoc_Some in Hb. destruct Hb as [[Hj Hb] | [Hj <-]].
  - rewrite lookup_app_l in Ha by lia. apply (Hs i j a b Hij Ha Hb).
  - rewrite lookup_app_l in Ha by lia.
    rewrite Forall_lookup in Hall. apply (Hall i a Ha).
Qed.

Lemma createParticles_iter_spec (cfg : Physics) (rng : nat -> R) (width height : R)
    (n : nat) :
  let st := Nat.iter n (createParticle cfg rng width height) ([], 0%nat) in
  length (fst st) = n
  /\ (6 * n <= snd st <= 206 * n)%nat
  /\ ((snd st < 6 * n + 200)%nat -> spread (fst st))
  /\ Forall
       (fun p =>
          exists j a b,
            p = newParticle cfg
                  (fst (randomPosition width height (randomSize cfg (rng j))
                          (rng a) (rng (S a))))
                  (snd (randomPosition width height (randomSize cfg (rng j))
                          (rng a) (rng (S a))))
                  (randomSize cfg (rng j)) (rng b) (rng (S b)))
       (fst st).
Proof.
  induction n as [| n IH]; cbn [Nat.iter nat_rect].
  - cbv zeta. cbn [fst snd length].
    repeat split; try lia; [| apply Forall_nil; exact I].
    intros _ i j a b _ Ha. discriminate.
  - change (nat_rect _ ([], 0%nat) (fun _ => createParticle cfg rng width height) n)
      with (Nat.iter n (createParticle cfg rng width height) ([], 0%nat)).
    cbv zeta in *.
    destruct (Nat.iter n (createParticle cfg rng width height) ([], 0%nat))
      as [ps k].
    cbn [fst snd] in IH. destruct IH as (Hl & Hk & Hs & Hf).
    destruct (createParticle_spec cfg rng width height ps k)
      as (r & a & b & Hr & -> & Hfree).
    unfold MAX_ATTEMPTS in *. cbn [fst snd].
    split; [rewrite length_app, Hl; cbn [length]; lia |].
    split; [lia |]. split.
    + intros Hlt. apply spread_snoc; [apply Hs; lia |].
      apply Hfree. lia.
    + apply Forall_app. split; [exact Hf |].
      apply Forall_cons. split; [| apply Forall_nil; exact I].
      exists k, a, b. reflexivity.
Qed.

Lemma randomPosition_inside (width height size0 r1 r2 : R) :
  0 <= r1 < 1 -> 0 <= r2 < 1 -> 2 * size0 <= width -> 2 * size0 <= height ->
  size0 <= fst (randomPosition width height size0 r1 r2) <= width - size0
  /\ size0 <= snd (randomPosition width height size0 r1 r2) <= height - size0.
Proof.
  intros H1 H2 Hw Hh. unfold randomPosition. cbn [fst snd]. nra.
Qed.

(** X14: where the particles start. With draws in [0, 1), MIN_SIZE <=
    MAX_SIZE, a container at least 2 * MAX_SIZE wide and high and a
    non-negative INITIAL_VELOCITY, every particle that [init] creates has a
    radius in [MIN_SIZE, MAX_SIZE], lies inside the container, and has
    velocity components of absolute value at most INITIAL_VELOCITY / 2. *)
Theorem init_particles_inside (cfg : Physics) (rng : nat -> R) (width height : R)
    (w : World) :
  (forall k, 0 <= rng k < 1) ->
  MIN_SIZE cfg <= MAX_SIZE cfg ->
  2 * MAX_SIZE cfg <= width -> 2 * MAX_SIZE cfg <= height ->
  0 <= INITIAL_VELOCITY cfg ->
  init cfg rng width height = Normal w ->
  Forall
    (fun p =>
       MIN_SIZE cfg <= size p <= MAX_SIZE cfg
       /\ inBounds width height p
       /\ Rabs (vx (velocity p)) <= INITIAL_VELOCITY cfg / 2
       /\ Rabs (vy (velocity p)) <= INITIAL_VELOCITY cfg / 2)
    (particles w).
Proof.
  intros Hrng Hmm Hw Hh Hiv Hinit.
  unfold init in Hinit. injection Hinit as <-. fields.
  unfold createParticles.
  destruct (createParticles_iter_spec cfg rng width height
              (Z.to_nat (PARTICLE_COUNT cfg))) as (_ & _ & _ & Hf).
  apply (Forall_impl _ _ _ Hf). intros p (j & a & b & ->).
  assert (Hs : MIN_SIZE cfg <= randomSize cfg (rng j) <= MAX_SIZE cfg).
  { unfold randomSize. pose proof (Hrng j). nra. }
  destruct (randomPosition_inside width height (randomSize cfg (rng j))
              (rng a) (rng (S a)) (Hrng a) (Hrng (S a))) as [Hx Hy]; [lra | lra |].
  unfold inBounds, newParticle, randomVelocity; fields.
  split; [exact Hs | split; [split; assumption |]].
  pose proof (Hrng b). pose proof (Hrng (S b)).
  split; apply Rabs_le; nra.
Qed.

Lemma init_particles_inside_witness :
  (forall k, 0 <= zeroDraws k < 1)
  /\ MIN_SIZE PHYSICS <= MAX_SIZE PHYSICS
  /\ 2 * MAX_SIZE PHYSICS <= 400 /\ 2 * MAX_SIZE PHYSICS <= 300
  /\ 0 <= INITIAL_VELOCITY PHYSICS
  /\ match init PHYSICS zeroDraws 400 300 with
     | Normal w => Forall (fun p => inBounds 400 300 p) (particles w)
     | Throw _ => False
     end.
Proof.
  assert (H1 : forall k, 0 <= zeroDraws k < 1) by (intros k; unfold zeroDraws; lra).
  assert (H2 : MIN_SIZE PHYSICS <= MAX_SIZE PHYSICS)
    by (unfold PHYSICS; cbn [MIN_SIZE MAX_SIZE]; lra).
  assert (H3 : 2 * MAX_SIZE PHYSICS <= 400) by (unfold PHYSICS; cbn [MAX_SIZE]; lra).
  assert (H4 : 2 * MAX_SIZE PHYSICS <= 300) by (unfold PHYSICS; cbn [MAX_SIZE]; lra).
  assert (H5 : 0 <= INITIAL_VELOCITY PHYSICS)
    by (unfold PHYSICS; cbn [INITIAL_VELOCITY]; lra).
  repeat (split; [assumption |]).
  pose proof (init_particles_inside PHYSICS zeroDraws 400 300) as H.
  destruct (init PHYSICS zeroDraws 400 300) as [w | e] eqn:E.
  - apply (Forall_impl _ _ _ (H w H1 H2 H3 H4 H5 eq_refl)). intros p Hp. apply Hp.
  - discriminate E.
Defined.

(** ** Resizing again *)

Lemma utils_clamp_inside (v lo hi : R) : lo <= v <= hi -> utils.clamp v lo hi = v.
Proof.
  intros H. apply (utils_clamp_clampedTo v lo hi); lra.
Qed.

Lemma utils_clamp_idem (v lo hi : R) :
  utils.clamp (utils.clamp v lo hi) lo hi = utils.clamp v lo hi.
Proof.
  destruct (Rle_dec lo hi) as [Hle | Hgt].
  - apply utils_clamp_inside. apply (utils_clamp_clampedTo v lo hi Hle).
  - rewrite !utils_clamp_empty by lra. reflexivity.
Qed.

Lemma clamp_clamp (width height : R) (p : Particle) :
  clamp width height (clamp width height p) = clamp width height p.
Proof.
  unfold clamp, set_position; fields. f_equal; apply utils_clamp_idem.
Qed.

Lemma clamp_inBounds (width height : R) (p : Particle) :
  inBounds width height p -> clamp width height p = p.
Proof.
  intros [Hx Hy]. unfold clamp.
  rewrite (utils_clamp_inside _ _ _ Hx), (utils_clamp_inside _ _ _ Hy).
  destruct p; reflexivity.
Qed.

(** X16: the resize handler is idempotent: a second resize to the same
    dimensions changes nothing. And a resize to dimensions in which every
    particle already lies inside the container moves no particle. *)
Theorem onResize_idempotent (width height : R) (w : World) :
  onResize width height (onResize width height w) = onResize width height w
  /\ (Forall (inBounds width height) (particles w) ->
      particles (onResize width height w) = particles w).
Proof.
  split.
  - unfold onResize; fields. f_equal.
    rewrite <- list_fmap_compose. apply list_fmap_ext.
    intros i p _. apply clamp_clamp.
  - intros Hall. unfold onResize; fields.
    rewrite <- (list_fmap_id (particles w)) at 2.
    apply Forall_fmap_ext_1. apply (Forall_impl _ _ _ Hall).
    intros p Hp. apply clamp_inBounds. exact Hp.
Qed.

Lemma onResize_idempotent_witness :
  Forall (inBounds 1000 1000) (particles twoBalls)
  /\ particles (onResize 1000 1000 twoBalls) = particles twoBalls.
Proof.
  assert (H : Forall (inBounds 1000 1000) (particles twoBalls)).
  { unfold twoBalls; fields.
    repeat (apply Forall_cons; split;
            [unfold inBounds, ballA, ballB; fields; lra |]).
    apply Forall_nil. exact I. }
  split; [exact H |].
  apply (onResize_idempotent 1000 1000 twoBalls). exact H.
Defined.

(** ** Colours *)

(** X17: [utils.randomColor] never reads outside the palette: for a
    non-empty palette and a draw in [0, 1) it returns one of the palette's
    colours, never [undefined]; with the configured palette that colour is
    always "white". *)
Theorem randomColor_defined (palette : list String.string) (r : R) :
  palette <> [] -> 0 <= r < 1 ->
  (exists c, randomColor palette r = Some c /\ c ∈ palette)
  /\ randomColor SHAPES r = Some "white"%string.
Proof.
  intros Hne Hr.
  assert (Hidx : forall l : list String.string,
            l <> [] -> (Z.to_nat (Int_part (r * INR (length l))) < length l)%nat).
  { intros l Hl.
    assert (Hn : (0 < length l)%nat) by (destruct l; [congruence | cbn; lia]).
    pose proof (lt_0_INR _ Hn) as Hpos.
    destruct (base_Int_part (r * INR (length l))) as [Hlo Hhi].
    assert (Hlt : IZR (Int_part (r * INR (length l))) < IZR (Z.of_nat (length l))).
    { rewrite <- INR_IZR_INZ. nra. }
    apply lt_IZR in Hlt.
    assert (Hge : IZR (-1) < IZR (Int_part (r * INR (length l)))) by nra.
    apply lt_IZR in Hge. lia. }
  split.
  - unfold randomColor.
    destruct (lookup_lt_is_Some_2 _ _ (Hidx palette Hne)) as [c Hc].
    exists c. split; [exact Hc | apply (list_elem_of_lookup_2 _ _ _ Hc)].
  - unfold randomColor.
    assert (H1 : (Z.to_nat (Int_part (r * INR (length SHAPES))) < length SHAPES)%nat)
      by (apply Hidx; discriminate).
    cbn [SHAPES length] in *.
    destruct (Z.to_nat (Int_part (r * INR 1))); [reflexivity | lia].
Qed.

Lemma randomColor_defined_witness :
  SHAPES <> [] /\ 0 <= 5 / 10 < 1
  /\ randomColor SHAPES (5 / 10) = Some "white"%string.
Proof.
  assert (H1 : SHAPES <> []) by discriminate.
  assert (H2 : 0 <= 5 / 10 < 1) by lra.
  split; [exact H1 | split; [exact H2 |]].
  apply (randomColor_defined SHAPES (5 / 10) H1 H2).
Defined.

(** ** The event loop *)

Lemma handleEvent_fixed_fields (cfg : Physics) (e : Event) (w : World)
    (i : nat) (q : Particle) :
  particles (handleEvent cfg w e) !! i = Some q ->
  exists p,
    particles w !! i = Some p
    /\ size q = size p /\ mass q = mass p /\ friction q = friction p.
Proof.
  destruct e as [| pageX pageY offsetLeft offsetTop | newWidth newHeight];
    cbn [handleEvent].
  - rewrite animate_frame_prefix. apply frame_prefix_fixed_fields.
  - unfold onMouseMove; fields. intros Hq. exists q. repeat split. exact Hq.
  - unfold onResize; fields. rewrite list_lookup_fmap.
    destruct (particles w !! i) as [p |]; simpl; [| discriminate].
    intros [= <-]. exists p. repeat split.
Qed.

Lemma handleEvent_length (cfg : Physics) (e : Event) (w : World) :
  length (particles (handleEvent cfg w e)) = length (particles w).
Proof.
  destruct e as [| pageX pageY offsetLeft offsetTop | newWidth newHeight];
    cbn [handleEvent].
  - rewrite animate_frame_prefix. apply frame_prefix_globals.
  - reflexivity.
  - unfold onResize; fields. apply length_fmap.
Qed.

Lemma handleEvent_mouse (cfg : Physics) (e : Event) (w : World) :
  mouse w <> None -> mouse (handleEvent cfg w e) <> None.
Proof.
  destruct e as [| pageX pageY offsetLeft offsetTop | newWidth newHeight];
    cbn [handleEvent].
  - rewrite animate_frame_prefix.
    destruct (frame_prefix_globals cfg (length (particles w)) w) as (_ & _ & -> & _).
    intros H. exact H.
  - intros _. discriminate.
  - intros H. exact H.
Qed.

(** X19: what no callback ever does. Over any sequence of frames, pointer
    moves and resizes the array keeps its length, every particle keeps its
    radius, mass and friction coefficient, and a pointer position, once
    recorded, is never cleared again. *)
Theorem runEvents_preserves (cfg : Physics) (es : list Event) (w : World)
    (i : nat) (p : Particle) :
  particles w !! i = Some p ->
  length (particles (runEvents cfg es w)) = length (particles w)
  /\ (mouse w <> None -> mouse (runEvents cfg es w) <> None)
  /\ exists q,
       particles (runEvents cfg es w) !! i = Some q
       /\ size q = size p /\ mass q = mass p /\ friction q = friction p.
Proof.
  revert w p. induction es as [| e es IH]; intros w p Hp.
  - split; [reflexivity | split; [intros H; exact H |]].
    exists p. repeat split. exact Hp.
  - cbn [runEvents fold_left]. fold (runEvents cfg es (handleEvent cfg w e)).
    assert (Hi : (i < length (particles (handleEvent cfg w e)))%nat)
      by (rewrite handleEvent_length; apply (lookup_lt_Some _ _ _ Hp)).
    destruct (lookup_lt_is_Some_2 _ _ Hi) as [p1 Hp1].
    destruct (handleEvent_fixed_fields cfg e w i p1 Hp1) as (p' & Hp' & Hs & Hm & Hf).
    rewrite Hp in Hp'. injection Hp' as <-.
    destruct (IH _ _ Hp1) as (Hl & Hmouse & q & Hq & Hs' & Hm' & Hf').
    split; [rewrite Hl; apply handleEvent_length |].
    split; [intros H; apply Hmouse; apply handleEvent_mouse; exact H |].
    exists q. repeat split; [exact Hq | congruence | congruence | congruence].
Qed.

Lemma runEvents_preserves_witness :
  particles smallScene !! 0%nat = Some smallBody
  /\ length (particles (runEvents PHYSICS [EvFrame; EvResize 40 300; EvFrame] smallScene))
     = length (particles smallScene).
Proof.
  assert (Hp : particles smallScene !! 0%nat = Some smallBody) by reflexivity.
  split; [exact Hp |].
  apply (runEvents_preserves PHYSICS [EvFrame; EvResize 40 300; EvFrame]
           smallScene 0 smallBody Hp).
Defined.

(** ** Edge cases of handleCollision, and the reach of update *)

(** X20: [handleCollision] skips the degenerate cases. Two particles with
    the same centre are left as they are, so in particular a particle
    passed to itself; and so are two particles whose centres are at least
    the sum of their radii apart, circles that just touch included. *)
Theorem handleCollision_skips (a b : Particle) :
  handleCollision a a = (a, a)
  /\ (x a = x b /\ y a = y b -> handleCollision a b = (a, b))
  /\ (size a + size b <= utils.distance (x a) (y a) (x b) (y b) ->
      handleCollision a b = (a, b)).
Proof.
  assert (Hsame : forall a b, x a = x b /\ y a = y b -> handleCollision a b = (a, b)).
  { clear. intros a b [Hx Hy]. apply handleCollision_apart. unfold touching.
    rewrite (distance_eq (x a) (y a) (x b) (y b) 0);
      [lra | lra | rewrite Hx, Hy; ring]. }
  split; [apply Hsame; split; reflexivity | split; [apply Hsame |]].
  intros H. apply handleCollision_apart. unfold touching. lra.
Qed.

Lemma handleCollision_skips_witness :
  size ballA + size ballC
  <= utils.distance (x ballA) (y ballA) (x ballC) (y ballC)
  /\ handleCollision ballA ballC = (ballA, ballC).
Proof.
  assert (H : size ballA + size ballC
              <= utils.distance (x ballA) (y ballA) (x ballC) (y ballC)).
  { unfold ballA, ballC; fields.
    assert (Hd : 400 <= utils.distance 100 100 500 500).
    { pose proof (distance_nonneg 100 100 500 500) as Hn.
      pose proof (distance_sqr 100 100 500 500) as Hs. nra. }
    lra. }
  split; [exact H |].
  apply (handleCollision_skips ballA ballC). exact H.
Defined.

(** X21: [update] of one particle moves no other particle. Of any other
    particle of the array it can change the velocity only, and it leaves a
    particle that the updated one does not overlap exactly as it was. *)
Theorem update_reach (cfg : Physics) (k i : nat) (w : World) (p : Particle) :
  k <> i -> particles w !! i = Some p ->
  (exists q, particles (update cfg k w) !! i = Some q /\ body q = body p)
  /\ ((forall a, particles w !! k = Some a -> ~ touching a p) ->
      particles (update cfg k w) !! i = Some p).
Proof.
  intros Hk Hp. split.
  - assert (Hi : (i < length (particles (update cfg k w)))%nat)
      by (rewrite update_length; apply (lookup_lt_Some _ _ _ Hp)).
    destruct (lookup_lt_is_Some_2 _ _ Hi) as [q Hq].
    exists q. split; [exact Hq |].
    destruct (update_other_body cfg k i w q Hk Hq) as (p' & Hp' & Hb).
    rewrite Hp in Hp'. injection Hp' as <-. symmetry. exact Hb.
  - intros Hap. rewrite update_other_apart; [exact Hp | exact Hk |].
    intros a b Ha Hb. rewrite Hp in Hb. injection Hb as <-. apply Hap. exact Ha.
Qed.

Lemma update_reach_witness :
  0%nat <> 1%nat /\ particles twoBalls !! 1%nat = Some ballB
  /\ exists q, particles (update PHYSICS 0 twoBalls) !! 1%nat = Some q
               /\ body q = body ballB.
Proof.
  assert (H1 : 0%nat <> 1%nat) by lia.
  assert (H2 : particles twoBalls !! 1%nat = Some ballB) by reflexivity.
  split; [exact H1 | split; [exact H2 |]].
  apply (update_reach PHYSICS 0 1 twoBalls ballB H1 H2).
Defined.

Lemma distance_metric_witness :
  (1 = 1 /\ 2 = 2) /\ utils.distance 1 2 1 2 = 0.
Proof.
  assert (H : 1 = 1 /\ 2 = 2) by (split; reflexivity).
  split; [exact H |].
  apply (proj2 (proj1 (proj2 (distance_metric 1 2 1 2 0 0)))). exact H.
Defined.

(** * The physics with infinities and NaN *)

(** ** Arithmetic on the special values *)

Lemma num_add_NaN_r (a : num) : Num.add a NaN = NaN.
Proof. destruct a; reflexivity. Qed.

Lemma num_sub_NaN_r (a : num) : Num.sub a NaN = NaN.
Proof. unfold Num.sub. apply num_add_NaN_r. Qed.

Lemma num_mul_NaN_r (a : num) : Num.mul a NaN = NaN.
Proof. destruct a; reflexivity. Qed.


Lemma num_leb_Fin (a : R) (b : num) :
  Num.leb (Fin a) b = true -> b = PInf \/ exists r, b = Fin r /\ a <= r.
Proof.
  destruct b as [r | | |]; cbn; intros H; try discriminate.
  - right. exists r. split; [reflexivity | apply Rleb_le; exact H].
  - left. reflexivity.
Qed.

(** ** What a call leaves alone *)

Lemma js_handleCollision_body (a b : Js.Particle) :
  Js.body (fst (Js.handleCollision a b)) = Js.body a
  /\ Js.body (snd (Js.handleCollision a b)) = Js.body b.
Proof.
  unfold Js.handleCollision. destruct (_ || _); split; reflexivity.
Qed.

Lemma js_body_repelFromMouse (cfg : Physics) (m : option (num * num)) (p : Js.Particle) :
  Js.body (Js.repelFromMouse cfg m p) = Js.body p.
Proof.
  unfold Js.repelFromMouse. destruct m as [[mx my] |]; [| reflexivity].
  destruct (_ && _); reflexivity.
Qed.

Lemma js_same_body_lookup (l1 l2 : list Js.Particle) (k : nat) (a : Js.Particle) :
  Js.body <$> l1 = Js.body <$> l2 -> l1 !! k = Some a ->
  exists b, l2 !! k = Some b /\ Js.body b = Js.body a.
Proof.
  intros Heq Ha.
  assert (H : (Js.body <$> l2) !! k = Some (Js.body a))
    by (rewrite <- Heq, list_lookup_fmap, Ha; reflexivity).
  rewrite list_lookup_fmap in H.
  destruct (l2 !! k) as [b |]; simpl in H; [| discriminate].
  exists b. split; [reflexivity | congruence].
Qed.

Lemma js_alter_body (f : Js.Particle -> Js.Particle) (i : nat) (ps : list Js.Particle) :
  (forall p, Js.body (f p) = Js.body p) -> Js.body <$> alter f i ps = Js.body <$> ps.
Proof.
  intros Hf. apply list_eq. intros k.
  rewrite !list_lookup_fmap, list_lookup_alter.
  destruct (decide (i = k)) as [-> |]; [| reflexivity].
  destruct (ps !! k); simpl; [rewrite Hf |]; reflexivity.
Qed.

Lemma js_collide_body (i j : nat) (ps : list Js.Particle) :
  Js.body <$> Js.collide i j ps = Js.body <$> ps.
Proof.
  unfold Js.collide. destruct (ps !! i) as [a |] eqn:Ei; [| reflexivity].
  destruct (ps !! j) as [b |] eqn:Ej; [| reflexivity].
  destruct (js_handleCollision_body a b) as [Ha Hb].
  destruct (Js.handleCollision a b) as [a' b']. simpl in Ha, Hb.
  rewrite !list_fmap_insert, Ha, Hb.
  rewrite (list_insert_id _ i) by (rewrite list_lookup_fmap, Ei; reflexivity).
  apply list_insert_id. rewrite list_lookup_fmap, Ej. reflexivity.
Qed.

Lemma js_collideAll_body (i : nat) (ps : list Js.Particle) :
  Js.body <$> Js.collideAll i ps = Js.body <$> ps.
Proof.
  unfold Js.collideAll. generalize (seq 0 (length ps)) as js. intros js.
  revert ps. induction js as [| j js IH]; intros ps; simpl; [reflexivity |].
  rewrite IH. unfold Js.collideStep. destruct (decide (j = i)); [reflexivity |].
  apply js_collide_body.
Qed.

Lemma js_before_walls_body (cfg : Physics) (i : nat) (w : Js.World) :
  Js.body <$> Js.collideAll i
                (alter (Js.repelFromMouse cfg (Js.mouse w)) i (Js.particles w))
  = Js.body <$> Js.particles w.
Proof.
  rewrite js_collideAll_body. apply js_alter_body. apply js_body_repelFromMouse.
Qed.

Lemma js_update_particles (cfg : Physics) (i : nat) (w : Js.World) :
  Js.particles (Js.update cfg i w)
  = alter (Js.handleWallCollisions cfg (Js.containerWidth w) (Js.containerHeight w)) i
      (alter Js.updatePosition i
         (Js.collideAll i
            (alter (Js.repelFromMouse cfg (Js.mouse w)) i (Js.particles w)))).
Proof. reflexivity. Qed.

Lemma js_update_length (cfg : Physics) (i : nat) (w : Js.World) :
  length (Js.particles (Js.update cfg i w)) = length (Js.particles w).
Proof.
  rewrite js_update_particles, !length_alter.
  rewrite <- (length_fmap Js.body), js_collideAll_body, length_fmap, length_alter.
  reflexivity.
Qed.

Lemma js_update_other_body (cfg : Physics) (k i : nat) (w : Js.World) (q : Js.Particle) :
  k <> i -> Js.particles (Js.update cfg k w) !! i = Some q ->
  exists p, Js.particles w !! i = Some p /\ Js.body p = Js.body q.
Proof.
  intros Hk. rewrite js_update_particles, !list_lookup_alter_ne by exact Hk.
  apply js_same_body_lookup. apply js_before_walls_body.
Qed.

Lemma js_update_self (cfg : Physics) (k : nat) (w : Js.World) (q : Js.Particle) :
  Js.particles (Js.update cfg k w) !! k = Some q ->
  exists p p2,
    Js.particles w !! k = Some p /\ Js.body p2 = Js.body p
    /\ q = Js.handleWallCollisions cfg (Js.containerWidth w) (Js.containerHeight w)
             (Js.updatePosition p2).
Proof.
  rewrite js_update_particles, !list_lookup_alter_eq.
  destruct (Js.collideAll k _ !! k) as [p2 |] eqn:E; simpl; [| discriminate].
  intros [= <-].
  destruct (js_same_body_lookup _ _ _ _ (js_before_walls_body cfg k w) E)
    as (p & Hp & Hb).
  exists p, p2. repeat split; [exact Hp | symmetry; exact Hb].
Qed.

Lemma js_frame_prefix_S (cfg : Physics) (k : nat) (w : Js.World) :
  Js.frame_prefix cfg (S k) w = Js.update cfg k (Js.frame_prefix cfg k w).
Proof.
  unfold Js.frame_prefix. rewrite seq_S, fold_left_app. reflexivity.
Qed.

Lemma js_frame_prefix_globals (cfg : Physics) (k : nat) (w : Js.World) :
  Js.containerWidth (Js.frame_prefix cfg k w) = Js.containerWidth w
  /\ Js.containerHeight (Js.frame_prefix cfg k w) = Js.containerHeight w
  /\ Js.mouse (Js.frame_prefix cfg k w) = Js.mouse w
  /\ length (Js.particles (Js.frame_prefix cfg k w)) = length (Js.particles w).
Proof.
  induction k as [| k IH]; [repeat split; reflexivity |].
  rewrite js_frame_prefix_S. destruct IH as (Hw & Hh & Hm & Hl).
  rewrite js_update_length. repeat split; assumption.
Qed.

Lemma js_animate_frame_prefix (cfg : Physics) (w : Js.World) :
  Js.animate_frame cfg w = Js.frame_prefix cfg (length (Js.particles w)) w.
Proof. reflexivity. Qed.



(** ** The walls *)

Lemma js_leftWall_fields (cfg : Physics) (p : Js.Particle) :
  Js.x (Js.leftWall cfg p)
  = (if Num.leb (Num.sub (Js.x p) (Js.size p)) (Fin 0) then Js.size p else Js.x p)
  /\ Js.y (Js.leftWall cfg p) = Js.y p
  /\ Js.size (Js.leftWall cfg p) = Js.size p
  /\ Js.mass (Js.leftWall cfg p) = Js.mass p
  /\ Js.friction (Js.leftWall cfg p) = Js.friction p.
Proof.
  unfold Js.leftWall.
  destruct (Num.leb (Num.sub (Js.x p) (Js.size p)) (Fin 0)); repeat split; reflexivity.
Qed.

Lemma js_rightWall_fields (cfg : Physics) (width : num) (p : Js.Particle) :
  Js.x (Js.rightWall cfg width p)
  = (if Num.geb (Num.add (Js.x p) (Js.size p)) width
     then Num.sub width (Js.size p) else Js.x p)
  /\ Js.y (Js.rightWall cfg width p) = Js.y p
  /\ Js.size (Js.rightWall cfg width p) = Js.size p
  /\ Js.mass (Js.rightWall cfg width p) = Js.mass p
  /\ Js.friction (Js.rightWall cfg width p) = Js.friction p.
Proof.
  unfold Js.rightWall.
  destruct (Num.geb (Num.add (Js.x p) (Js.size p)) width); repeat split; reflexivity.
Qed.

Lemma js_topWall_fields (cfg : Physics) (p : Js.Particle) :
  Js.y (Js.topWall cfg p)
  = (if Num.leb (Num.sub (Js.y p) (Js.size p)) (Fin 0) then Js.size p else Js.y p)
  /\ Js.x (Js.topWall cfg p) = Js.x p
  /\ Js.size (Js.topWall cfg p) = Js.size p
  /\ Js.mass (Js.topWall cfg p) = Js.mass p
  /\ Js.friction (Js.topWall cfg p) = Js.friction p.
Proof.
  unfold Js.topWall.
  destruct (Num.leb (Num.sub (Js.y p) (Js.size p)) (Fin 0)); repeat split; reflexivity.
Qed.

Lemma js_bottomWall_fields (cfg : Physics) (height : num) (p : Js.Particle) :
  Js.y (Js.bottomWall cfg height p)
  = (if Num.geb (Num.add (Js.y p) (Js.size p)) height
     then Num.sub height (Js.size p) else Js.y p)
  /\ Js.x (Js.bottomWall cfg height p) = Js.x p
  /\ Js.size (Js.bottomWall cfg height p) = Js.size p
  /\ Js.mass (Js.bottomWall cfg height p) = Js.mass p
  /\ Js.friction (Js.bottomWall cfg height p) = Js.friction p.
Proof.
  unfold Js.bottomWall.
  destruct (Num.geb (Num.add (Js.y p) (Js.size p)) height); repeat split; reflexivity.
Qed.

Lemma js_handleWallCollisions_axes (cfg : Physics) (width height : num) (p : Js.Particle) :
  Js.x (Js.handleWallCollisions cfg width height p)
  = Js.wallAxis (Js.x p) (Js.size p) width
  /\ Js.y (Js.handleWallCollisions cfg width height p)
     = Js.wallAxis (Js.y p) (Js.size p) height
  /\ Js.size (Js.handleWallCollisions cfg width height p) = Js.size p
  /\ Js.mass (Js.handleWallCollisions cfg width height p) = Js.mass p
  /\ Js.friction (Js.handleWallCollisions cfg width height p) = Js.friction p.
Proof.
  unfold Js.handleWallCollisions, Js.wallAxis.
  destruct (js_leftWall_fields cfg p) as (Hlx & Hly & Hls & Hlm & Hlf).
  destruct (js_rightWall_fields cfg width (Js.leftWall cfg p))
    as (Hrx & Hry & Hrs & Hrm & Hrf).
  destruct (js_topWall_fields cfg (Js.rightWall cfg width (Js.leftWall cfg p)))
    as (Hty & Htx & Hts & Htm & Htf).
  destruct (js_bottomWall_fields cfg height
              (Js.topWall cfg (Js.rightWall cfg width (Js.leftWall cfg p))))
    as (Hby & Hbx & Hbs & Hbm & Hbf).
  split; [rewrite Hbx, Htx, Hrx, Hlx, Hls; reflexivity |].
  split; [rewrite Hby, Hty, Hts, Hry, Hrs, Hly, Hls; reflexivity |].
  split; [rewrite Hbs, Hts, Hrs, Hls; reflexivity |].
  split; [rewrite Hbm, Htm, Hrm, Hlm; reflexivity |].
  rewrite Hbf, Htf, Hrf, Hlf; reflexivity.
Qed.

(** On an axis on which the diameter fits, the two tests bring every
    coordinate that is not NaN, the infinite ones included, between the
    radius and the dimension minus the radius. *)
Lemma js_wallAxis_inside (c : num) (r d : R) :
  2 * r <= d ->
  Num.isNaN (Js.wallAxis c (Fin r) (Fin d)) = false ->
  exists v, Js.wallAxis c (Fin r) (Fin d) = Fin v /\ r <= v <= d - r.
Proof.
  intros Hfit. unfold Js.wallAxis. destruct c as [v | | |]; cbn.
  - destruct (Rleb (v + - r) 0) eqn:E1; cbn; unfold Num.geb; cbn.
    + destruct (Rleb d (r + r)) eqn:E2; intros _.
      * apply Rleb_le in E2. eexists. split; [reflexivity | lra].
      * eexists. split; [reflexivity | lra].
    + apply Rleb_gt in E1.
      destruct (Rleb d (v + r)) eqn:E2; intros _.
      * eexists. split; [reflexivity | lra].
      * apply Rleb_gt in E2. eexists. split; [reflexivity | lra].
  - intros _. eexists. split; [reflexivity | lra].
  - unfold Num.geb; cbn. destruct (Rleb d (r + r)) eqn:E2; intros _.
    + apply Rleb_le in E2. eexists. split; [reflexivity | lra].
    + eexists. split; [reflexivity | lra].
  - intros H. discriminate.
Qed.


Lemma js_handleWallCollisions_inBounds (cfg : Physics) (width height : num)
    (p : Js.Particle) :
  Js.fits width height p ->
  Js.located (Js.handleWallCollisions cfg width height p) ->
  Js.inBounds width height (Js.handleWallCollisions cfg width height p).
Proof.
  intros (r & w & h & Hs & -> & -> & Hw & Hh) [Hx Hy].
  destruct (js_handleWallCollisions_axes cfg (Fin w) (Fin h) p)
    as (Ex & Ey & Es & _ & _).
  unfold Js.inBounds. rewrite Ex, Ey, Es, Hs in *.
  destruct (js_wallAxis_inside (Js.x p) r w Hw Hx) as (v & -> & Hv).
  destruct (js_wallAxis_inside (Js.y p) r h Hh Hy) as (u & -> & Hu).
  cbn. repeat split; apply Rleb_le; lra.
Qed.

Lemma js_fits_body (width height : num) (a b : Js.Particle) :
  Js.body a = Js.body b -> Js.fits width height a -> Js.fits width height b.
Proof.
  unfold Js.body, Js.fits. intros H. inversion H.
  intros (r & w & h & Hs & Hrest). exists r, w, h. split; [congruence | exact Hrest].
Qed.

Lemma js_located_body (a b : Js.Particle) :
  Js.body a = Js.body b -> Js.located a -> Js.located b.
Proof. unfold Js.body, Js.located. intros H. inversion H. congruence. Qed.

Lemma js_inBounds_body (width height : num) (a b : Js.Particle) :
  Js.body a = Js.body b -> Js.inBounds width height a -> Js.inBounds width height b.
Proof. unfold Js.body, Js.inBounds. intros H. inversion H. congruence. Qed.

(** ** The frame *)

Lemma js_frame_prefix_inBounds (cfg : Physics) (k : nat) (w : Js.World)
    (i : nat) (q : Js.Particle) :
  (i < k)%nat ->
  Js.particles (Js.frame_prefix cfg k w) !! i = Some q ->
  Js.fits (Js.containerWidth w) (Js.containerHeight w) q ->
  Js.located q ->
  Js.inBounds (Js.containerWidth w) (Js.containerHeight w) q.
Proof.
  revert q. induction k as [| k IH]; intros q Hik; [lia |].
  rewrite js_frame_prefix_S.
  destruct (js_frame_prefix_globals cfg k w) as (Hw & Hh & _ & _).
  destruct (decide (k = i)) as [-> | Hne].
  - intros Hq Hfit Hloc. apply js_update_self in Hq.
    destruct Hq as (p & p2 & _ & _ & ->). rewrite Hw, Hh in *.
    apply js_handleWallCollisions_inBounds; [| exact Hloc].
    destruct (js_handleWallCollisions_axes cfg (Js.containerWidth w)
                (Js.containerHeight w) (Js.updatePosition p2)) as (_ & _ & Es & _).
    destruct Hfit as (r & w0 & h0 & Hs & Hrest). exists r, w0, h0.
    split; [rewrite <- Es; exact Hs | exact Hrest].
  - intros Hq Hfit Hloc. apply js_update_other_body in Hq; [| exact Hne].
    destruct Hq as (p & Hp & Hb).
    apply (js_inBounds_body _ _ p q Hb). apply IH; [lia | exact Hp | |].
    + apply (js_fits_body _ _ q p); [symmetry; exact Hb | exact Hfit].
    + apply (js_located_body q p); [symmetry; exact Hb | exact Hloc].
Qed.

Lemma js_animate_frame_contained (cfg : Physics) (w : Js.World) :
  Js.contained (Js.animate_frame cfg w).
Proof.
  unfold Js.contained. apply Forall_lookup. intros i q Hq Hfit Hloc.
  rewrite js_animate_frame_prefix in *.
  destruct (js_frame_prefix_globals cfg (length (Js.particles w)) w)
    as (Hw & Hh & _ & Hl).
  rewrite Hw, Hh in *.
  apply (js_frame_prefix_inBounds cfg (length (Js.particles w)) w i q);
    [| exact Hq | exact Hfit | exact Hloc].
  apply lookup_lt_Some in Hq. lia.
Qed.


(** ** Agreement of the two embeddings on finite numbers *)

Lemma js_updatePosition_agree (p : Particle) :
  Js.updatePosition (jsParticle p) = jsParticle (updatePosition p).
Proof. reflexivity. Qed.

Lemma js_handleWallCollisions_agree (cfg : Physics) (width height : R) (p : Particle) :
  Js.handleWallCollisions cfg (Fin width) (Fin height) (jsParticle p)
  = jsParticle (handleWallCollisions cfg width height p).
Proof.
  unfold Js.handleWallCollisions, handleWallCollisions.
  assert (Hl : forall p, Js.leftWall cfg (jsParticle p) = jsParticle (leftWall cfg p)).
  { intros q. unfold Js.leftWall, leftWall. cbn. unfold Rminus.
    destruct (Rleb (x q + - size q) 0); reflexivity. }
  assert (Hr : forall p, Js.rightWall cfg (Fin width) (jsParticle p)
                         = jsParticle (rightWall cfg width p)).
  { intros q. unfold Js.rightWall, rightWall, Num.geb, Rgeb. cbn.
    destruct (Rleb width (x q + size q)); reflexivity. }
  assert (Ht : forall p, Js.topWall cfg (jsParticle p) = jsParticle (topWall cfg p)).
  { intros q. unfold Js.topWall, topWall. cbn. unfold Rminus.
    destruct (Rleb (y q + - size q) 0); reflexivity. }
  assert (Hb : forall p, Js.bottomWall cfg (Fin height) (jsParticle p)
                         = jsParticle (bottomWall cfg height p)).
  { intros q. unfold Js.bottomWall, bottomWall, Num.geb, Rgeb. cbn.
    destruct (Rleb height (y q + size q)); reflexivity. }
  rewrite Hl, Hr, Ht, Hb. reflexivity.
Qed.


Lemma js_fits_agree (width height : R) (p : Particle) :
  Js.fits (Fin width) (Fin height) (jsParticle p) <-> fits width height p.
Proof.
  unfold Js.fits, fits. cbn [jsParticle Js.size]. split.
  - intros (r & w & h & Hs & Hw & Hh & H). inversion Hs. inversion Hw. inversion Hh.
    subst. exact H.
  - intros H. exists (size p), width, height. repeat split; try reflexivity; apply H.
Qed.

Lemma js_inBounds_agree (width height : R) (p : Particle) :
  Js.inBounds (Fin width) (Fin height) (jsParticle p) <-> inBounds width height p.
Proof.
  unfold Js.inBounds, inBounds.
  cbn [jsParticle Js.x Js.y Js.size Num.sub Num.neg Num.add Num.leb].
  rewrite !Rleb_le. unfold Rminus. tauto.
Qed.

Lemma js_updateDOM_agree (p : Particle) :
  Js.updateDOM (jsParticle p)
  = {| Js.css_left := Fin (css_left (updateDOM p));
       Js.css_top := Fin (css_top (updateDOM p));
       Js.css_width := Fin (css_width (updateDOM p));
       Js.css_height := Fin (css_height (updateDOM p)) |}.
Proof. reflexivity. Qed.

Lemma js_animate_frame_single (cfg : Physics) (width height : num)
    (m : option (num * num)) (p : Js.Particle) :
  Js.animate_frame cfg
    {| Js.containerWidth := width; Js.containerHeight := height; Js.mouse := m;
       Js.particles := [p] |}
  = {| Js.containerWidth := width; Js.containerHeight := height; Js.mouse := m;
       Js.particles :=
         [Js.handleWallCollisions cfg width height
            (Js.updatePosition (Js.repelFromMouse cfg m p))] |}.
Proof. reflexivity. Qed.



(** ** A speed that has overflowed *)






(** ** Rendering, with infinities and NaN *)



(** ** The event loop, with infinities and NaN *)

Lemma js_clamp_inside (c : num) (r d : R) :
  2 * r <= d ->
  Num.isNaN (Js.utils.clamp c (Fin r) (Num.sub (Fin d) (Fin r))) = false ->
  exists v,
    Js.utils.clamp c (Fin r) (Num.sub (Fin d) (Fin r)) = Fin v /\ r <= v <= d - r.
Proof.
  intros Hfit. unfold Js.utils.clamp. destruct c as [v | | |]; cbn.
  - destruct (Rleb r v) eqn:E1; cbn.
    + apply Rleb_le in E1. destruct (Rleb v (d + - r)) eqn:E2; intros _.
      * apply Rleb_le in E2. eexists. split; [reflexivity | lra].
      * eexists. split; [reflexivity | lra].
    + apply Rleb_gt in E1. destruct (Rleb r (d + - r)) eqn:E2; intros _.
      * eexists. split; [reflexivity | lra].
      * apply Rleb_gt in E2. lra.
  - intros _. eexists. split; [reflexivity | lra].
  - destruct (Rleb r (d + - r)) eqn:E2; intros _.
    + eexists. split; [reflexivity | lra].
    + apply Rleb_gt in E2. lra.
  - intros H. discriminate.
Qed.

Lemma js_onResize_contained (newWidth newHeight : num) (w : Js.World) :
  Js.contained (Js.onResize newWidth newHeight w).
Proof.
  unfold Js.contained, Js.onResize.
  cbn [Js.containerWidth Js.containerHeight Js.particles].
  apply Forall_fmap. apply Forall_forall. intros p _.
  unfold compose. intros (r & wd & ht & Hs & -> & -> & Hw & Hh) [Hx Hy].
  unfold Js.inBounds, Js.clamp in *.
  cbn [Js.x Js.y Js.size Js.set_position] in *. rewrite Hs in *.
  destruct (js_clamp_inside (Js.x p) r wd Hw Hx) as (v & -> & Hv).
  destruct (js_clamp_inside (Js.y p) r ht Hh Hy) as (u & -> & Hu).
  cbn. repeat split; apply Rleb_le; lra.
Qed.

Lemma js_handleEvent_contained (cfg : Physics) (w : Js.World) (e : Js.Event) :
  Js.contained w \/ Js.movesParticles e -> Js.contained (Js.handleEvent cfg w e).
Proof.
  destruct e as [| pageX pageY offsetLeft offsetTop | newWidth newHeight];
    cbn [Js.handleEvent Js.movesParticles].
  - intros _. apply js_animate_frame_contained.
  - intros [H | []]. exact H.
  - intros _. apply js_onResize_contained.
Qed.

Lemma js_utils_clamp_agree (v lo hi : R) :
  Js.utils.clamp (Fin v) (Fin lo) (Fin hi) = Fin (utils.clamp v lo hi).
Proof.
  unfold Js.utils.clamp, utils.clamp, Rmin, Rmax. cbn. unfold Rleb.
  destruct (Rle_dec lo v); cbn; unfold Rleb;
    match goal with |- context [Rle_dec ?a ?b] => destruct (Rle_dec a b) end;
    reflexivity.
Qed.

Lemma js_clamp_agree (width height : R) (p : Particle) :
  Js.clamp (Fin width) (Fin height) (jsParticle p) = jsParticle (clamp width height p).
Proof.
  unfold Js.clamp, clamp. cbn [jsParticle Js.x Js.y Js.size Js.set_position Num.sub Num.neg Num.add].
  rewrite !js_utils_clamp_agree. reflexivity.
Qed.

(** X18: containment is an invariant of the whole event loop, for the
    particles that have a position. Whatever the sequence of frames,
    pointer moves and resizes, if it starts from a contained world or has
    at least one frame or resize in it, then at the end every particle
    whose diameter fits in the current container and whose coordinates are
    not NaN lies inside the container. *)
Theorem runEvents_contained_located (cfg : Physics) (es : list Js.Event) (w : Js.World) :
  Js.contained w \/ Exists Js.movesParticles es ->
  Js.contained (Js.runEvents cfg es w).
Proof.
  revert w. induction es as [| e es IH]; intros w H.
  - destruct H as [H | H]; [exact H | inversion H].
  - cbn [Js.runEvents fold_left]. apply IH.
    destruct H as [H | H].
    + left. apply js_handleEvent_contained. left. exact H.
    + apply Exists_cons in H. destruct H as [H | H].
      * left. apply js_handleEvent_contained. right. exact H.
      * right. exact H.
Qed.

Lemma runEvents_contained_located_witness :
  let es := [Js.EvResize (Fin 200) (Fin 300); Js.EvFrame;
             Js.EvMouseMove (Fin 5) (Fin 5) (Fin 0) (Fin 0)] in
  Exists Js.movesParticles es
  /\ match Js.particles (Js.runEvents PHYSICS es farScene) with
     | [q] =>
         Js.fits (Fin 200) (Fin 300) q /\ Js.located q
         /\ Js.inBounds (Fin 200) (Fin 300) q
     | _ => False
     end.
Proof.
  intros es.
  assert (H : Exists Js.movesParticles es) by (apply Exists_cons_hd; exact I).
  split; [exact H |].
  pose proof (runEvents_contained_located PHYSICS es farScene (or_intror H)) as Hc.
  unfold Js.contained in Hc.
  set (p := {| x := 300; y := 150; size := 25; mass := 50; friction := 995 / 1000;
               velocity := {| vx := 1; vy := 2 |} |}).
  assert (E : Js.runEvents PHYSICS es farScene
              = {| Js.containerWidth := Fin 200; Js.containerHeight := Fin 300;
                   Js.mouse := Some (Fin (5 + - 0), Fin (5 + - 0));
                   Js.particles :=
                     [jsParticle (handleWallCollisions PHYSICS 200 300
                                    (updatePosition (clamp 200 300 p)))] |}).
  { unfold es, farScene. change farBall with (jsParticle p).
    cbn [Js.runEvents fold_left Js.handleEvent].
    unfold Js.onResize. cbn [Js.particles Js.mouse fmap list_fmap].
    rewrite js_clamp_agree, js_animate_frame_single.
    cbn [Js.repelFromMouse].
    rewrite js_updatePosition_agree, js_handleWallCollisions_agree.
    reflexivity. }
  rewrite E in *. cbn [Js.particles Js.containerWidth Js.containerHeight] in *.
  apply Forall_cons in Hc. destruct Hc as [Hc _].
  set (q := jsParticle _) in *.
  assert (Hfit : Js.fits (Fin 200) (Fin 300) q).
  { exists 25, 200, 300. unfold q. cbn [jsParticle Js.size].
    destruct (body_wall_size PHYSICS 200 300 (updatePosition (clamp 200 300 p)))
      as (-> & _).
    repeat split; try reflexivity; lra. }
  assert (Hloc : Js.located q) by (split; reflexivity).
  split; [exact Hfit | split; [exact Hloc | exact (Hc Hfit Hloc)]].
Defined.

(** ** Placement of several particles *)

Lemma drawsAfter_S (cfg : Physics) (rng : nat -> R) (width height : R) (m : nat) :
  Nat.iter (S m) (createParticle cfg rng width height) ([], 0%nat)
  = createParticle cfg rng width height
      (Nat.iter m (createParticle cfg rng width height) ([], 0%nat)).
Proof. reflexivity. Qed.

Lemma createParticles_steps (cfg : Physics) (rng : nat -> R) (width height : R)
    (m : nat) :
  length (fst (Nat.iter m (createParticle cfg rng width height) ([], 0%nat))) = m
  /\ (drawsAfter cfg rng width height m + 6
      <= drawsAfter cfg rng width height (S m)
      <= drawsAfter cfg rng width height m + 206)%nat
  /\ ((forall j, (j < m)%nat ->
         drawsAfter cfg rng width height (S j)
         < drawsAfter cfg rng width height j + 206)%nat ->
      spread (fst (Nat.iter m (createParticle cfg rng width height) ([], 0%nat)))).
Proof.
  unfold drawsAfter. induction m as [| m (IHl & IHk & IHs)].
  - split; [reflexivity | split].
    + rewrite drawsAfter_S. cbn [Nat.iter nat_rect].
      destruct (createParticle_spec cfg rng width height [] 0)
        as (r & a & b & Hr & -> & _).
      unfold MAX_ATTEMPTS in Hr. cbn [snd]. lia.
    + intros _ i j a b _ Ha. discriminate.
  - rewrite !drawsAfter_S in *.
    destruct (Nat.iter m (createParticle cfg rng width height) ([], 0%nat))
      as [ps k] eqn:E.
    destruct (createParticle_spec cfg rng width height ps k)
      as (r & a & b & Hr & Hstep & Hfree).
    rewrite Hstep in *. cbn [fst snd] in *.
    split; [rewrite length_app, IHl; cbn [length]; lia |]. split.
    + destruct (createParticle_spec cfg rng width height
                  (ps ++ [newParticle cfg
                            (fst (randomPosition width height (randomSize cfg (rng k))
                                    (rng a) (rng (S a))))
                            (snd (randomPosition width height (randomSize cfg (rng k))
                                    (rng a) (rng (S a))))
                            (randomSize cfg (rng k)) (rng b) (rng (S b))])
                  (k + 6 + 2 * r))
        as (r' & a' & b' & Hr' & -> & _).
      unfold MAX_ATTEMPTS in Hr'. cbn [snd]. lia.
    + intros Hall. apply spread_snoc.
      * apply IHs. intros j Hj. apply Hall. lia.
      * apply Hfree. unfold MAX_ATTEMPTS.
        specialize (Hall m ltac:(lia)).
        rewrite drawsAfter_S in Hall. rewrite E, Hstep in Hall. cbn [snd] in Hall. lia.
Qed.

(** X15: [createParticles] makes between 6 and 206 draws for each
    particle, and placement is best effort: if no particle took all 206
    draws, so that no search for a position used up its retries, then no
    two particles of the array overlap. *)
Theorem createParticles_spread (cfg : Physics) (rng : nat -> R) (width height : R) :
  let n := Z.to_nat (PARTICLE_COUNT cfg) in
  let st := createParticles cfg rng width height ([], 0%nat) in
  let draws := drawsAfter cfg rng width height in
  length (fst st) = n
  /\ snd st = draws n
  /\ (forall m, (draws m + 6 <= draws (S m) <= draws m + 206)%nat)
  /\ ((forall m, (m < n)%nat -> (draws (S m) < draws m + 206)%nat) ->
      spread (fst st)).
Proof.
  intros n st draws. subst st draws. unfold createParticles. fold n.
  destruct (createParticles_steps cfg rng width height n) as (Hl & _ & Hs).
  split; [exact Hl | split; [reflexivity | split; [| exact Hs]]].
  intros m. apply (createParticles_steps cfg rng width height m).
Qed.

Lemma createParticle_first_free (cfg : Physics) (rng : nat -> R) (width height : R)
    (ps : list Particle) (k : nat) :
  overlapsSome (randomSize cfg (rng k))
    (randomPosition width height (randomSize cfg (rng k)) (rng (S k)) (rng (S (S k))))
    ps = false ->
  createParticle cfg rng width height (ps, k)
  = (ps ++ [newParticle cfg
              (fst (randomPosition width height (randomSize cfg (rng k))
                      (rng (S k)) (rng (S (S k)))))
              (snd (randomPosition width height (randomSize cfg (rng k))
                      (rng (S k)) (rng (S (S k)))))
              (randomSize cfg (rng k)) (rng (S (S (S (S k))))) (rng (S (S (S (S (S k))))))],
     (k + 6)%nat).
Proof.
  intros Hfree. unfold createParticle, findValidPosition.
  change MAX_ATTEMPTS with (S 99). cbn [findValidPosition_loop].
  rewrite Hfree. cbn [negb fst snd]. f_equal. lia.
Qed.

Lemma spacedDraws_first :
  Nat.iter 1 (createParticle twoParticles spacedDraws 400 300) ([], 0%nat)
  = ([newParticle twoParticles
        (fst (randomPosition 400 300 (randomSize twoParticles 0) 0 0))
        (snd (randomPosition 400 300 (randomSize twoParticles 0) 0 0))
        (randomSize twoParticles 0) 0 0], 6%nat).
Proof. reflexivity. Qed.

Lemma spacedDraws_second :
  Nat.iter 2 (createParticle twoParticles spacedDraws 400 300) ([], 0%nat)
  = ([newParticle twoParticles
        (fst (randomPosition 400 300 (randomSize twoParticles 0) 0 0))
        (snd (randomPosition 400 300 (randomSize twoParticles 0) 0 0))
        (randomSize twoParticles 0) 0 0;
      newParticle twoParticles
        (fst (randomPosition 400 300 (randomSize twoParticles 0) (5 / 10) 0))
        (snd (randomPosition 400 300 (randomSize twoParticles 0) (5 / 10) 0))
        (randomSize twoParticles 0) 0 0], 12%nat).
Proof.
  rewrite drawsAfter_S, spacedDraws_first.
  rewrite createParticle_first_free; [reflexivity |].
  unfold overlapsSome. cbn [existsb spacedDraws Nat.eqb].
  rewrite orb_false_r. apply Rltb_ge.
  unfold newParticle, randomPosition, randomSize, twoParticles; fields.
  cbn [MIN_SIZE MAX_SIZE].
  rewrite (distance_eq _ _ _ _ 175); [lra | lra | field].
Qed.

Lemma createParticles_spread_witness :
  (forall m, (m < Z.to_nat (PARTICLE_COUNT twoParticles))%nat ->
             (drawsAfter twoParticles spacedDraws 400 300 (S m)
              < drawsAfter twoParticles spacedDraws 400 300 m + 206)%nat)
  /\ length (fst (createParticles twoParticles spacedDraws 400 300 ([], 0%nat))) = 2%nat
  /\ spread (fst (createParticles twoParticles spacedDraws 400 300 ([], 0%nat))).
Proof.
  assert (H : forall m, (m < Z.to_nat (PARTICLE_COUNT twoParticles))%nat ->
                        (drawsAfter twoParticles spacedDraws 400 300 (S m)
                         < drawsAfter twoParticles spacedDraws 400 300 m + 206)%nat).
  { change (Z.to_nat (PARTICLE_COUNT twoParticles)) with 2%nat.
    intros m Hm. unfold drawsAfter.
    destruct m as [| [| m]]; [| | lia].
    - rewrite spacedDraws_first. cbn. lia.
    - rewrite spacedDraws_second, spacedDraws_first. cbn. lia. }
  split; [exact H | split].
  - apply (createParticles_spread twoParticles spacedDraws 400 300).
  - apply (createParticles_spread twoParticles spacedDraws 400 300). exact H.
Defined.
